(** * tsinfer-qc: the tree-position cursor and the per-tree statistics loop

    A shallow embedding of [TreePosition.next] and [_compute_per_tree_stats]
    of [utils.py], and the properties of the two that the specification
    states.

    Conventions of the embedding.
    - Genome coordinates ([edges_left], [edges_right], [sequence_length],
      [interval]) are float64 in the source.  The cursor only compares and
      copies them, so they are rationals here: every finite float64 is a
      rational and [==], [<] and [min] agree on them.
    - Node times are subtracted and accumulated, so they stay binary64
      ([PrimFloat]).
    - int32 / int64 values are integers with the wrap-around written out
      ([int32], [int64]).
    - The code is compiled by numba without bounds checks.  An index outside
      the array after Python's wrap of negative indices is a fault
      ([IndexOutOfBounds]).  With [chk = true] the wrap is switched off and
      any index outside [0, len) is a fault: a run that is [Ok] under
      [chk = true] made every access in bounds. *)

From Stdlib Require Import ZArith QArith Qminmax Lqa List Lia Bool Permutation.
From Stdlib Require Import Floats.PrimFloat Numbers.Cyclic.Int63.Uint63.
Import ListNotations.
Local Open Scope Z_scope.

(** ** Results and faults *)

Inductive error : Type :=
| IndexOutOfBounds
| NegativeDimensions
| OutOfFuel.

Inductive result (A : Type) : Type :=
| Ok (a : A)
| Err (e : error).
Arguments Ok {A} a.
Arguments Err {A} e.

Definition bind {A B : Type} (m : result A) (f : A -> result B) : result B :=
  match m with
  | Ok a => f a
  | Err e => Err e
  end.

Notation "x <- m ;; k" := (bind m (fun x => k))
  (at level 61, m at next level, right associativity).

(** [r'] gives every result that [r] gives. *)
Definition refines {A : Type} (r r' : result A) : Prop :=
  forall a, r = Ok a -> r' = Ok a.

(** ** Machine integers *)

Definition wrap (w : Z) (z : Z) : Z := (z + 2 ^ (w - 1)) mod 2 ^ w - 2 ^ (w - 1).
Definition int32 : Z -> Z := wrap 32.
Definition int64 : Z -> Z := wrap 64.

(** An int64 stored into a float64 array. *)
Definition float_of_int64 (z : Z) : float :=
  if z =? - 2 ^ 63 then (-0x1p63)%float
  else if z <? 0 then PrimFloat.opp (PrimFloat.of_uint63 (Uint63.of_Z (- z)))
  else PrimFloat.of_uint63 (Uint63.of_Z z).

(** ** Arrays *)

Definition index (chk : bool) (len i : Z) : result nat :=
  if (0 <=? i) && (i <? len) then Ok (Z.to_nat i)
  else if negb chk && (- len <=? i) && (i <? 0) then Ok (Z.to_nat (i + len))
  else Err IndexOutOfBounds.

Definition aget {A : Type} (chk : bool) (a : list A) (i : Z) : result A :=
  n <- index chk (Z.of_nat (length a)) i ;;
  match nth_error a n with
  | Some v => Ok v
  | None => Err IndexOutOfBounds
  end.

Fixpoint upd {A : Type} (a : list A) (n : nat) (v : A) : list A :=
  match a, n with
  | [], _ => []
  | _ :: a', O => v :: a'
  | x :: a', S n' => x :: upd a' n' v
  end.

Definition aset {A : Type} (chk : bool) (a : list A) (i : Z) (v : A) : result (list A) :=
  n <- index chk (Z.of_nat (length a)) i ;;
  Ok (upd a n v).

(** [np.zeros(n)] *)
Definition zeros {A : Type} (zero : A) (n : Z) : result (list A) :=
  if n <? 0 then Err NegativeDimensions else Ok (repeat zero (Z.to_nat n)).

(** [for j in range(a, b)] *)
Fixpoint for_count {S : Type} (n : nat) (j : Z) (body : Z -> S -> result S) (s : S)
  : result S :=
  match n with
  | O => Ok s
  | S n' => s' <- body j s ;; for_count n' (j + 1) body s'
  end.

Definition for_range {S : Type} (a b : Z) (body : Z -> S -> result S) (s : S)
  : result S :=
  for_count (Z.to_nat (b - a)) a body s.

(** ** Coordinates *)

Definition Qlt_bool (x y : Q) : bool := negb (Qle_bool y x).

(** Python's [min(a, b)]: the first argument unless the second is smaller. *)
Definition pymin (a b : Q) : Q := if Qlt_bool b a then b else a.

(** ** The cursor: class TreePosition *)

Record TreePosition : Type := {
  num_edges : Z;
  sequence_length : Q;
  edges_left : list Q;
  edges_right : list Q;
  edge_insertion_order : list Z;
  edge_removal_order : list Z;
  edge_insertion_index : Z;
  edge_removal_index : Z;
  interval : Q * Q;
  in_range : Z * Z;
  out_range : Z * Z
}.

(** [TreePosition.__init__] *)
Definition TreePosition_init (num_edges : Z) (sequence_length : Q)
    (edges_left edges_right : list Q)
    (edge_insertion_order edge_removal_order : list Z) : TreePosition :=
  {| num_edges := num_edges;
     sequence_length := sequence_length;
     edges_left := edges_left;
     edges_right := edges_right;
     edge_insertion_order := edge_insertion_order;
     edge_removal_order := edge_removal_order;
     edge_insertion_index := 0;
     edge_removal_index := 0;
     interval := (0%Q, 0%Q);
     in_range := (0, 0);
     out_range := (0, 0) |}.

Definition set_ranges (tp : TreePosition) (iv : Q * Q) (inr outr : Z * Z)
  : TreePosition :=
  {| num_edges := num_edges tp;
     sequence_length := sequence_length tp;
     edges_left := edges_left tp;
     edges_right := edges_right tp;
     edge_insertion_order := edge_insertion_order tp;
     edge_removal_order := edge_removal_order tp;
     edge_insertion_index := edge_insertion_index tp;
     edge_removal_index := edge_removal_index tp;
     interval := iv;
     in_range := inr;
     out_range := outr |}.

(** [while k < M and coord[order[k]] == left: k += 1].  The loop makes at
    most [M - k] rounds, which is the fuel [scan] gives it. *)
Fixpoint scan_loop (chk : bool) (fuel : nat) (M : Z) (coord : list Q)
    (order : list Z) (left : Q) (k : Z) : result Z :=
  if k <? M then
    match fuel with
    | O => Err OutOfFuel
    | S fuel' =>
        e <- aget chk order k ;;
        x <- aget chk coord e ;;
        if Qeq_bool x left
        then scan_loop chk fuel' M coord order left (int64 (k + 1))
        else Ok k
    end
  else Ok k.

Definition scan (chk : bool) (M : Z) (coord : list Q) (order : list Z)
    (left : Q) (k : Z) : result Z :=
  scan_loop chk (Z.to_nat (M - k)) M coord order left k.

(** [TreePosition.next] *)
Definition next (chk : bool) (tp : TreePosition) : result (bool * TreePosition) :=
  let left := snd (interval tp) in
  let j := snd (in_range tp) in
  let k := snd (out_range tp) in
  let M := num_edges tp in
  k' <- scan chk M (edges_right tp) (edge_removal_order tp) left k ;;
  j' <- scan chk M (edges_left tp) (edge_insertion_order tp) left j ;;
  let right := sequence_length tp in
  right <- (if j' <? M then
              e <- aget chk (edge_insertion_order tp) j' ;;
              x <- aget chk (edges_left tp) e ;;
              Ok (pymin right x)
            else Ok right) ;;
  right <- (if k' <? M then
              e <- aget chk (edge_removal_order tp) k' ;;
              x <- aget chk (edges_right tp) e ;;
              Ok (pymin right x)
            else Ok right) ;;
  Ok ((j' <? M) || Qlt_bool left (sequence_length tp),
      set_ranges tp (left, right) (j, j') (k, k')).

(** ** The accumulator: _compute_per_tree_stats *)

Record stats : Type := {
  tbl : list float;
  num_internal_nodes : list float;
  max_arity : list Z;
  num_children : list Z;
  nodes_with_arity : list Z;
  current_tbl : float;
  tree_index : Z;
  current_num_internal_nodes : Z;
  current_max_arity : Z
}.

Section Accumulator.

Variable chk : bool.
Variables (nodes_time : list float) (edges_parent edges_child : list Z).

(** Body of the loop over [out_range]. *)
Definition remove_edge (tp : TreePosition) (j : Z) (s : stats) : result stats :=
  e <- aget chk (edge_removal_order tp) j ;;
  p <- aget chk edges_parent e ;;
  ncp <- aget chk (num_children s) p ;;
  h <- aget chk (nodes_with_arity s) ncp ;;
  nwa <- aset chk (nodes_with_arity s) ncp (int32 (h - 1)) ;;
  ncp <- aget chk (num_children s) p ;;
  dec <- (if ncp =? current_max_arity s
          then h <- aget chk nwa ncp ;; Ok (h =? 1)
          else Ok false) ;;
  let cma :=
    if (dec : bool) then int64 (current_max_arity s - 1) else current_max_arity s in
  nc <- aset chk (num_children s) p (int32 (ncp - 1)) ;;
  ncp <- aget chk nc p ;;
  r <- (if ncp =? 0
        then Ok (int64 (current_num_internal_nodes s - 1), nwa)
        else h <- aget chk nwa ncp ;;
             nwa' <- aset chk nwa ncp (int32 (h + 1)) ;;
             Ok (current_num_internal_nodes s, nwa')) ;;
  c <- aget chk edges_child e ;;
  tp_ <- aget chk nodes_time p ;;
  tc <- aget chk nodes_time c ;;
  let branch_length := PrimFloat.sub tp_ tc in
  Ok {| tbl := tbl s;
        num_internal_nodes := num_internal_nodes s;
        max_arity := max_arity s;
        num_children := nc;
        nodes_with_arity := snd r;
        current_tbl := PrimFloat.sub (current_tbl s) branch_length;
        tree_index := tree_index s;
        current_num_internal_nodes := fst r;
        current_max_arity := cma |}.

(** Body of the loop over [in_range]. *)
Definition insert_edge (tp : TreePosition) (j : Z) (s : stats) : result stats :=
  e <- aget chk (edge_insertion_order tp) j ;;
  p <- aget chk edges_parent e ;;
  ncp <- aget chk (num_children s) p ;;
  r <- (if ncp =? 0
        then Ok (int64 (current_num_internal_nodes s + 1), nodes_with_arity s)
        else h <- aget chk (nodes_with_arity s) ncp ;;
             nwa <- aset chk (nodes_with_arity s) ncp (int32 (h - 1)) ;;
             Ok (current_num_internal_nodes s, nwa)) ;;
  nc <- aset chk (num_children s) p (int32 (ncp + 1)) ;;
  ncp <- aget chk nc p ;;
  h <- aget chk (snd r) ncp ;;
  nwa <- aset chk (snd r) ncp (int32 (h + 1)) ;;
  let cma := if current_max_arity s <? ncp then ncp else current_max_arity s in
  c <- aget chk edges_child e ;;
  tp_ <- aget chk nodes_time p ;;
  tc <- aget chk nodes_time c ;;
  let branch_length := PrimFloat.sub tp_ tc in
  Ok {| tbl := tbl s;
        num_internal_nodes := num_internal_nodes s;
        max_arity := max_arity s;
        num_children := nc;
        nodes_with_arity := nwa;
        current_tbl := PrimFloat.add (current_tbl s) branch_length;
        tree_index := tree_index s;
        current_num_internal_nodes := fst r;
        current_max_arity := cma |}.

(** The three stores and the increment that end the body of the while loop. *)
Definition emit (s : stats) : result stats :=
  tbl' <- aset chk (tbl s) (tree_index s) (current_tbl s) ;;
  nin <- aset chk (num_internal_nodes s) (tree_index s)
           (float_of_int64 (current_num_internal_nodes s)) ;;
  ma <- aset chk (max_arity s) (tree_index s) (int32 (current_max_arity s)) ;;
  Ok {| tbl := tbl';
        num_internal_nodes := nin;
        max_arity := ma;
        num_children := num_children s;
        nodes_with_arity := nodes_with_arity s;
        current_tbl := current_tbl s;
        tree_index := int64 (tree_index s + 1);
        current_num_internal_nodes := current_num_internal_nodes s;
        current_max_arity := current_max_arity s |}.

(** One round of [while tree_pos.next(): ...]: the call of [next] and, when
    it answers true, the body. *)
Definition tree_step (c : TreePosition * stats)
  : result (bool * (TreePosition * stats)) :=
  r <- next chk (fst c) ;;
  let tp := snd r in
  if fst r then
    s <- for_range (fst (out_range tp)) (snd (out_range tp)) (remove_edge tp) (snd c) ;;
    s <- for_range (fst (in_range tp)) (snd (in_range tp)) (insert_edge tp) s ;;
    s <- emit s ;;
    Ok (true, (tp, s))
  else Ok (false, (tp, snd c)).

Fixpoint tree_loop (fuel : nat) (c : TreePosition * stats)
  : result (TreePosition * stats) :=
  match fuel with
  | O => Err OutOfFuel
  | S fuel' =>
      r <- tree_step c ;;
      if fst r then tree_loop fuel' (snd r) else Ok (snd r)
  end.

(** The state the while loop starts from. *)
Definition stats_init (num_trees num_nodes : Z) : result stats :=
  tbl0 <- zeros 0%float num_trees ;;
  nin0 <- zeros 0%float num_trees ;;
  ma0 <- zeros 0 num_trees ;;
  nc0 <- zeros 0 num_nodes ;;
  nwa0 <- zeros 0 num_nodes ;;
  Ok {| tbl := tbl0;
        num_internal_nodes := nin0;
        max_arity := ma0;
        num_children := nc0;
        nodes_with_arity := nwa0;
        current_tbl := 0%float;
        tree_index := 0;
        current_num_internal_nodes := 0;
        current_max_arity := 0 |}.

Definition _compute_per_tree_stats (fuel : nat) (tree_pos : TreePosition)
    (num_trees num_nodes : Z) : result (list float * list float * list Z) :=
  s0 <- stats_init num_trees num_nodes ;;
  c <- tree_loop fuel (tree_pos, s0) ;;
  let s := snd c in
  Ok (tbl s, num_internal_nodes s, max_arity s).

End Accumulator.

(** ** Driving the cursor on its own

    [traverse] calls [next] until it answers false.  It returns the cursor
    after each call that answered true, in order, and the cursor after the
    call that answered false. *)

Fixpoint traverse (chk : bool) (fuel : nat) (tp : TreePosition)
  : result (list TreePosition * TreePosition) :=
  match fuel with
  | O => Err OutOfFuel
  | S fuel' =>
      r <- next chk tp ;;
      if fst r then
        rest <- traverse chk fuel' (snd r) ;;
        Ok (snd r :: fst rest, snd rest)
      else Ok ([], snd r)
  end.

(** The cursors from which [next] is called during a traversal that starts
    at [tp0]. *)
Inductive reachable (chk : bool) (tp0 : TreePosition) : TreePosition -> Prop :=
| reach_start : reachable chk tp0 tp0
| reach_next tp tp' :
    reachable chk tp0 tp -> next chk tp = Ok (true, tp') -> reachable chk tp0 tp'.

(** ** Reading the tables *)

Definition zidx {A : Type} (d : A) (a : list A) (i : Z) : A := nth (Z.to_nat i) a d.

Definition left_of (tp : TreePosition) (e : Z) : Q := zidx 0%Q (edges_left tp) e.
Definition right_of (tp : TreePosition) (e : Z) : Q := zidx 0%Q (edges_right tp) e.
Definition ins_at (tp : TreePosition) (i : Z) : Z := zidx 0 (edge_insertion_order tp) i.
Definition rem_at (tp : TreePosition) (i : Z) : Z := zidx 0 (edge_removal_order tp) i.

Definition zrange (n : Z) : list Z := map Z.of_nat (seq 0 (Z.to_nat n)).

(** The entries of [a] at the positions [lo, hi). *)
Definition slice {A : Type} (a : list A) (lo hi : Z) : list A :=
  firstn (Z.to_nat (hi - lo)) (skipn (Z.to_nat lo) a).

(** ** The input invariants of the specification

    The four edge arrays have [num_edges] entries; the two orders are
    permutations of the edge ids (int32, hence fewer than 2^31 edges) that
    list the edges by ascending left end and by ascending right end; every
    edge spans a non-empty interval inside the genome, whose length is
    positive. *)

Record well_formed (tp : TreePosition) : Prop := {
  wf_edges : 0 <= num_edges tp < 2 ^ 31;
  wf_length : (0 < sequence_length tp)%Q;
  wf_len_left : Z.of_nat (length (edges_left tp)) = num_edges tp;
  wf_len_right : Z.of_nat (length (edges_right tp)) = num_edges tp;
  wf_ins_perm : Permutation (edge_insertion_order tp) (zrange (num_edges tp));
  wf_rem_perm : Permutation (edge_removal_order tp) (zrange (num_edges tp));
  wf_ins_sorted : forall i i', 0 <= i -> i <= i' -> i' < num_edges tp ->
    (left_of tp (ins_at tp i) <= left_of tp (ins_at tp i'))%Q;
  wf_rem_sorted : forall i i', 0 <= i -> i <= i' -> i' < num_edges tp ->
    (right_of tp (rem_at tp i) <= right_of tp (rem_at tp i'))%Q;
  wf_span : forall e, 0 <= e < num_edges tp ->
    (0 <= left_of tp e)%Q /\ (left_of tp e < right_of tp e)%Q
    /\ (right_of tp e <= sequence_length tp)%Q
}.

(** The part of the invariants that keeps every read of [next] inside its
    array: the four arrays have [num_edges] entries and the two orders hold
    edge ids. *)
Record shaped (tp : TreePosition) : Prop := {
  sh_edges : 0 <= num_edges tp < 2 ^ 63;
  sh_len_left : Z.of_nat (length (edges_left tp)) = num_edges tp;
  sh_len_right : Z.of_nat (length (edges_right tp)) = num_edges tp;
  sh_len_ins : Z.of_nat (length (edge_insertion_order tp)) = num_edges tp;
  sh_len_rem : Z.of_nat (length (edge_removal_order tp)) = num_edges tp;
  sh_ins_entry : forall i, 0 <= i < num_edges tp -> 0 <= ins_at tp i < num_edges tp;
  sh_rem_entry : forall i, 0 <= i < num_edges tp -> 0 <= rem_at tp i < num_edges tp
}.

(** ** Local trees by direct scanning *)

Section Brute.

Variable tp : TreePosition.
Variable edges_parent : list Z.

Definition parent_of (e : Z) : Z := zidx 0 edges_parent e.

(** Edge [e] covers position [x]. *)
Definition covers (x : Q) (e : Z) : bool :=
  Qle_bool (left_of tp e) x && Qlt_bool x (right_of tp e).

(** The edges of the tree at [x] that have [n] as parent. *)
Definition children_edges (x : Q) (n : Z) : list Z :=
  filter (fun e => covers x e && (parent_of e =? n)) (zrange (num_edges tp)).

Definition out_degree (x : Q) (n : Z) : Z := Z.of_nat (length (children_edges x n)).

Definition brute_max_arity (num_nodes : Z) (x : Q) : Z :=
  fold_right Z.max 0 (map (out_degree x) (zrange num_nodes)).

(** Number of nodes whose out-degree in the tree at [x] is [a]. *)
Definition nodes_of_arity (num_nodes : Z) (x : Q) (a : Z) : Z :=
  Z.of_nat (length (filter (fun n => out_degree x n =? a) (zrange num_nodes))).

End Brute.

(** The three-edge table of the specification: node 0 has the children 1, 2
    and 3 over [0,1), [0,2) and [0,3). *)
Definition three_edges : TreePosition :=
  TreePosition_init 3 3 [0; 0; 0]%Q [1; 2; 3]%Q [0; 1; 2] [0; 1; 2].
Definition three_edges_time : list float := [1; 0; 0; 0]%float.
Definition three_edges_parent : list Z := [0; 0; 0].
Definition three_edges_child : list Z := [1; 2; 3].

(** Two nodes of arity 2: 0 over 2 and 3, 1 over 4 and 5; the edge 0-2 ends
    first. *)
Definition two_pairs : TreePosition :=
  TreePosition_init 4 2 [0; 0; 0; 0]%Q [1; 2; 2; 2]%Q [0; 1; 2; 3] [0; 1; 2; 3].
Definition two_pairs_time : list float := [1; 1; 0; 0; 0; 0]%float.
Definition two_pairs_parent : list Z := [0; 0; 1; 1].
Definition two_pairs_child : list Z := [2; 3; 4; 5].

(** * Invariants, reference definitions and test tables *)

(** Fields that [next] never writes. *)
Definition same_table (tp tp' : TreePosition) : Prop :=
  num_edges tp' = num_edges tp
  /\ sequence_length tp' = sequence_length tp
  /\ edges_left tp' = edges_left tp
  /\ edges_right tp' = edges_right tp
  /\ edge_insertion_order tp' = edge_insertion_order tp
  /\ edge_removal_order tp' = edge_removal_order tp.

(** The right end [next] computes once both cursors stand at [j'] and [k']. *)
Definition new_right (tp : TreePosition) (j' k' : Z) : Q :=
  let r := sequence_length tp in
  let r := if j' <? num_edges tp then pymin r (left_of tp (ins_at tp j')) else r in
  if k' <? num_edges tp then pymin r (right_of tp (rem_at tp k')) else r.

(** What holds of a cursor from which [next] is about to be called: the
    entries before the two cursors lie left of the coming left end [x], the
    entries from the cursors on do not. *)
Record ready (tp : TreePosition) : Prop := {
  rd_j : 0 <= snd (in_range tp) <= num_edges tp;
  rd_k : 0 <= snd (out_range tp) <= num_edges tp;
  rd_pos : (0 <= snd (interval tp) <= sequence_length tp)%Q;
  rd_ins_done : forall i, 0 <= i < snd (in_range tp) ->
    (left_of tp (ins_at tp i) < snd (interval tp))%Q;
  rd_ins_todo : forall i, snd (in_range tp) <= i < num_edges tp ->
    (snd (interval tp) <= left_of tp (ins_at tp i))%Q;
  rd_rem_done : forall i, 0 <= i < snd (out_range tp) ->
    (right_of tp (rem_at tp i) < snd (interval tp))%Q;
  rd_rem_todo : forall i, snd (out_range tp) <= i < num_edges tp ->
    (snd (interval tp) <= right_of tp (rem_at tp i))%Q
}.

(** What holds of the cursor after a call of [next]: it stands at the tree
    that starts at [fst (interval tp)]. *)
Record at_tree (tp : TreePosition) : Prop := {
  at_j : 0 <= snd (in_range tp) <= num_edges tp;
  at_k : 0 <= snd (out_range tp) <= num_edges tp;
  at_left : (0 <= fst (interval tp) <= sequence_length tp)%Q;
  at_right : snd (interval tp) =
             new_right tp (snd (in_range tp)) (snd (out_range tp));
  at_ins_done : forall i, 0 <= i < snd (in_range tp) ->
    (left_of tp (ins_at tp i) <= fst (interval tp))%Q;
  at_ins_todo : forall i, snd (in_range tp) <= i < num_edges tp ->
    (fst (interval tp) < left_of tp (ins_at tp i))%Q;
  at_rem_done : forall i, 0 <= i < snd (out_range tp) ->
    (right_of tp (rem_at tp i) <= fst (interval tp))%Q;
  at_rem_todo : forall i, snd (out_range tp) <= i < num_edges tp ->
    (fst (interval tp) < right_of tp (rem_at tp i))%Q
}.

Definition initial (tp : TreePosition) : Prop :=
  interval tp = (0%Q, 0%Q) /\ in_range tp = (0, 0) /\ out_range tp = (0, 0).

Record next_post (tp : TreePosition) (b : bool) (tp' : TreePosition) : Prop := {
  np_table : same_table tp tp';
  np_left : fst (interval tp') = snd (interval tp);
  np_right : snd (interval tp') =
             new_right tp (snd (in_range tp')) (snd (out_range tp'));
  np_in_start : fst (in_range tp') = snd (in_range tp);
  np_out_start : fst (out_range tp') = snd (out_range tp);
  np_in_le : fst (in_range tp') <= snd (in_range tp');
  np_out_le : fst (out_range tp') <= snd (out_range tp');
  np_in_eq : forall i, fst (in_range tp') <= i < snd (in_range tp') ->
    (left_of tp (ins_at tp i) == snd (interval tp))%Q;
  np_out_eq : forall i, fst (out_range tp') <= i < snd (out_range tp') ->
    (right_of tp (rem_at tp i) == snd (interval tp))%Q;
  np_answer : b = (snd (in_range tp') <? num_edges tp)
                  || Qlt_bool (snd (interval tp)) (sequence_length tp);
  np_at : at_tree tp';
  np_true : b = true -> (fst (interval tp') < snd (interval tp'))%Q;
  np_false : b = false ->
    snd (in_range tp') = num_edges tp /\ snd (out_range tp') = num_edges tp
    /\ (snd (interval tp) == sequence_length tp)%Q
}.

(** The intervals [ivs] tile [a, b): each is non-empty and starts where the
    one before ends. *)
Fixpoint tiles (a : Q) (ivs : list (Q * Q)) (b : Q) : Prop :=
  match ivs with
  | [] => (a == b)%Q
  | iv :: rest => (fst iv == a)%Q /\ (fst iv < snd iv)%Q /\ tiles (snd iv) rest b
  end.

(** The index ranges [rs] follow one another from [a] to [b]. *)
Fixpoint chained (a : Z) (rs : list (Z * Z)) (b : Z) : Prop :=
  match rs with
  | [] => a = b
  | r :: rest => fst r = a /\ fst r <= snd r /\ chained (snd r) rest b
  end.

Record run_post (tp : TreePosition) (ts : list TreePosition) (tf : TreePosition)
  : Prop := {
  rp_tiles : tiles (snd (interval tp)) (map interval ts) (sequence_length tp);
  rp_in : chained (snd (in_range tp)) (map in_range (ts ++ [tf])) (num_edges tp);
  rp_out : chained (snd (out_range tp)) (map out_range (ts ++ [tf])) (num_edges tp);
  rp_table : Forall (same_table tp) (ts ++ [tf]);
  rp_at : Forall at_tree (ts ++ [tf])
}.

(** Fuel that is enough for any well-formed table: a traversal makes at most
    [2 * num_edges + 2] calls. *)
Definition enough_fuel (tp : TreePosition) : nat :=
  S (S (Z.to_nat (2 * num_edges tp))).

(** The candidates for the right end other than [sequence_length]: the left
    end of the next edge to insert and the right end of the next edge to
    remove, each if there is one. *)
Definition boundary_candidates (tp : TreePosition) : list Q :=
  (if snd (in_range tp) <? num_edges tp
   then [left_of tp (ins_at tp (snd (in_range tp)))] else [])
  ++ (if snd (out_range tp) <? num_edges tp
      then [right_of tp (rem_at tp (snd (out_range tp)))] else []).

Definition least (x : Q) (l : list Q) : Q := fold_right Qmin x l.

(** The edges that a list of cursors reports as inserted, and as removed:
    the entries of the two orders at the positions of the ranges, call after
    call. *)
Definition inserted_edges (tp : TreePosition) (calls : list TreePosition) : list Z :=
  concat (map (fun t => slice (edge_insertion_order tp)
                          (fst (in_range t)) (snd (in_range t))) calls).

Definition removed_edges (tp : TreePosition) (calls : list TreePosition) : list Z :=
  concat (map (fun t => slice (edge_removal_order tp)
                          (fst (out_range t)) (snd (out_range t))) calls).

(** Number of entries of [order] before position [j] whose edge has parent
    [n]. *)
Definition count_parent (edges_parent order : list Z) (j n : Z) : Z :=
  Z.of_nat (length (filter (fun e => parent_of edges_parent e =? n)
                      (firstn (Z.to_nat j) order))).

(** Number of entries of [num_children] equal to [a]. *)
Definition count_arity (nc : list Z) (a : Z) : Z :=
  Z.of_nat (length (filter (fun v => v =? a) nc)).

Definition ind (b : bool) : Z := if b then 1 else 0.

(** The node arrays fit the table. *)
Record nodes_ok (tp : TreePosition) (nodes_time : list float)
    (edges_parent edges_child : list Z) (num_nodes : Z) : Prop := {
  no_nodes : 0 <= num_nodes < 2 ^ 31;
  no_len_parent : Z.of_nat (length edges_parent) = num_edges tp;
  no_len_child : Z.of_nat (length edges_child) = num_edges tp;
  no_len_time : Z.of_nat (length nodes_time) = num_nodes;
  no_parent : forall e, 0 <= e < num_edges tp ->
    0 <= parent_of edges_parent e < num_nodes;
  no_child : forall e, 0 <= e < num_edges tp ->
    0 <= zidx 0 edges_child e < num_nodes
}.

(** What holds of the two node arrays once the entries of the insertion
    order before [j] and the entries of the removal order before [k] have
    been processed. *)
Record mid_inv (tp : TreePosition) (edges_parent : list Z) (num_nodes : Z)
    (j k : Z) (s : stats) : Prop := {
  mi_len_nc : Z.of_nat (length (num_children s)) = num_nodes;
  mi_len_hist : Z.of_nat (length (nodes_with_arity s)) = num_nodes;
  mi_nc : forall n, 0 <= n < num_nodes ->
    zidx 0 (num_children s) n =
    count_parent edges_parent (edge_insertion_order tp) j n
    - count_parent edges_parent (edge_removal_order tp) k n;
  mi_bound : forall n, 0 <= n < num_nodes ->
    0 <= zidx 0 (num_children s) n < num_nodes;
  mi_hist0 : zidx 0 (nodes_with_arity s) 0 = 0;
  mi_hist : forall a, 1 <= a < num_nodes ->
    zidx 0 (nodes_with_arity s) a = count_arity (num_children s) a
}.

(** The fields that the two inner loops leave alone. *)
Definition same_outputs (s s' : stats) : Prop :=
  tbl s' = tbl s /\ num_internal_nodes s' = num_internal_nodes s
  /\ max_arity s' = max_arity s /\ tree_index s' = tree_index s.

(** The arities a table can reach stay below [num_nodes], as they do in any
    tree over [num_nodes] nodes. *)
Definition arity_bounded (tp : TreePosition) (edges_parent : list Z)
    (num_nodes : Z) : Prop :=
  forall (x : Q) (n : Z),
    0 <= n < num_nodes -> out_degree tp edges_parent x n < num_nodes.

(** The stops of the while loop after [c0]: the states right after the stores
    of a round. *)
Inductive emitted (chk : bool) (nodes_time : list float)
    (edges_parent edges_child : list Z) (c0 : TreePosition * stats)
  : TreePosition * stats -> Prop :=
| emitted_first c :
    tree_step chk nodes_time edges_parent edges_child c0 = Ok (true, c) ->
    emitted chk nodes_time edges_parent edges_child c0 c
| emitted_next c c' :
    emitted chk nodes_time edges_parent edges_child c0 c ->
    tree_step chk nodes_time edges_parent edges_child c = Ok (true, c') ->
    emitted chk nodes_time edges_parent edges_child c0 c'.

(** What holds of a state from which a round of the loop starts. *)
Record loop_inv (edges_parent : list Z) (num_nodes : Z) (tp0 : TreePosition)
    (c : TreePosition * stats) : Prop := {
  li_wf : well_formed (fst c);
  li_table : same_table tp0 (fst c);
  li_ready : ready (fst c);
  li_mid : mid_inv (fst c) edges_parent num_nodes
             (snd (in_range (fst c))) (snd (out_range (fst c))) (snd c)
}.

(** What holds of the node arrays at the tree the cursor stands at. *)
Definition tree_inv (edges_parent : list Z) (num_nodes : Z) (tp0 tp : TreePosition)
    (s : stats) : Prop :=
  mid_inv tp edges_parent num_nodes (snd (in_range tp)) (snd (out_range tp)) s
  /\ forall n, 0 <= n < num_nodes ->
       zidx 0 (num_children s) n = out_degree tp0 edges_parent (fst (interval tp)) n.

(** The output arrays have [num_trees] slots. *)
Definition outputs_sized (num_trees : Z) (s : stats) : Prop :=
  Z.of_nat (length (tbl s)) = num_trees
  /\ Z.of_nat (length (num_internal_nodes s)) = num_trees
  /\ Z.of_nat (length (max_arity s)) = num_trees.

(** The state the loop starts from on the three-edge table, and the stops of
    its first two rounds. *)
Definition three_edges_start : stats :=
  Eval vm_compute in
    match stats_init 3 4 with
    | Ok s => s
    | Err _ => Build_stats [] [] [] [] [] 0%float 0 0 0
    end.

Definition three_edges_stop1 : TreePosition * stats :=
  Eval vm_compute in
    match tree_step false three_edges_time three_edges_parent three_edges_child
            (three_edges, three_edges_start) with
    | Ok r => snd r
    | Err _ => (three_edges, three_edges_start)
    end.

(** The cursor of the second round, before the loop over [out_range]. *)
Definition three_edges_cursor2 : TreePosition :=
  Eval vm_compute in
    match next false (fst three_edges_stop1) with
    | Ok r => snd r
    | Err _ => three_edges
    end.

Definition two_pairs_start : stats :=
  Eval vm_compute in
    match stats_init 2 6 with
    | Ok s => s
    | Err _ => Build_stats [] [] [] [] [] 0%float 0 0 0
    end.

Definition two_pairs_stop1 : TreePosition * stats :=
  Eval vm_compute in
    match tree_step false two_pairs_time two_pairs_parent two_pairs_child
            (two_pairs, two_pairs_start) with
    | Ok r => snd r
    | Err _ => (two_pairs, two_pairs_start)
    end.

Definition two_pairs_cursor2 : TreePosition :=
  Eval vm_compute in
    match next false (fst two_pairs_stop1) with
    | Ok r => snd r
    | Err _ => two_pairs
    end.

(** Two edges from node 0 to node 1 over the same interval: the orders are
    sorted permutations and the ids are node ids, but node 0 gets as many
    children as there are nodes. *)
Definition parallel_edges : TreePosition :=
  TreePosition_init 2 1 [0; 0]%Q [1; 1]%Q [0; 1] [0; 1].
Definition parallel_edges_time : list float := [1; 0]%float.
Definition parallel_edges_parent : list Z := [0; 0].
Definition parallel_edges_child : list Z := [1; 1].

Definition empty_table (L : Q) : TreePosition := TreePosition_init 0 L [] [] [] [].

Definition single_edge (L : Q) : TreePosition :=
  TreePosition_init 1 L [0%Q] [L] [0] [0].

(** * Reference definitions for the further properties *)

(** Number of nodes that have a child in the tree at [x]. *)
Definition internal_nodes (tp : TreePosition) (edges_parent : list Z)
    (num_nodes : Z) (x : Q) : Z :=
  Z.of_nat (length (filter (fun n => 0 <? out_degree tp edges_parent x n)
                      (zrange num_nodes))).

(** The running count of internal nodes agrees with [num_children]. *)
Definition internal_counted (num_nodes : Z) (s : stats) : Prop :=
  current_num_internal_nodes s = num_nodes - count_arity (num_children s) 0.

(** * TreeInfo.child_bounds

    Left and right ends are rationals as for the cursor; [child_left] starts
    at [np.inf], so its entries are a rational or infinity. *)

Inductive extended : Type :=
| Finite (q : Q)
| Inf.

(** [x < y] for a coordinate [x] and an entry [y] of [child_left]. *)
Definition Qlt_extended (x : Q) (y : extended) : bool :=
  match y with
  | Finite q => Qlt_bool x q
  | Inf => true
  end.

(** Body of [for e in range(num_edges)]. *)
Definition child_bounds_step (chk : bool) (edges_left edges_right : list Q)
    (edges_child : list Z) (e : Z) (st : list extended * list Q)
  : result (list extended * list Q) :=
  u <- aget chk edges_child e ;;
  l <- aget chk edges_left e ;;
  cl <- aget chk (fst st) u ;;
  child_left <- (if Qlt_extended l cl
                 then l' <- aget chk edges_left e ;; aset chk (fst st) u (Finite l')
                 else Ok (fst st)) ;;
  r <- aget chk edges_right e ;;
  cr <- aget chk (snd st) u ;;
  child_right <- (if Qlt_bool cr r
                  then r' <- aget chk edges_right e ;; aset chk (snd st) u r'
                  else Ok (snd st)) ;;
  Ok (child_left, child_right).

Definition child_bounds (chk : bool) (num_nodes : Z) (edges_left edges_right : list Q)
    (edges_child : list Z) : result (list extended * list Q) :=
  let num_edges := Z.of_nat (length edges_left) in
  child_left <- zeros Inf num_nodes ;;
  child_right <- zeros 0%Q num_nodes ;;
  for_range 0 num_edges (child_bounds_step chk edges_left edges_right edges_child)
    (child_left, child_right).

(** What holds of the two arrays once the edges before [k] are processed. *)
Definition bounds_upto (edges_left edges_right : list Q) (edges_child : list Z)
    (num_nodes k : Z) (st : list extended * list Q) : Prop :=
  Z.of_nat (length (fst st)) = num_nodes
  /\ Z.of_nat (length (snd st)) = num_nodes
  /\ forall u, 0 <= u < num_nodes ->
       match zidx Inf (fst st) u with
       | Inf => forall e, 0 <= e < k -> zidx 0 edges_child e <> u
       | Finite m =>
           (exists e, 0 <= e < k /\ zidx 0 edges_child e = u
                      /\ zidx 0%Q edges_left e = m)
           /\ forall e, 0 <= e < k -> zidx 0 edges_child e = u ->
                (m <= zidx 0%Q edges_left e)%Q
       end
       /\ (forall e, 0 <= e < k -> zidx 0 edges_child e = u ->
             (zidx 0%Q edges_right e <= zidx 0%Q (snd st) u)%Q)
       /\ (zidx 0%Q (snd st) u = 0%Q
           \/ exists e, 0 <= e < k /\ zidx 0 edges_child e = u
                        /\ zidx 0%Q edges_right e = zidx 0%Q (snd st) u).

(** * TreeInfo.make_sliding_windows

    The generator is modelled by the list of the values it yields until it
    returns.  Python integers are unbounded, so [size], [overlap] and the
    two cursors are in [Z]. *)

Inductive generated (A : Type) : Type :=
| Yields (ws : list A)
| AssertionFails
| NoFuel.
Arguments Yields {A} ws.
Arguments AssertionFails {A}.
Arguments NoFuel {A}.

(** A bound of a Python slice, brought into [0, len]. *)
Definition norm_index (len i : Z) : Z :=
  if i <? 0 then Z.max 0 (i + len) else Z.min i len.

(** [l[start:stop]]. *)
Definition pyslice {A : Type} (l : list A) (start stop : Z) : list A :=
  let len := Z.of_nat (length l) in
  let a := norm_index len start in
  let b := norm_index len stop in
  firstn (Z.to_nat (b - a)) (skipn (Z.to_nat a) l).

(** [l[start:]]. *)
Definition pyslice_from {A : Type} (l : list A) (start : Z) : list A :=
  skipn (Z.to_nat (norm_index (Z.of_nat (length l)) start)) l.

(** The [while end < length] loop followed by the final [yield]. *)
Fixpoint windows_loop {A : Type} (fuel : nat) (iterable : list A)
    (step start end_ : Z) : generated (list A) :=
  if end_ <? Z.of_nat (length iterable) then
    match fuel with
    | O => NoFuel
    | S fuel' =>
        match windows_loop fuel' iterable step (start + step) (end_ + step) with
        | Yields ws => Yields (pyslice iterable start end_ :: ws)
        | other => other
        end
    end
  else Yields [pyslice_from iterable start].

Definition make_sliding_windows {A : Type} (fuel : nat) (iterable : list A)
    (size overlap : Z) : generated (list A) :=
  if overlap <? size
  then windows_loop fuel iterable (size - overlap) 0 size
  else AssertionFails.

(** * TreeInfo.map_stats_to_genome

    The trees of [self.ts.trees()] enter through their intervals, in the order
    they are iterated.  [to_map] and the result hold floats; indexing [to_map]
    with the tree number raises when it is too short. *)

(** [int(x)]: truncation toward zero. *)
Definition pyint (q : Q) : Z := Z.quot (Qnum q) (Z.pos (Qden q)).

(** [a[start:stop] = v] for a scalar [v]. *)
Definition slice_assign {A : Type} (a : list A) (start stop : Z) (v : A) : list A :=
  let len := Z.of_nat (length a) in
  let lo := norm_index len start in
  let hi := norm_index len stop in
  if lo <? hi
  then firstn (Z.to_nat lo) a ++ repeat v (Z.to_nat (hi - lo)) ++ skipn (Z.to_nat hi) a
  else a.

(** [for i, tree in enumerate(self.ts.trees())], from index [i] on. *)
Fixpoint map_stats_loop (i : Z) (intervals : list (Q * Q)) (to_map mapped : list float)
  : result (list float) :=
  match intervals with
  | [] => Ok mapped
  | interval :: rest =>
      let left := pyint (fst interval) in
      let right := pyint (snd interval) in
      v <- aget true to_map i ;;
      map_stats_loop (i + 1) rest to_map (slice_assign mapped left right v)
  end.

Definition map_stats_to_genome (sequence_length : Q) (intervals : list (Q * Q))
    (to_map : list float) : result (list float) :=
  mapped <- zeros 0%float (pyint sequence_length) ;;
  map_stats_loop 0 intervals to_map mapped.

(** The running maximum is the largest entry of [num_children]. *)
Definition max_counted (s : stats) : Prop :=
  current_max_arity s = fold_right Z.max 0 (num_children s).

(** * The loop over the mutations in TreeInfo.mutations_data

    [ts.mutations_parent] and the three arrays the loop fills are numpy int
    arrays indexed from Python: a negative index counts from the end, any
    other index outside the array raises, which is [aget false] and
    [aset false].  The count that [tree.num_samples(mutation_node)] answers
    for mutation [mut_id] enters as [num_samples mut_id], and [N] is the
    length of [ts.mutations_parent].  The subtraction on an array entry wraps
    at 64 bits; [descendants] and [num_parents] are Python integers and are
    stored as they are. *)

Record mutation_counts : Type := {
  mutations_num_descendants : list Z;
  mutations_num_inheritors : list Z;
  mutations_num_parents : list Z
}.

(** [while parent != -1: num_parents += 1; parent = ts.mutations_parent[parent]] *)
Fixpoint count_parents (fuel : nat) (mutations_parent : list Z)
    (parent num_parents : Z) : result Z :=
  if parent =? -1 then Ok num_parents
  else match fuel with
       | O => Err OutOfFuel
       | S fuel' =>
           parent' <- aget false mutations_parent parent ;;
           count_parents fuel' mutations_parent parent' (num_parents + 1)
       end.

(** Body of [for mut_id in np.arange(N)]. *)
Definition mutation_step (fuel : nat) (mutations_parent : list Z)
    (num_samples : Z -> Z) (mut_id : Z) (s : mutation_counts)
  : result mutation_counts :=
  let descendants := num_samples mut_id in
  nd <- aset false (mutations_num_descendants s) mut_id descendants ;;
  ni <- aset false (mutations_num_inheritors s) mut_id descendants ;;
  parent <- aget false mutations_parent mut_id ;;
  ni' <- (if parent =? -1 then Ok ni
          else h <- aget false ni parent ;;
               aset false ni parent (int64 (h - descendants))) ;;
  num_parents <- count_parents fuel mutations_parent parent 0 ;;
  np <- aset false (mutations_num_parents s) mut_id num_parents ;;
  Ok {| mutations_num_descendants := nd;
        mutations_num_inheritors := ni';
        mutations_num_parents := np |}.

Definition mutations_loop (fuel : nat) (mutations_parent : list Z)
    (num_samples : Z -> Z) : result mutation_counts :=
  let N := Z.of_nat (length mutations_parent) in
  nd <- zeros 0 N ;;
  ni <- zeros 0 N ;;
  np <- zeros 0 N ;;
  for_range 0 N (mutation_step fuel mutations_parent num_samples)
    {| mutations_num_descendants := nd;
       mutations_num_inheritors := ni;
       mutations_num_parents := np |}.

(** Parent mutations are listed before their children. *)
Definition parents_first (mutations_parent : list Z) : Prop :=
  forall m, 0 <= m < Z.of_nat (length mutations_parent) ->
    zidx 0 mutations_parent m = -1 \/ 0 <= zidx 0 mutations_parent m < m.

(** Sum of the counts of the mutations before [k] whose parent is [m]. *)
Definition inherited_from (mutations_parent : list Z) (num_samples : Z -> Z)
    (k m : Z) : Z :=
  fold_right Z.add 0
    (map num_samples
       (filter (fun c => zidx 0 mutations_parent c =? m) (zrange k))).

(** What holds of the three arrays once the mutations before [k] are
    processed. *)
Definition mutations_upto (mutations_parent : list Z) (num_samples : Z -> Z)
    (k : Z) (s : mutation_counts) : Prop :=
  Z.of_nat (length (mutations_num_descendants s))
  = Z.of_nat (length mutations_parent)
  /\ Z.of_nat (length (mutations_num_inheritors s))
     = Z.of_nat (length mutations_parent)
  /\ Z.of_nat (length (mutations_num_parents s))
     = Z.of_nat (length mutations_parent)
  /\ forall m, 0 <= m < k ->
       zidx 0 (mutations_num_descendants s) m = num_samples m
       /\ zidx 0 (mutations_num_inheritors s) m
          = num_samples m - inherited_from mutations_parent num_samples k m
       /\ zidx 0 (mutations_num_parents s) m
          = (if zidx 0 mutations_parent m =? -1 then 0
             else 1 + zidx 0 (mutations_num_parents s) (zidx 0 mutations_parent m)).

(** * TreeInfo.calc_site_tree_index, calc_sites_per_tree and
      calc_mutations_per_tree

    These are compositions of numpy calls, modelled by what numpy documents
    for them.  Positions and breakpoints are rationals, indices are in [Z]. *)

(** [np.searchsorted(a, v, side="right")] for a sorted [a]: the number of
    entries of [a] that are at most [v]. *)
Definition searchsorted_right (a : list Q) (v : Q) : Z :=
  Z.of_nat (length (filter (fun b => Qle_bool b v) a)).

Definition calc_site_tree_index (breakpoints sites_position : list Q) : list Z :=
  map (fun x => searchsorted_right breakpoints x - 1) sites_position.

(** One more occurrence of [v] in the sorted list of values and counts. *)
Fixpoint count_value (v : Z) (uc : list (Z * Z)) : list (Z * Z) :=
  match uc with
  | [] => [(v, 1)]
  | (u, c) :: rest =>
      if v <? u then (v, 1) :: (u, c) :: rest
      else if v =? u then (u, c + 1) :: rest
      else (u, c) :: count_value v rest
  end.

(** [np.unique(x, return_counts=True)]: the distinct values of [x] in
    increasing order, each with the number of its occurrences. *)
Definition unique_counts (x : list Z) : list (Z * Z) :=
  fold_right count_value [] x.

(** [a[unique_values] = counts] *)
Fixpoint assign_at (a : list Z) (uc : list (Z * Z)) : result (list Z) :=
  match uc with
  | [] => Ok a
  | (u, c) :: rest => a' <- aset false a u c ;; assign_at a' rest
  end.

(** [a[idx]] for an index array [idx]. *)
Fixpoint take (a : list Z) (idx : list Z) : result (list Z) :=
  match idx with
  | [] => Ok []
  | i :: rest => v <- aget false a i ;; vs <- take a rest ;; Ok (v :: vs)
  end.

(** The three lines that end both functions. *)
Definition per_tree_counts (num_trees : Z) (tree_index : list Z) : result (list Z) :=
  let uc := unique_counts tree_index in
  per_tree <- zeros 0 num_trees ;;
  assign_at per_tree uc.

Definition calc_sites_per_tree (num_trees : Z) (breakpoints sites_position : list Q)
  : result (list Z) :=
  let site_tree_index := calc_site_tree_index breakpoints sites_position in
  per_tree_counts num_trees site_tree_index.

Definition calc_mutations_per_tree (num_trees : Z)
    (breakpoints sites_position : list Q) (mutations_site : list Z)
  : result (list Z) :=
  let site_tree_index := calc_site_tree_index breakpoints sites_position in
  mutation_tree_index <- take site_tree_index mutations_site ;;
  per_tree_counts num_trees mutation_tree_index.

(** The entries of a list of coordinates increase strictly. *)
Fixpoint increasing (l : list Q) : Prop :=
  match l with
  | [] => True
  | x :: rest => (forall y, In y rest -> (x < y)%Q) /\ increasing rest
  end.

(** Number of occurrences of [k] in [l]. *)
Definition occurrences (l : list Z) (k : Z) : Z :=
  Z.of_nat (length (filter (fun v => v =? k) l)).

(** The count listed for [k], 0 if [k] is not listed. *)
Definition listed_count (k : Z) (uc : list (Z * Z)) : Z :=
  match find (fun p => fst p =? k) uc with
  | Some p => snd p
  | None => 0
  end.

(** The values listed are at least [lo] and increase strictly. *)
Fixpoint sorted_from (lo : Z) (uc : list (Z * Z)) : Prop :=
  match uc with
  | [] => True
  | p :: rest => lo <= fst p /\ sorted_from (fst p + 1) rest
  end.

(** Number of the positions [xs] that lie in tree interval [k]. *)
Definition positions_in (breakpoints xs : list Q) (k : Z) : Z :=
  Z.of_nat (length (filter (fun x => Qle_bool (zidx 0%Q breakpoints k) x
                                     && Qlt_bool x (zidx 0%Q breakpoints (k + 1)))
                      xs)).

(** * Basic facts *)

Lemma bind_ok {A B : Type} (m : result A) (f : A -> result B) (b : B) :
  bind m f = Ok b -> exists a, m = Ok a /\ f a = Ok b.
Proof. destruct m as [a|e]; simpl; intros H; [eauto | discriminate]. Qed.

Lemma wrap_small (w z : Z) :
  0 < w -> - 2 ^ (w - 1) <= z < 2 ^ (w - 1) -> wrap w z = z.
Proof.
  intros Hw Hz. unfold wrap.
  assert (E : 2 ^ w = 2 * 2 ^ (w - 1)).
  { replace w with (Z.succ (w - 1)) at 1 by lia. apply Z.pow_succ_r. lia. }
  rewrite Z.mod_small; lia.
Qed.

Lemma int32_small (z : Z) : - 2 ^ 31 <= z < 2 ^ 31 -> int32 z = z.
Proof. intros H. apply wrap_small; simpl; lia. Qed.

Lemma int64_small (z : Z) : - 2 ^ 63 <= z < 2 ^ 63 -> int64 z = z.
Proof. intros H. apply wrap_small; simpl; lia. Qed.

Lemma index_in (chk : bool) (len i : Z) :
  0 <= i < len -> index chk len i = Ok (Z.to_nat i).
Proof.
  intros H. unfold index.
  destruct (Z.leb_spec 0 i); [|lia]. destruct (Z.ltb_spec i len); [|lia]. reflexivity.
Qed.

Lemma index_checked (len i : Z) (n : nat) :
  index true len i = Ok n -> 0 <= i < len.
Proof.
  unfold index. destruct (Z.leb_spec 0 i); destruct (Z.ltb_spec i len);
    simpl; intros E; try discriminate; lia.
Qed.

Lemma aget_in {A : Type} (d : A) (chk : bool) (a : list A) (i : Z) :
  0 <= i < Z.of_nat (length a) -> aget chk a i = Ok (zidx d a i).
Proof.
  intros H. unfold aget, zidx. rewrite index_in by exact H. simpl.
  rewrite (nth_error_nth' a d) by lia. reflexivity.
Qed.

Lemma aset_in {A : Type} (chk : bool) (a : list A) (i : Z) (v : A) :
  0 <= i < Z.of_nat (length a) -> aset chk a i v = Ok (upd a (Z.to_nat i) v).
Proof. intros H. unfold aset. rewrite index_in by exact H. reflexivity. Qed.

Lemma upd_length {A : Type} (a : list A) (n : nat) (v : A) :
  length (upd a n v) = length a.
Proof.
  revert n; induction a as [|x a IH]; intros [|n]; simpl; auto.
Qed.

Lemma upd_nth_same {A : Type} (d : A) (a : list A) (n : nat) (v : A) :
  (n < length a)%nat -> nth n (upd a n v) d = v.
Proof.
  revert n; induction a as [|x a IH]; intros [|n] H; simpl in *; try lia; auto.
  apply IH. lia.
Qed.

Lemma upd_nth_other {A : Type} (d : A) (a : list A) (n m : nat) (v : A) :
  n <> m -> nth m (upd a n v) d = nth m a d.
Proof.
  revert n m; induction a as [|x a IH]; intros [|n] [|m] H; simpl; auto; try lia.
Qed.

Lemma zidx_upd_same {A : Type} (d : A) (a : list A) (i : Z) (v : A) :
  0 <= i < Z.of_nat (length a) -> zidx d (upd a (Z.to_nat i) v) i = v.
Proof. intros H. unfold zidx. apply upd_nth_same. lia. Qed.

Lemma zidx_upd_other {A : Type} (d : A) (a : list A) (i i' : Z) (v : A) :
  0 <= i -> 0 <= i' -> i <> i' -> zidx d (upd a (Z.to_nat i) v) i' = zidx d a i'.
Proof. intros H H' N. unfold zidx. apply upd_nth_other. lia. Qed.

Lemma Qlt_bool_iff (x y : Q) : Qlt_bool x y = true <-> (x < y)%Q.
Proof.
  unfold Qlt_bool. rewrite negb_true_iff, <- not_true_iff_false, Qle_bool_iff.
  split; intros H; lra.
Qed.

Lemma Qlt_bool_false (x y : Q) : Qlt_bool x y = false <-> (y <= x)%Q.
Proof.
  unfold Qlt_bool. rewrite negb_false_iff, Qle_bool_iff. reflexivity.
Qed.

Lemma pymin_min (a b : Q) : (pymin a b == Qmin a b)%Q.
Proof.
  unfold pymin. destruct (Qlt_bool b a) eqn:E.
  - apply Qlt_bool_iff in E. rewrite Q.min_r; lra.
  - apply Qlt_bool_false in E. rewrite Q.min_l; lra.
Qed.

Lemma pymin_le_l (a b : Q) : (pymin a b <= a)%Q.
Proof.
  unfold pymin. destruct (Qlt_bool b a) eqn:E; [apply Qlt_bool_iff in E|]; lra.
Qed.

Lemma pymin_le_r (a b : Q) : (pymin a b <= b)%Q.
Proof.
  unfold pymin. destruct (Qlt_bool b a) eqn:E;
    [apply Qlt_bool_iff in E | apply Qlt_bool_false in E]; lra.
Qed.

Lemma pymin_cases (a b : Q) : pymin a b = a \/ pymin a b = b.
Proof. unfold pymin. destruct (Qlt_bool b a); auto. Qed.

(** ** Ranges and permutations of edge ids *)

Lemma zrange_length (n : Z) : 0 <= n -> Z.of_nat (length (zrange n)) = n.
Proof. intros H. unfold zrange. rewrite length_map, length_seq. lia. Qed.

Lemma in_zrange (n e : Z) : In e (zrange n) <-> 0 <= e < n.
Proof.
  unfold zrange. rewrite in_map_iff. split.
  - intros (k & <- & Hk). apply in_seq in Hk. lia.
  - intros H. exists (Z.to_nat e). split; [lia|]. apply in_seq. lia.
Qed.

Lemma NoDup_zrange (n : Z) : NoDup (zrange n).
Proof.
  unfold zrange. apply Finite.Injective_map_NoDup.
  - intros a b H. lia.
  - apply seq_NoDup.
Qed.

(** ** A checked run is a run

    Whatever the code computes with every index required to lie inside its
    array, it computes with Python's indexing as well. *)

Lemma refines_refl {A : Type} (r : result A) : refines r r.
Proof. intros a H. exact H. Qed.

Lemma refines_bind {A B : Type} (m m' : result A) (f f' : A -> result B) :
  refines m m' -> (forall a, refines (f a) (f' a)) ->
  refines (bind m f) (bind m' f').
Proof.
  intros Hm Hf b H. apply bind_ok in H. destruct H as (a & Ea & Eb).
  rewrite (Hm a Ea). simpl. apply Hf. exact Eb.
Qed.

Lemma index_checked_any (chk : bool) (len i : Z) :
  refines (index true len i) (index chk len i).
Proof.
  intros n H. pose proof (index_checked len i n H) as Hi.
  rewrite index_in in H by exact Hi. rewrite index_in by exact Hi. exact H.
Qed.

Lemma aget_checked_any {A : Type} (chk : bool) (a : list A) (i : Z) :
  refines (aget true a i) (aget chk a i).
Proof.
  unfold aget. apply refines_bind; [apply index_checked_any|].
  intros n. apply refines_refl.
Qed.

Lemma aset_checked_any {A : Type} (chk : bool) (a : list A) (i : Z) (v : A) :
  refines (aset true a i v) (aset chk a i v).
Proof.
  unfold aset. apply refines_bind; [apply index_checked_any|].
  intros n. apply refines_refl.
Qed.

Lemma aget_checked {A : Type} (a : list A) (i : Z) (v : A) :
  aget true a i = Ok v -> 0 <= i < Z.of_nat (length a).
Proof.
  unfold aget. intros H. apply bind_ok in H. destruct H as (n & Hn & _).
  apply (index_checked _ _ _ Hn).
Qed.

Lemma aset_checked {A : Type} (a a' : list A) (i : Z) (v : A) :
  aset true a i v = Ok a' -> 0 <= i < Z.of_nat (length a).
Proof.
  unfold aset. intros H. apply bind_ok in H. destruct H as (n & Hn & _).
  apply (index_checked _ _ _ Hn).
Qed.

Ltac refines_step :=
  first [ apply refines_refl
        | apply aget_checked_any
        | apply aset_checked_any
        | apply refines_bind; [|intros ?]
        | match goal with
          | |- refines (if ?b then _ else _) (if ?b then _ else _) => destruct b
          end ].

Lemma scan_loop_checked_any (chk : bool) (fuel : nat) (M : Z) (coord : list Q)
    (order : list Z) (left : Q) :
  forall k, refines (scan_loop true fuel M coord order left k)
                    (scan_loop chk fuel M coord order left k).
Proof.
  induction fuel as [|fuel IH]; intros k; simpl.
  - apply refines_refl.
  - destruct (k <? M); [|apply refines_refl].
    apply refines_bind; [apply aget_checked_any|]. intros e.
    apply refines_bind; [apply aget_checked_any|]. intros x.
    destruct (Qeq_bool x left); [apply IH | apply refines_refl].
Qed.

Lemma next_checked_any (chk : bool) (tp : TreePosition) :
  refines (next true tp) (next chk tp).
Proof.
  unfold next, scan.
  apply refines_bind; [apply scan_loop_checked_any|]. intros k'.
  apply refines_bind; [apply scan_loop_checked_any|]. intros j'.
  repeat refines_step.
Qed.

Lemma remove_edge_checked_any (chk : bool) (nodes_time : list float)
    (edges_parent edges_child : list Z) (tp : TreePosition) (j : Z) (s : stats) :
  refines (remove_edge true nodes_time edges_parent edges_child tp j s)
          (remove_edge chk nodes_time edges_parent edges_child tp j s).
Proof. unfold remove_edge. repeat refines_step. Qed.

Lemma insert_edge_checked_any (chk : bool) (nodes_time : list float)
    (edges_parent edges_child : list Z) (tp : TreePosition) (j : Z) (s : stats) :
  refines (insert_edge true nodes_time edges_parent edges_child tp j s)
          (insert_edge chk nodes_time edges_parent edges_child tp j s).
Proof. unfold insert_edge. repeat refines_step. Qed.

Lemma for_count_refines {St : Type} (body body' : Z -> St -> result St) :
  (forall j s, refines (body j s) (body' j s)) ->
  forall (n : nat) (j : Z) (s : St),
    refines (for_count n j body s) (for_count n j body' s).
Proof.
  intros Hb n. induction n as [|n IH]; intros j s; simpl.
  - apply refines_refl.
  - apply refines_bind; [apply Hb|]. intros s'. apply IH.
Qed.

Lemma emit_checked_any (chk : bool) (s : stats) :
  refines (emit true s) (emit chk s).
Proof. unfold emit. repeat refines_step. Qed.

Lemma tree_step_checked_any (chk : bool) (nodes_time : list float)
    (edges_parent edges_child : list Z) (c : TreePosition * stats) :
  refines (tree_step true nodes_time edges_parent edges_child c)
          (tree_step chk nodes_time edges_parent edges_child c).
Proof.
  unfold tree_step.
  apply refines_bind; [apply next_checked_any|]. intros r.
  destruct (fst r); [|apply refines_refl].
  apply refines_bind.
  { apply for_count_refines. intros j s. apply remove_edge_checked_any. }
  intros s1. apply refines_bind.
  { apply for_count_refines. intros j s. apply insert_edge_checked_any. }
  intros s2. apply refines_bind; [apply emit_checked_any|]. intros s3.
  apply refines_refl.
Qed.

Lemma tree_loop_checked_any (chk : bool) (nodes_time : list float)
    (edges_parent edges_child : list Z) (fuel : nat) :
  forall c, refines (tree_loop true nodes_time edges_parent edges_child fuel c)
                    (tree_loop chk nodes_time edges_parent edges_child fuel c).
Proof.
  induction fuel as [|fuel IH]; intros c; simpl.
  - apply refines_refl.
  - apply refines_bind; [apply tree_step_checked_any|]. intros r.
    destruct (fst r); [apply IH | apply refines_refl].
Qed.

Lemma checked_run_is_run (chk : bool) (nodes_time : list float)
    (edges_parent edges_child : list Z) (fuel : nat) (tp : TreePosition)
    (num_trees num_nodes : Z) :
  refines (_compute_per_tree_stats true nodes_time edges_parent edges_child
             fuel tp num_trees num_nodes)
          (_compute_per_tree_stats chk nodes_time edges_parent edges_child
             fuel tp num_trees num_nodes).
Proof.
  unfold _compute_per_tree_stats.
  apply refines_bind; [apply refines_refl|]. intros s0.
  apply refines_bind; [apply tree_loop_checked_any|]. intros c.
  apply refines_refl.
Qed.

(** * The cursor *)

(** ** The two scanning loops *)

Lemma scan_loop_spec (chk : bool) (M : Z) (coord : list Q) (order : list Z) (left : Q) :
  M < 2 ^ 63 ->
  Z.of_nat (length order) = M ->
  (forall i, 0 <= i < M -> 0 <= zidx 0 order i < Z.of_nat (length coord)) ->
  forall (fuel : nat) (k : Z),
    0 <= k <= M -> (Z.to_nat (M - k) <= fuel)%nat ->
    exists k', scan_loop chk fuel M coord order left k = Ok k'
      /\ k <= k' <= M
      /\ (forall i, k <= i < k' -> (zidx 0%Q coord (zidx 0%Z order i) == left)%Q)
      /\ (k' < M -> ~ (zidx 0%Q coord (zidx 0%Z order k') == left)%Q).
Proof.
  intros HM Hlen Hrange fuel.
  induction fuel as [|fuel IH]; intros k Hk Hfuel.
  - assert (k = M) by lia. subst k. exists M. simpl.
    rewrite Z.ltb_irrefl. repeat split; try lia.
  - simpl. destruct (Z.ltb_spec k M) as [Hlt|Hge].
    + rewrite (aget_in 0) by lia. simpl.
      rewrite (aget_in 0%Q) by (apply Hrange; lia). simpl.
      destruct (Qeq_bool (zidx 0%Q coord (zidx 0%Z order k)) left) eqn:E.
      * rewrite int64_small by lia.
        destruct (IH (k + 1)) as (k' & Hrun & Hb & Heq & Hstop); try lia.
        exists k'. split; [exact Hrun|]. split; [lia|]. split; [|exact Hstop].
        intros i Hi. destruct (Z.eq_dec i k) as [->|Hne].
        -- apply Qeq_bool_iff. exact E.
        -- apply Heq. lia.
      * exists k. split; [reflexivity|]. split; [lia|]. split; [intros i Hi; lia|].
        intros _ H. apply Qeq_bool_iff in H. congruence.
    + exists k. repeat split; try lia.
Qed.

Lemma scan_spec (chk : bool) (M : Z) (coord : list Q) (order : list Z) (left : Q) (k : Z) :
  M < 2 ^ 63 ->
  Z.of_nat (length order) = M ->
  (forall i, 0 <= i < M -> 0 <= zidx 0 order i < Z.of_nat (length coord)) ->
  0 <= k <= M ->
  exists k', scan chk M coord order left k = Ok k'
    /\ k <= k' <= M
    /\ (forall i, k <= i < k' -> (zidx 0%Q coord (zidx 0%Z order i) == left)%Q)
    /\ (k' < M -> ~ (zidx 0%Q coord (zidx 0%Z order k') == left)%Q).
Proof.
  intros HM Hlen Hrange Hk. unfold scan.
  apply scan_loop_spec; auto.
Qed.

(** ** Consequences of well-formedness *)

Lemma perm_zrange_length (l : list Z) (n : Z) :
  0 <= n -> Permutation l (zrange n) -> Z.of_nat (length l) = n.
Proof.
  intros Hn HP. rewrite (Permutation_length HP). apply zrange_length. exact Hn.
Qed.

Lemma perm_zrange_entry (l : list Z) (n i : Z) :
  Permutation l (zrange n) -> 0 <= n -> 0 <= i < n -> 0 <= zidx 0 l i < n.
Proof.
  intros HP Hn Hi. apply in_zrange. apply (Permutation_in _ HP).
  unfold zidx. apply nth_In. pose proof (perm_zrange_length l n Hn HP). lia.
Qed.

Section WellFormed.

Variable tp : TreePosition.
Hypothesis WF : well_formed tp.

Lemma wf_ins_length : Z.of_nat (length (edge_insertion_order tp)) = num_edges tp.
Proof. apply perm_zrange_length; [apply WF | apply WF]. Qed.

Lemma wf_rem_length : Z.of_nat (length (edge_removal_order tp)) = num_edges tp.
Proof. apply perm_zrange_length; [apply WF | apply WF]. Qed.

Lemma wf_ins_entry (i : Z) :
  0 <= i < num_edges tp -> 0 <= ins_at tp i < num_edges tp.
Proof. intros H. apply perm_zrange_entry; [apply WF | apply WF | exact H]. Qed.

Lemma wf_rem_entry (i : Z) :
  0 <= i < num_edges tp -> 0 <= rem_at tp i < num_edges tp.
Proof. intros H. apply perm_zrange_entry; [apply WF | apply WF | exact H]. Qed.

End WellFormed.

Lemma well_formed_shaped (tp : TreePosition) : well_formed tp -> shaped tp.
Proof.
  intros WF. pose proof (wf_edges tp WF) as HM.
  constructor.
  - simpl in *. lia.
  - apply WF.
  - apply WF.
  - apply wf_ins_length; exact WF.
  - apply wf_rem_length; exact WF.
  - apply wf_ins_entry; exact WF.
  - apply wf_rem_entry; exact WF.
Qed.

Lemma same_table_refl (tp : TreePosition) : same_table tp tp.
Proof. repeat split. Qed.

Lemma same_table_trans (a b c : TreePosition) :
  same_table a b -> same_table b c -> same_table a c.
Proof.
  unfold same_table. intros (A1 & A2 & A3 & A4 & A5 & A6) (B1 & B2 & B3 & B4 & B5 & B6).
  repeat split; congruence.
Qed.

Lemma same_table_wf (tp tp' : TreePosition) :
  same_table tp tp' -> well_formed tp -> well_formed tp'.
Proof.
  intros (E1 & E2 & E3 & E4 & E5 & E6) WF.
  destruct WF as [W1 W2 W3 W4 W5 W6 W7 W8 W9].
  unfold left_of, right_of, ins_at, rem_at in *.
  constructor; unfold left_of, right_of, ins_at, rem_at;
    rewrite ?E1, ?E2, ?E3, ?E4, ?E5, ?E6; assumption.
Qed.

(** What one call of [next] does on a table of the right shape, whatever the
    coordinate it is called at. *)
Lemma next_run (chk : bool) (tp : TreePosition) :
  shaped tp ->
  0 <= snd (in_range tp) <= num_edges tp ->
  0 <= snd (out_range tp) <= num_edges tp ->
  exists j' k',
    next chk tp =
      Ok ((j' <? num_edges tp) || Qlt_bool (snd (interval tp)) (sequence_length tp),
          set_ranges tp (snd (interval tp), new_right tp j' k')
            (snd (in_range tp), j') (snd (out_range tp), k'))
    /\ snd (in_range tp) <= j' <= num_edges tp
    /\ snd (out_range tp) <= k' <= num_edges tp
    /\ (forall i, snd (in_range tp) <= i < j' ->
          (left_of tp (ins_at tp i) == snd (interval tp))%Q)
    /\ (j' < num_edges tp -> ~ (left_of tp (ins_at tp j') == snd (interval tp))%Q)
    /\ (forall i, snd (out_range tp) <= i < k' ->
          (right_of tp (rem_at tp i) == snd (interval tp))%Q)
    /\ (k' < num_edges tp -> ~ (right_of tp (rem_at tp k') == snd (interval tp))%Q).
Proof.
  intros SH Hj Hk.
  destruct SH as [HM Hll Hlr Hli Hlo Hie Hoe].
  destruct (scan_spec chk (num_edges tp) (edges_right tp) (edge_removal_order tp)
              (snd (interval tp)) (snd (out_range tp)))
    as (k' & Ek & Hk' & Hkeq & Hkstop); auto; try lia.
  { intros i Hi. rewrite Hlr. apply Hoe. exact Hi. }
  destruct (scan_spec chk (num_edges tp) (edges_left tp) (edge_insertion_order tp)
              (snd (interval tp)) (snd (in_range tp)))
    as (j' & Ej & Hj' & Hjeq & Hjstop); auto; try lia.
  { intros i Hi. rewrite Hll. apply Hie. exact Hi. }
  exists j', k'. split; [|repeat split; auto; lia].
  unfold next. rewrite Ek. simpl. rewrite Ej. simpl.
  unfold new_right.
  destruct (Z.ltb_spec j' (num_edges tp)) as [Hjl|Hjl];
    destruct (Z.ltb_spec k' (num_edges tp)) as [Hkl|Hkl];
    repeat (first [ rewrite (aget_in 0) by lia
                  | rewrite (aget_in 0%Q) by (first [ rewrite Hll; apply Hie; lia
                                                    | rewrite Hlr; apply Hoe; lia ]) ];
            simpl);
    reflexivity.
Qed.

(** ** The invariant of the cursor *)

Lemma initial_init (M : Z) (L : Q) (el er : list Q) (oi oo : list Z) :
  initial (TreePosition_init M L el er oi oo).
Proof. repeat split. Qed.

Lemma initial_ready (tp : TreePosition) :
  well_formed tp -> initial tp -> ready tp.
Proof.
  intros WF (Ei & Ej & Ek).
  pose proof (wf_edges tp WF) as HM. pose proof (wf_length tp WF) as HL.
  constructor; rewrite ?Ei, ?Ej, ?Ek; simpl; try lia.
  - lra.
  - intros i Hi.
    destruct (wf_span tp WF (ins_at tp i)) as (H0 & _);
      [apply wf_ins_entry; auto; lia | exact H0].
  - intros i Hi.
    destruct (wf_span tp WF (rem_at tp i)) as (H0 & H1 & _);
      [apply wf_rem_entry; auto; lia | lra].
Qed.

Lemma new_right_le_length (tp : TreePosition) (j k : Z) :
  (new_right tp j k <= sequence_length tp)%Q.
Proof.
  unfold new_right.
  pose proof (pymin_le_l (sequence_length tp) (left_of tp (ins_at tp j))) as H1.
  pose proof (pymin_le_l (pymin (sequence_length tp) (left_of tp (ins_at tp j)))
                (right_of tp (rem_at tp k))) as H2.
  pose proof (pymin_le_l (sequence_length tp) (right_of tp (rem_at tp k))) as H3.
  destruct (j <? num_edges tp); destruct (k <? num_edges tp); lra.
Qed.

Lemma new_right_le_ins (tp : TreePosition) (j k : Z) :
  j < num_edges tp -> (new_right tp j k <= left_of tp (ins_at tp j))%Q.
Proof.
  intros Hj. unfold new_right. destruct (Z.ltb_spec j (num_edges tp)); [|lia].
  pose proof (pymin_le_r (sequence_length tp) (left_of tp (ins_at tp j))).
  destruct (k <? num_edges tp); [|assumption].
  pose proof (pymin_le_l (pymin (sequence_length tp) (left_of tp (ins_at tp j)))
                (right_of tp (rem_at tp k))).
  lra.
Qed.

Lemma new_right_le_rem (tp : TreePosition) (j k : Z) :
  k < num_edges tp -> (new_right tp j k <= right_of tp (rem_at tp k))%Q.
Proof.
  intros Hk. unfold new_right. destruct (Z.ltb_spec k (num_edges tp)); [|lia].
  apply pymin_le_r.
Qed.

(** [new_right] is one of its candidates. *)
Lemma new_right_cases (tp : TreePosition) (j k : Z) :
  new_right tp j k = sequence_length tp
  \/ (j < num_edges tp /\ new_right tp j k = left_of tp (ins_at tp j))
  \/ (k < num_edges tp /\ new_right tp j k = right_of tp (rem_at tp k)).
Proof.
  unfold new_right.
  destruct (Z.ltb_spec j (num_edges tp)); destruct (Z.ltb_spec k (num_edges tp)); auto.
  - destruct (pymin_cases (pymin (sequence_length tp) (left_of tp (ins_at tp j)))
                (right_of tp (rem_at tp k))) as [->| ->]; auto.
    destruct (pymin_cases (sequence_length tp) (left_of tp (ins_at tp j)))
      as [->| ->]; auto.
  - destruct (pymin_cases (sequence_length tp) (left_of tp (ins_at tp j)))
      as [->| ->]; auto.
  - destruct (pymin_cases (sequence_length tp) (right_of tp (rem_at tp k)))
      as [->| ->]; auto.
Qed.

(** A lower bound of all candidates is a lower bound of [new_right]. *)
Lemma new_right_gt (tp : TreePosition) (j k : Z) (x : Q) :
  (x < sequence_length tp)%Q ->
  (j < num_edges tp -> (x < left_of tp (ins_at tp j))%Q) ->
  (k < num_edges tp -> (x < right_of tp (rem_at tp k))%Q) ->
  (x < new_right tp j k)%Q.
Proof.
  intros HL Hj Hk.
  destruct (new_right_cases tp j k) as [-> | [(H & ->) | (H & ->)]]; auto.
Qed.

Lemma at_tree_ready (tp : TreePosition) :
  well_formed tp ->
  at_tree tp -> (fst (interval tp) < snd (interval tp))%Q -> ready tp.
Proof.
  intros WF AT Hlt. destruct AT as [Aj Ak Al Ar Aid Ait Ard Art].
  constructor; auto.
  - rewrite Ar at 2. pose proof (new_right_le_length tp (snd (in_range tp))
                                   (snd (out_range tp))). lra.
  - intros i Hi. specialize (Aid i Hi). lra.
  - intros i Hi. rewrite Ar.
    pose proof (new_right_le_ins tp (snd (in_range tp)) (snd (out_range tp))
                  ltac:(lia)).
    pose proof (wf_ins_sorted tp WF (snd (in_range tp)) i
                  ltac:(lia) ltac:(lia) ltac:(lia)). lra.
  - intros i Hi. specialize (Ard i Hi). lra.
  - intros i Hi. rewrite Ar.
    pose proof (new_right_le_rem tp (snd (in_range tp)) (snd (out_range tp))
                  ltac:(lia)).
    pose proof (wf_rem_sorted tp WF (snd (out_range tp)) i
                  ltac:(lia) ltac:(lia) ltac:(lia)). lra.
Qed.

(** ** One call of [next] *)

Lemma left_of_set (tp : TreePosition) iv a b e :
  left_of (set_ranges tp iv a b) e = left_of tp e.
Proof. reflexivity. Qed.

Lemma right_of_set (tp : TreePosition) iv a b e :
  right_of (set_ranges tp iv a b) e = right_of tp e.
Proof. reflexivity. Qed.

Lemma ins_at_set (tp : TreePosition) iv a b i :
  ins_at (set_ranges tp iv a b) i = ins_at tp i.
Proof. reflexivity. Qed.

Lemma rem_at_set (tp : TreePosition) iv a b i :
  rem_at (set_ranges tp iv a b) i = rem_at tp i.
Proof. reflexivity. Qed.

Lemma new_right_set (tp : TreePosition) iv a b j k :
  new_right (set_ranges tp iv a b) j k = new_right tp j k.
Proof. reflexivity. Qed.

Create Rewrite HintDb cursor.
#[local] Hint Rewrite left_of_set right_of_set ins_at_set rem_at_set new_right_set
  : cursor.

Lemma next_ready (chk : bool) (tp : TreePosition) :
  well_formed tp -> ready tp ->
  exists b tp', next chk tp = Ok (b, tp') /\ next_post tp b tp'.
Proof.
  intros WF RD. destruct RD as [Rj Rk Rp Rid Rit Rrd Rrt].
  destruct (next_run chk tp (well_formed_shaped tp WF) Rj Rk)
    as (j' & k' & Erun & Hj' & Hk' & Hjeq & Hjstop & Hkeq & Hkstop).
  set (x := snd (interval tp)) in *.
  set (M := num_edges tp) in *.
  assert (Hins_todo : forall i, j' <= i < M -> (x < left_of tp (ins_at tp i))%Q).
  { intros i Hi.
    assert (Hne : ~ (left_of tp (ins_at tp j') == x)%Q) by (apply Hjstop; lia).
    pose proof (Rit j' ltac:(lia)) as Hge.
    pose proof (wf_ins_sorted tp WF j' i ltac:(lia) ltac:(lia) ltac:(lia)) as Hs.
    apply Qnot_le_lt. intros Hle. apply Hne. lra. }
  assert (Hrem_todo : forall i, k' <= i < M -> (x < right_of tp (rem_at tp i))%Q).
  { intros i Hi.
    assert (Hne : ~ (right_of tp (rem_at tp k') == x)%Q) by (apply Hkstop; lia).
    pose proof (Rrt k' ltac:(lia)) as Hge.
    pose proof (wf_rem_sorted tp WF k' i ltac:(lia) ltac:(lia) ltac:(lia)) as Hs.
    apply Qnot_le_lt. intros Hle. apply Hne. lra. }
  eexists _, _. split; [exact Erun|].
  constructor; simpl; autorewrite with cursor; auto; try lia.
  - repeat split.
  - (* at_tree *)
    constructor; simpl; intros; autorewrite with cursor; auto; try lia.
    + destruct (Z_lt_le_dec i (snd (in_range tp))) as [Hlt|Hge].
      * specialize (Rid i ltac:(lia)). fold x in Rid. lra.
      * specialize (Hjeq i ltac:(lia)). lra.
    + destruct (Z_lt_le_dec i (snd (out_range tp))) as [Hlt|Hge].
      * specialize (Rrd i ltac:(lia)). fold x in Rrd. lra.
      * specialize (Hkeq i ltac:(lia)). lra.
  - (* answered true: the interval is not empty *)
    intros Hb. apply new_right_gt; auto.
    apply orb_true_iff in Hb. destruct Hb as [Hb|Hb].
    + apply Z.ltb_lt in Hb.
      pose proof (Hins_todo j' ltac:(lia)) as H1.
      destruct (wf_span tp WF (ins_at tp j')) as (_ & H2 & H3);
        [apply wf_ins_entry; auto; lia | lra].
    + apply Qlt_bool_iff in Hb. exact Hb.
    + intros H. apply Hins_todo. lia.
    + intros H. apply Hrem_todo. lia.
  - (* answered false: both orders are used up *)
    intros Hb. apply orb_false_iff in Hb. destruct Hb as [Hb1 Hb2].
    apply Z.ltb_ge in Hb1. apply Qlt_bool_false in Hb2.
    assert (Hx : (x == sequence_length tp)%Q) by lra.
    split; [lia|]. split; [|exact Hx].
    destruct (Z_lt_le_dec k' M) as [Hlt|Hge]; [|lia].
    exfalso. pose proof (Hrem_todo k' ltac:(lia)) as H1.
    destruct (wf_span tp WF (rem_at tp k')) as (_ & H2 & H3);
      [apply wf_rem_entry; auto; lia | lra].
Qed.

Lemma same_table_reads (tp tp' : TreePosition) :
  same_table tp tp' ->
  (forall e, left_of tp' e = left_of tp e)
  /\ (forall e, right_of tp' e = right_of tp e)
  /\ (forall i, ins_at tp' i = ins_at tp i)
  /\ (forall i, rem_at tp' i = rem_at tp i)
  /\ (forall j k, new_right tp' j k = new_right tp j k).
Proof.
  intros (E1 & E2 & E3 & E4 & E5 & E6).
  unfold new_right, left_of, right_of, ins_at, rem_at.
  rewrite E1, E2, E3, E4, E5, E6. repeat split.
Qed.

(** After the first call of a traversal every call that answers true moves
    a cursor. *)
Lemma next_progress (tp tp' : TreePosition) :
  at_tree tp ->
  next_post tp true tp' ->
  snd (in_range tp) + snd (out_range tp) < snd (in_range tp') + snd (out_range tp').
Proof.
  intros AT NP.
  destruct NP as [Ntab Nl Nr Ni No Nil Nol _ _ _ Nat Ntrue _].
  destruct (same_table_reads tp tp' Ntab) as (El & Er & Ei & Eo & _).
  destruct (Z.eq_dec (snd (in_range tp')) (snd (in_range tp))) as [Ej|Nj]; [|lia].
  destruct (Z.eq_dec (snd (out_range tp')) (snd (out_range tp))) as [Ek|Nk]; [|lia].
  exfalso.
  pose proof (at_right tp AT) as Hx.
  pose proof (at_ins_todo tp' Nat) as Hit. pose proof (at_rem_todo tp' Nat) as Hrt.
  pose proof (at_j tp' Nat) as Hj. pose proof (at_k tp' Nat) as Hk.
  destruct Ntab as (EM & _).
  specialize (Ntrue eq_refl). rewrite Nr, Nl, Ej, Ek in Ntrue.
  rewrite Nl, Ej, EM in Hit. rewrite Nl, Ek, EM in Hrt.
  pose proof (new_right_le_length tp (snd (in_range tp)) (snd (out_range tp))) as HL.
  destruct (new_right_cases tp (snd (in_range tp)) (snd (out_range tp)))
    as [E | [(H & E) | (H & E)]].
  - rewrite <- Hx in *. rewrite E in Ntrue. lra.
  - specialize (Hit (snd (in_range tp)) ltac:(lia)).
    rewrite El, Ei, <- E, <- Hx in Hit. lra.
  - specialize (Hrt (snd (out_range tp)) ltac:(lia)).
    rewrite Er, Eo, <- E, <- Hx in Hrt. lra.
Qed.

(** ** A whole traversal *)

Lemma run_post_step (tp tp' : TreePosition) (b : bool)
    (ts : list TreePosition) (tf : TreePosition) :
  next_post tp b tp' ->
  (if b then run_post tp' ts tf else ts = [] /\ tf = tp') ->
  run_post tp (if b then tp' :: ts else []) tf.
Proof.
  intros NP H.
  pose proof (np_table tp b tp' NP) as Ntab.
  assert (EM : num_edges tp' = num_edges tp) by apply Ntab.
  assert (EL : sequence_length tp' = sequence_length tp) by apply Ntab.
  destruct b.
  - destruct H as [Ht Hi Ho Htab Hat].
    constructor; simpl.
    + split; [rewrite (np_left tp true tp' NP); reflexivity|].
      split; [apply (np_true tp true tp' NP); reflexivity|].
      rewrite <- EL. exact Ht.
    + split; [apply NP|]. split; [apply NP|]. rewrite <- EM. exact Hi.
    + split; [apply NP|]. split; [apply NP|]. rewrite <- EM. exact Ho.
    + constructor; [exact Ntab|].
      eapply Forall_impl; [|exact Htab]. intros t. apply same_table_trans. exact Ntab.
    + constructor; [apply NP | exact Hat].
  - destruct H as (-> & ->).
    destruct (np_false tp false tp' NP eq_refl) as (Ej & Ek & Ex).
    constructor; simpl.
    + exact Ex.
    + split; [apply NP|]. split; [apply NP|]. exact Ej.
    + split; [apply NP|]. split; [apply NP|]. exact Ek.
    + constructor; [exact Ntab | constructor].
    + constructor; [apply NP | constructor].
Qed.

Lemma traverse_from (chk : bool) (n : nat) :
  forall (tp : TreePosition) (fuel : nat),
    well_formed tp -> at_tree tp -> ready tp ->
    2 * num_edges tp - snd (in_range tp) - snd (out_range tp) <= Z.of_nat n ->
    (n < fuel)%nat ->
    exists ts tf, traverse chk fuel tp = Ok (ts, tf) /\ run_post tp ts tf.
Proof.
  induction n as [|n IH]; intros tp fuel WF AT RD Hm Hfuel.
  - destruct fuel as [|fuel]; [lia|].
    destruct (next_ready chk tp WF RD) as (b & tp' & Enext & NP).
    simpl. rewrite Enext. simpl.
    destruct b.
    + exfalso. pose proof (next_progress tp tp' AT NP) as Hp.
      pose proof (at_j tp' (np_at _ _ _ NP)). pose proof (at_k tp' (np_at _ _ _ NP)).
      assert (num_edges tp' = num_edges tp) by apply NP. lia.
    + exists [], tp'. split; [reflexivity|].
      apply (run_post_step tp tp' false [] tp' NP). auto.
  - destruct fuel as [|fuel]; [lia|].
    destruct (next_ready chk tp WF RD) as (b & tp' & Enext & NP).
    simpl. rewrite Enext. simpl.
    destruct b.
    + pose proof (next_progress tp tp' AT NP) as Hp.
      assert (EM : num_edges tp' = num_edges tp) by apply NP.
      assert (WF' : well_formed tp')
        by (apply (same_table_wf tp); [apply NP | exact WF]).
      destruct (IH tp' fuel) as (ts & tf & Erun & RP); auto; try lia.
      * apply NP.
      * apply at_tree_ready; auto; [apply NP | apply NP; reflexivity].
      * rewrite Erun. simpl. exists (tp' :: ts), tf. split; [reflexivity|].
        apply (run_post_step tp tp' true ts tf NP). exact RP.
    + exists [], tp'. split; [reflexivity|].
      apply (run_post_step tp tp' false [] tp' NP). auto.
Qed.

Lemma traverse_total (chk : bool) (tp : TreePosition) (fuel : nat) :
  well_formed tp -> initial tp -> (enough_fuel tp <= fuel)%nat ->
  exists ts tf, traverse chk fuel tp = Ok (ts, tf) /\ run_post tp ts tf.
Proof.
  intros WF Hinit Hfuel. unfold enough_fuel in Hfuel.
  destruct fuel as [|fuel]; [lia|].
  pose proof (initial_ready tp WF Hinit) as RD.
  destruct (next_ready chk tp WF RD) as (b & tp' & Enext & NP).
  simpl. rewrite Enext. simpl.
  destruct b.
  - assert (EM : num_edges tp' = num_edges tp) by apply NP.
    assert (WF' : well_formed tp')
      by (apply (same_table_wf tp); [apply NP | exact WF]).
    pose proof (np_at _ _ _ NP) as AT'.
    pose proof (at_j tp' AT'). pose proof (at_k tp' AT').
    destruct (traverse_from chk (Z.to_nat (2 * num_edges tp)) tp' fuel)
      as (ts & tf & Erun & RP); auto; try lia.
    + apply at_tree_ready; auto. apply NP; reflexivity.
    + rewrite Erun. simpl. exists (tp' :: ts), tf. split; [reflexivity|].
      apply (run_post_step tp tp' true ts tf NP). exact RP.
  - exists [], tp'. split; [reflexivity|].
    apply (run_post_step tp tp' false [] tp' NP). auto.
Qed.

(** ** Every call of a traversal *)

Lemma shaped_set_ranges (tp : TreePosition) iv a b :
  shaped tp -> shaped (set_ranges tp iv a b).
Proof.
  intros [H1 H2 H3 H4 H5 H6 H7]. constructor; assumption.
Qed.

Lemma reachable_shaped (chk : bool) (tp0 tp : TreePosition) :
  shaped tp0 -> initial tp0 -> reachable chk tp0 tp ->
  shaped tp
  /\ 0 <= snd (in_range tp) <= num_edges tp
  /\ 0 <= snd (out_range tp) <= num_edges tp.
Proof.
  intros SH (_ & Ej & Ek) R. induction R as [|tp tp' R IH Enext].
  - pose proof (sh_edges tp0 SH). rewrite Ej, Ek. simpl. auto with zarith.
  - destruct IH as (SH' & Hj & Hk).
    destruct (next_run chk tp SH' Hj Hk) as (j' & k' & Erun & Hj' & Hk' & _).
    rewrite Erun in Enext. injection Enext as _ <-.
    split; [apply shaped_set_ranges; exact SH'|]. simpl. lia.
Qed.

Lemma reachable_ready (chk : bool) (tp0 tp : TreePosition) :
  well_formed tp0 -> initial tp0 -> reachable chk tp0 tp ->
  well_formed tp /\ ready tp /\ same_table tp0 tp /\ (tp = tp0 \/ at_tree tp).
Proof.
  intros WF Hinit R. induction R as [|tp tp' R IH Enext].
  - split; [exact WF|]. split; [apply initial_ready; assumption|].
    split; [apply same_table_refl | left; reflexivity].
  - destruct IH as (WF' & RD & Htab & _).
    destruct (next_ready chk tp WF' RD) as (b & tp'' & Erun & NP).
    rewrite Erun in Enext. injection Enext as -> ->.
    assert (WF'' : well_formed tp')
      by (apply (same_table_wf tp); [apply NP | exact WF']).
    split; [exact WF''|]. split.
    + apply at_tree_ready; [exact WF'' | apply NP | apply NP; reflexivity].
    + split; [|right; apply NP].
      apply (same_table_trans tp0 tp tp'); [exact Htab | apply NP].
Qed.

Lemma Qmin_cases (a b : Q) :
  ((a <= b)%Q /\ Qmin a b = a) \/ ((b < a)%Q /\ Qmin a b = b).
Proof.
  unfold Qmin, GenericMinMax.gmin.
  destruct (Qcompare_spec a b) as [H|H|H]; [left|left|right]; split; auto; lra.
Qed.

Lemma pymin_cases_le (a b : Q) :
  ((a <= b)%Q /\ pymin a b = a) \/ ((b < a)%Q /\ pymin a b = b).
Proof.
  unfold pymin. destruct (Qlt_bool b a) eqn:E.
  - right. apply Qlt_bool_iff in E. auto.
  - left. apply Qlt_bool_false in E. auto.
Qed.

Lemma new_right_least (tp : TreePosition) (iv : Q * Q) (a b : Z * Z) :
  (new_right tp (snd a) (snd b)
   == least (sequence_length tp) (boundary_candidates (set_ranges tp iv a b)))%Q.
Proof.
  unfold new_right, boundary_candidates, least. simpl.
  autorewrite with cursor.
  destruct (snd a <? num_edges tp); destruct (snd b <? num_edges tp); simpl;
    repeat match goal with
           | |- context [pymin ?x ?y] =>
               let H := fresh in
               destruct (pymin_cases_le x y) as [[? H]|[? H]]; rewrite H in *; clear H
           | _ : context [pymin ?x ?y] |- _ =>
               let H := fresh in
               destruct (pymin_cases_le x y) as [[? H]|[? H]]; rewrite H in *; clear H
           | |- context [Qmin ?x ?y] =>
               let H := fresh in
               destruct (Qmin_cases x y) as [[? H]|[? H]]; rewrite H in *; clear H
           | _ : context [Qmin ?x ?y] |- _ =>
               let H := fresh in
               destruct (Qmin_cases x y) as [[? H]|[? H]]; rewrite H in *; clear H
           end; lra.
Qed.

(** C4: a call of [next] made during a traversal returns; it answers false
    exactly when the insertion cursor it leaves stands at [num_edges] and the
    right end of the previous tree is at least [sequence_length]. *)
Theorem next_false_iff (chk : bool) (tp0 tp : TreePosition) :
  shaped tp0 -> initial tp0 -> reachable chk tp0 tp ->
  exists b tp',
    next chk tp = Ok (b, tp')
    /\ (b = false <->
        snd (in_range tp') = num_edges tp
        /\ (sequence_length tp <= snd (interval tp))%Q).
Proof.
  intros SH Hinit R.
  destruct (reachable_shaped chk tp0 tp SH Hinit R) as (SH' & Hj & Hk).
  destruct (next_run chk tp SH' Hj Hk) as (j' & k' & Erun & Hj' & Hk' & _).
  eexists _, _. split; [exact Erun|]. simpl.
  rewrite orb_false_iff, Z.ltb_ge, Qlt_bool_false.
  split; intros (H1 & H2); split; auto; lia.
Qed.

(** C5: a call of [next] made during a traversal leaves the interval
    [previous right end, r) where [r] is the least of [sequence_length], the
    left end of the next edge to insert and the right end of the next edge to
    remove, the last two taken only if such an edge remains. *)
Theorem next_interval (chk : bool) (tp0 tp : TreePosition) :
  shaped tp0 -> initial tp0 -> reachable chk tp0 tp ->
  exists b tp',
    next chk tp = Ok (b, tp')
    /\ fst (interval tp') = snd (interval tp)
    /\ (snd (interval tp')
        == least (sequence_length tp') (boundary_candidates tp'))%Q.
Proof.
  intros SH Hinit R.
  destruct (reachable_shaped chk tp0 tp SH Hinit R) as (SH' & Hj & Hk).
  destruct (next_run chk tp SH' Hj Hk) as (j' & k' & Erun & _).
  eexists _, _. split; [exact Erun|]. split; [reflexivity|].
  cbn [interval set_ranges snd sequence_length].
  apply (new_right_least tp _ (snd (in_range tp), j') (snd (out_range tp), k')).
Qed.

(** ** Tiling *)

Lemma tiles_le (ivs : list (Q * Q)) :
  forall (a b : Q), tiles a ivs b -> (a <= b)%Q.
Proof.
  induction ivs as [|iv rest IH]; intros a b H; simpl in H.
  - lra.
  - destruct H as (Ha & Hlt & Hrest). specialize (IH _ _ Hrest). lra.
Qed.

Lemma tiles_start_le (ivs : list (Q * Q)) :
  forall (a b : Q) (i : nat) (d : Q * Q),
    tiles a ivs b -> (i < length ivs)%nat ->
    (a <= fst (nth i ivs d))%Q /\ (fst (nth i ivs d) < snd (nth i ivs d))%Q
    /\ (snd (nth i ivs d) <= b)%Q.
Proof.
  induction ivs as [|iv rest IH]; intros a b i d H Hi; simpl in *; [lia|].
  destruct H as (Ha & Hlt & Hrest).
  pose proof (tiles_le rest _ _ Hrest) as Hb.
  destruct i as [|i].
  - split; [lra|]. split; [exact Hlt | exact Hb].
  - destruct (IH (snd iv) b i d Hrest) as (H1 & H2 & H3); [lia|].
    split; [lra|]. split; assumption.
Qed.

Lemma tiles_contiguous (ivs : list (Q * Q)) :
  forall (a b : Q) (i : nat) (d : Q * Q),
    tiles a ivs b -> (S i < length ivs)%nat ->
    (fst (nth (S i) ivs d) == snd (nth i ivs d))%Q.
Proof.
  induction ivs as [|iv rest IH]; intros a b i d H Hi; simpl in *; [lia|].
  destruct H as (_ & _ & Hrest).
  destruct i as [|i].
  - destruct rest as [|iv' rest']; simpl in *; [lia|]. apply Hrest.
  - apply (IH (snd iv) b i d Hrest). lia.
Qed.

Lemma tiles_apart (ivs : list (Q * Q)) :
  forall (a b : Q) (i i' : nat) (d : Q * Q),
    tiles a ivs b -> (i < i')%nat -> (i' < length ivs)%nat ->
    (snd (nth i ivs d) <= fst (nth i' ivs d))%Q.
Proof.
  induction ivs as [|iv rest IH]; intros a b i i' d H Hlt Hi'; simpl in *; [lia|].
  destruct H as (_ & _ & Hrest).
  destruct i' as [|i']; [lia|].
  destruct i as [|i].
  - destruct (tiles_start_le rest (snd iv) b i' d Hrest) as (H1 & _); [lia|]. exact H1.
  - apply (IH (snd iv) b i i' d Hrest); lia.
Qed.

Lemma tiles_first (ivs : list (Q * Q)) (a b : Q) (d : Q * Q) :
  tiles a ivs b -> ivs <> [] -> (fst (hd d ivs) == a)%Q.
Proof.
  destruct ivs as [|iv rest]; intros H N; [congruence|]. simpl in *. apply H.
Qed.

Lemma tiles_last (ivs : list (Q * Q)) :
  forall (a b : Q) (d : Q * Q),
    tiles a ivs b -> ivs <> [] -> (snd (last ivs d) == b)%Q.
Proof.
  induction ivs as [|iv rest IH]; intros a b d H N; [congruence|].
  destruct H as (_ & _ & Hrest).
  destruct rest as [|iv' rest'].
  - simpl in *. exact Hrest.
  - change (last (iv :: iv' :: rest') d) with (last (iv' :: rest') d).
    apply (IH (snd iv) b d Hrest). discriminate.
Qed.

Lemma tiles_nonempty (ivs : list (Q * Q)) (a b : Q) :
  tiles a ivs b -> (a < b)%Q -> ivs <> [].
Proof.
  intros H Hlt ->. simpl in H. lra.
Qed.

(** C6: on a well-formed table the traversal ends, and the intervals of the
    calls that answered true tile the genome: the first starts at 0, each
    next one starts where the one before ends, none is empty, no two overlap,
    and the last ends at [sequence_length]. *)
Theorem intervals_tile (chk : bool) (tp : TreePosition) (fuel : nat) :
  well_formed tp -> initial tp -> (enough_fuel tp <= fuel)%nat ->
  exists ts tf,
    traverse chk fuel tp = Ok (ts, tf)
    /\ let ivs := map interval ts in
       ivs <> []
       /\ (fst (hd (0, 0)%Q ivs) == 0)%Q
       /\ (snd (last ivs (0, 0)%Q) == sequence_length tp)%Q
       /\ (forall i, (S i < length ivs)%nat ->
             (fst (nth (S i) ivs (0, 0)%Q) == snd (nth i ivs (0, 0)%Q))%Q)
       /\ (forall i, (i < length ivs)%nat ->
             (fst (nth i ivs (0, 0)%Q) < snd (nth i ivs (0, 0)%Q))%Q)
       /\ (forall i i', (i < i')%nat -> (i' < length ivs)%nat ->
             (snd (nth i ivs (0, 0)%Q) <= fst (nth i' ivs (0, 0)%Q))%Q).
Proof.
  intros WF Hinit Hfuel.
  destruct (traverse_total chk tp fuel WF Hinit Hfuel) as (ts & tf & Erun & RP).
  exists ts, tf. split; [exact Erun|].
  pose proof (rp_tiles tp ts tf RP) as HT.
  destruct Hinit as (Ei & _). rewrite Ei in HT. simpl in HT.
  pose proof (wf_length tp WF) as HL.
  assert (HN : map interval ts <> []) by (apply (tiles_nonempty _ _ _ HT); exact HL).
  cbv zeta. split; [exact HN|].
  split; [apply (tiles_first _ _ _ _ HT HN)|].
  split; [apply (tiles_last _ _ _ _ HT HN)|].
  split; [intros i Hi; apply (tiles_contiguous _ _ _ _ _ HT Hi)|].
  split.
  - intros i Hi. apply (tiles_start_le _ _ _ i (0, 0)%Q HT Hi).
  - intros i i' Hlt Hi'. apply (tiles_apart _ _ _ _ _ _ HT Hlt Hi').
Qed.

(** ** Coverage of the two orders *)

Lemma firstn_plus {A : Type} (n m : nat) (l : list A) :
  firstn (n + m) l = firstn n l ++ firstn m (skipn n l).
Proof.
  revert l; induction n as [|n IH]; intros l; simpl; [reflexivity|].
  destruct l as [|x l]; simpl.
  - rewrite firstn_nil. reflexivity.
  - rewrite IH. reflexivity.
Qed.

Lemma skipn_plus {A : Type} (n m : nat) (l : list A) :
  skipn (n + m) l = skipn m (skipn n l).
Proof.
  revert l; induction n as [|n IH]; intros l; simpl; [reflexivity|].
  destruct l as [|x l]; simpl; [rewrite skipn_nil; reflexivity | apply IH].
Qed.

Lemma slice_app {A : Type} (l : list A) (a m b : Z) :
  0 <= a -> a <= m -> m <= b ->
  slice l a m ++ slice l m b = slice l a b.
Proof.
  intros Ha Hm Hb. unfold slice.
  replace (Z.to_nat (b - a)) with (Z.to_nat (m - a) + Z.to_nat (b - m))%nat by lia.
  rewrite firstn_plus. f_equal. f_equal.
  replace (Z.to_nat m) with (Z.to_nat a + Z.to_nat (m - a))%nat by lia.
  apply skipn_plus.
Qed.

Lemma slice_all {A : Type} (l : list A) :
  slice l 0 (Z.of_nat (length l)) = l.
Proof.
  unfold slice. simpl. rewrite Z.sub_0_r, Nat2Z.id. apply firstn_all.
Qed.

Lemma chained_le (rs : list (Z * Z)) : forall a b, chained a rs b -> a <= b.
Proof.
  induction rs as [|r rest IH]; intros a b H; simpl in H; [lia|].
  destruct H as (Ha & Hle & Hrest). specialize (IH _ _ Hrest). lia.
Qed.

Lemma chained_slices {A : Type} (l : list A) (rs : list (Z * Z)) :
  forall a b, 0 <= a -> chained a rs b ->
    concat (map (fun r => slice l (fst r) (snd r)) rs) = slice l a b.
Proof.
  induction rs as [|r rest IH]; intros a b Ha H; simpl in *.
  - subst b. unfold slice. rewrite Z.sub_diag. reflexivity.
  - destruct H as (Hs & Hle & Hrest).
    rewrite (IH (snd r) b) by (auto; lia).
    rewrite Hs in *. apply slice_app; auto.
    apply (chained_le rest). exact Hrest.
Qed.

Lemma perm_zrange_count (l : list Z) (n e : Z) :
  Permutation l (zrange n) -> 0 <= e < n -> count_occ Z.eq_dec l e = 1%nat.
Proof.
  intros HP He. rewrite (Permutation_count_occ Z.eq_dec) in HP. rewrite HP.
  apply NoDup_count_occ'; [apply NoDup_zrange | apply in_zrange; exact He].
Qed.

Lemma covered_all (l : list Z) (rs : list (Z * Z)) (n : Z) :
  Z.of_nat (length l) = n -> chained 0 rs n ->
  concat (map (fun r => slice l (fst r) (snd r)) rs) = l.
Proof.
  intros Hlen H. rewrite (chained_slices l rs 0 n) by (auto; lia).
  rewrite <- Hlen. apply slice_all.
Qed.

(** C7: on a well-formed table the traversal ends, and over all its calls,
    the one that answers false included, every edge occurs exactly once
    among the entries of [edge_insertion_order] in the [in_range] ranges and
    exactly once among the entries of [edge_removal_order] in the
    [out_range] ranges. *)
Theorem edge_coverage (chk : bool) (tp : TreePosition) (fuel : nat) :
  well_formed tp -> initial tp -> (enough_fuel tp <= fuel)%nat ->
  exists ts tf,
    traverse chk fuel tp = Ok (ts, tf)
    /\ forall e, 0 <= e < num_edges tp ->
         count_occ Z.eq_dec (inserted_edges tp (ts ++ [tf])) e = 1%nat
         /\ count_occ Z.eq_dec (removed_edges tp (ts ++ [tf])) e = 1%nat.
Proof.
  intros WF Hinit Hfuel.
  destruct (traverse_total chk tp fuel WF Hinit Hfuel) as (ts & tf & Erun & RP).
  exists ts, tf. split; [exact Erun|].
  pose proof (rp_in tp ts tf RP) as Hin. pose proof (rp_out tp ts tf RP) as Hout.
  destruct Hinit as (_ & Ej & Ek). rewrite Ej in Hin. rewrite Ek in Hout.
  simpl in Hin, Hout.
  intros e He. unfold inserted_edges, removed_edges.
  rewrite <- (map_map in_range
                (fun r => slice (edge_insertion_order tp) (fst r) (snd r))).
  rewrite <- (map_map out_range
                (fun r => slice (edge_removal_order tp) (fst r) (snd r))).
  rewrite (covered_all _ _ (num_edges tp) (wf_ins_length tp WF) Hin).
  rewrite (covered_all _ _ (num_edges tp) (wf_rem_length tp WF) Hout).
  split; apply (perm_zrange_count _ (num_edges tp)); auto; apply WF.
Qed.

(** * The accumulator *)

(** ** Counting *)

Lemma firstn_succ_zidx {A : Type} (d : A) (l : list A) (j : Z) :
  0 <= j < Z.of_nat (length l) ->
  firstn (Z.to_nat (j + 1)) l = firstn (Z.to_nat j) l ++ [zidx d l j].
Proof.
  intros H. replace (Z.to_nat (j + 1)) with (Z.to_nat j + 1)%nat by lia.
  rewrite firstn_plus. f_equal. unfold zidx.
  assert (Hn : (Z.to_nat j < length l)%nat) by lia.
  revert Hn. generalize (Z.to_nat j). clear H. intros n.
  revert n. induction l as [|x l IH]; intros [|n] Hn; simpl in *; try lia.
  - reflexivity.
  - apply IH. lia.
Qed.

Lemma count_parent_succ (edges_parent order : list Z) (j n : Z) :
  0 <= j < Z.of_nat (length order) ->
  count_parent edges_parent order (j + 1) n =
  count_parent edges_parent order j n
  + ind (parent_of edges_parent (zidx 0 order j) =? n).
Proof.
  intros H. unfold count_parent. rewrite (firstn_succ_zidx 0) by exact H.
  rewrite filter_app, length_app. cbn [filter]. unfold ind.
  destruct (parent_of edges_parent (zidx 0 order j) =? n); cbn [length]; lia.
Qed.

Lemma count_parent_zero (edges_parent order : list Z) (n : Z) :
  count_parent edges_parent order 0 n = 0.
Proof. reflexivity. Qed.

Lemma in_firstn_zidx {A : Type} (d : A) (l : list A) (j : Z) (e : A) :
  In e (firstn (Z.to_nat j) l) <->
  exists i, 0 <= i < j /\ i < Z.of_nat (length l) /\ zidx d l i = e.
Proof.
  split.
  - intros H. destruct (In_nth _ _ d H) as (n & Hn & En).
    rewrite length_firstn in Hn. rewrite nth_firstn in En.
    destruct (Nat.ltb_spec n (Z.to_nat j)); [|lia].
    exists (Z.of_nat n). unfold zidx. rewrite Nat2Z.id. repeat split; auto; lia.
  - intros (i & Hi & Hl & <-). unfold zidx.
    replace (nth (Z.to_nat i) l d) with (nth (Z.to_nat i) (firstn (Z.to_nat j) l) d).
    + apply nth_In. rewrite length_firstn. lia.
    + rewrite nth_firstn. destruct (Nat.ltb_spec (Z.to_nat i) (Z.to_nat j)); [auto|lia].
Qed.

Lemma NoDup_firstn {A : Type} (n : nat) (l : list A) :
  NoDup l -> NoDup (firstn n l).
Proof.
  intros H. rewrite <- (firstn_skipn n l) in H.
  apply NoDup_app_remove_r in H. exact H.
Qed.

Lemma filter_incl_length {A : Type} (f g : A -> bool) (l1 l2 : list A) :
  NoDup l1 ->
  (forall e, In e l1 -> f e = true -> In e l2 /\ g e = true) ->
  (length (filter f l1) <= length (filter g l2))%nat.
Proof.
  intros ND H. apply NoDup_incl_length; [apply NoDup_filter; exact ND|].
  intros e He. apply filter_In in He. destruct He as (He & Hf).
  apply filter_In. apply H; assumption.
Qed.

Lemma count_arity_upd (nc : list Z) (i : Z) (v a : Z) :
  0 <= i < Z.of_nat (length nc) ->
  count_arity (upd nc (Z.to_nat i) v) a =
  count_arity nc a - ind (zidx 0 nc i =? a) + ind (v =? a).
Proof.
  intros H. unfold count_arity, zidx.
  assert (Hn : (Z.to_nat i < length nc)%nat) by lia.
  revert Hn. generalize (Z.to_nat i). clear H. intros n. revert n.
  induction nc as [|x nc IH]; intros [|n] Hn; simpl in *; try lia.
  - unfold ind. destruct (x =? a); destruct (v =? a); cbn [length]; lia.
  - specialize (IH n ltac:(lia)).
    destruct (x =? a); cbn [length]; lia.
Qed.

Lemma count_arity_pos (nc : list Z) (i : Z) :
  0 <= i < Z.of_nat (length nc) -> 1 <= count_arity nc (zidx 0 nc i).
Proof.
  intros H. unfold count_arity.
  assert (In (zidx 0 nc i) (filter (fun v => v =? zidx 0 nc i) nc)).
  { apply filter_In. split; [unfold zidx; apply nth_In; lia | apply Z.eqb_refl]. }
  destruct (filter (fun v => v =? zidx 0 nc i) nc); simpl in *; [tauto | lia].
Qed.

Lemma count_arity_le (nc : list Z) (a : Z) :
  0 <= count_arity nc a <= Z.of_nat (length nc).
Proof.
  unfold count_arity. pose proof (filter_length_le (fun v => v =? a) nc). lia.
Qed.

(** ** The invariant of the two inner loops *)

Section Steps.

Variable chk : bool.
Variables (nodes_time : list float) (edges_parent edges_child : list Z).
Variable num_nodes : Z.
Variable tp : TreePosition.
Hypothesis SH : shaped tp.
Hypothesis NO : nodes_ok tp nodes_time edges_parent edges_child num_nodes.

Lemma remove_edge_step (j k : Z) (s : stats) :
  mid_inv tp edges_parent num_nodes j k s ->
  0 <= k < num_edges tp ->
  count_parent edges_parent (edge_removal_order tp) (k + 1)
    (parent_of edges_parent (rem_at tp k))
  <= count_parent edges_parent (edge_insertion_order tp) j
       (parent_of edges_parent (rem_at tp k)) ->
  exists s',
    remove_edge chk nodes_time edges_parent edges_child tp k s = Ok s'
    /\ mid_inv tp edges_parent num_nodes j (k + 1) s'
    /\ same_outputs s s'.
Proof.
  intros MI Hk Hcount.
  destruct MI as [Lnc Lh Hnc Hb Hh0 Hh].
  destruct NO as [Nn Nlp Nlc Nlt Np Nc].
  pose proof (sh_len_rem tp SH) as Lrem.
  pose proof (sh_rem_entry tp SH k Hk) as He.
  set (e := rem_at tp k) in *.
  set (p := parent_of edges_parent e) in *.
  pose proof (Np e He) as Hp. fold p in Hp.
  set (c := zidx 0 (num_children s) p).
  assert (Hc : 1 <= c < num_nodes).
  { pose proof (Hb p Hp) as B. pose proof (Hnc p Hp) as E. fold c in B, E.
    rewrite count_parent_succ in Hcount by lia.
    fold (rem_at tp k) in Hcount. fold e in Hcount. fold p in Hcount.
    rewrite Z.eqb_refl in Hcount. simpl in Hcount. lia. }
  set (h := zidx 0 (nodes_with_arity s) c).
  assert (Eh : h = count_arity (num_children s) c) by (apply Hh; exact Hc).
  assert (Hh1 : 1 <= h <= num_nodes).
  { rewrite Eh. pose proof (count_arity_pos (num_children s) p ltac:(lia)) as P.
    fold c in P. pose proof (count_arity_le (num_children s) c). lia. }
  set (nwa := upd (nodes_with_arity s) (Z.to_nat c) (h - 1)).
  set (nc := upd (num_children s) (Z.to_nat p) (c - 1)).
  assert (Lnwa : Z.of_nat (length nwa) = num_nodes)
    by (unfold nwa; rewrite upd_length; exact Lh).
  assert (Lnc' : Z.of_nat (length nc) = num_nodes)
    by (unfold nc; rewrite upd_length; exact Lnc).
  assert (Enc : forall n, 0 <= n < num_nodes ->
            zidx 0 nc n =
            count_parent edges_parent (edge_insertion_order tp) j n
            - count_parent edges_parent (edge_removal_order tp) (k + 1) n).
  { intros n Hn. rewrite count_parent_succ by lia.
    fold (rem_at tp k). fold e. fold p. unfold nc.
    destruct (Z.eqb_spec p n) as [E|Hne]; [subst n|].
    - rewrite zidx_upd_same by lia.
      unfold c. rewrite (Hnc p Hn). unfold ind. lia.
    - rewrite zidx_upd_other by lia. rewrite (Hnc n Hn). unfold ind. lia. }
  assert (Bnc : forall n, 0 <= n < num_nodes -> 0 <= zidx 0 nc n < num_nodes).
  { intros n Hn. unfold nc. destruct (Z.eq_dec p n) as [E|Hne]; [subst n|].
    - rewrite zidx_upd_same by lia. lia.
    - rewrite zidx_upd_other by lia. apply Hb. exact Hn. }
  assert (Ecount : forall a, count_arity nc a =
            count_arity (num_children s) a - ind (c =? a) + ind (c - 1 =? a)).
  { intros a. unfold nc. rewrite count_arity_upd by lia. reflexivity. }
  assert (Run : exists r,
    remove_edge chk nodes_time edges_parent edges_child tp k s =
      Ok {| tbl := tbl s;
            num_internal_nodes := num_internal_nodes s;
            max_arity := max_arity s;
            num_children := nc;
            nodes_with_arity :=
              (if c - 1 =? 0 then nwa
               else upd nwa (Z.to_nat (c - 1)) (zidx 0 nwa (c - 1) + 1));
            current_tbl := fst (fst r);
            tree_index := tree_index s;
            current_num_internal_nodes := snd (fst r);
            current_max_arity := snd r |}).
  { unfold remove_edge.
    rewrite (aget_in 0) by lia. cbn [bind]. fold (rem_at tp k). fold e.
    rewrite (aget_in 0) by lia. cbn [bind]. fold (parent_of edges_parent e). fold p.
    rewrite (aget_in 0) by lia. cbn [bind]. fold c.
    rewrite (aget_in 0) by lia. cbn [bind]. fold h.
    rewrite aset_in by lia. cbn [bind]. rewrite int32_small by lia. fold nwa.
    assert (Edec : exists d,
      (if c =? current_max_arity s
       then h0 <- aget chk nwa c ;; Ok (h0 =? 1)
       else Ok false) = Ok d).
    { destruct (c =? current_max_arity s); [|eauto].
      rewrite (aget_in 0) by lia. cbn [bind]. eauto. }
    destruct Edec as (d & ->). cbn [bind].
    rewrite aset_in by lia. cbn [bind]. rewrite int32_small by lia. fold nc.
    rewrite (aget_in 0) by lia. cbn [bind].
    assert (Encp : zidx 0 nc p = c - 1)
      by (unfold nc; rewrite zidx_upd_same by lia; reflexivity).
    rewrite Encp.
    assert (Tail : forall (r : Z * list Z),
      exists t,
        (c0 <- aget chk edges_child e ;;
         tp_ <- aget chk nodes_time p ;;
         tc <- aget chk nodes_time c0 ;;
         Ok {| tbl := tbl s;
               num_internal_nodes := num_internal_nodes s;
               max_arity := max_arity s;
               num_children := nc;
               nodes_with_arity := snd r;
               current_tbl := PrimFloat.sub (current_tbl s) (PrimFloat.sub tp_ tc);
               tree_index := tree_index s;
               current_num_internal_nodes := fst r;
               current_max_arity :=
                 if d then int64 (current_max_arity s - 1)
                 else current_max_arity s |}) =
        Ok {| tbl := tbl s;
              num_internal_nodes := num_internal_nodes s;
              max_arity := max_arity s;
              num_children := nc;
              nodes_with_arity := snd r;
              current_tbl := t;
              tree_index := tree_index s;
              current_num_internal_nodes := fst r;
              current_max_arity :=
                if d then int64 (current_max_arity s - 1)
                else current_max_arity s |}).
    { intros r.
      rewrite (aget_in 0 chk edges_child) by lia. cbn [bind].
      rewrite (aget_in 0%float chk nodes_time) by lia. cbn [bind].
      rewrite (aget_in 0%float chk nodes_time) by (rewrite Nlt; apply Nc; exact He).
      cbn [bind]. eauto. }
    destruct (Z.eqb_spec (c - 1) 0) as [E0|N0]; cbn [bind].
    - destruct (Tail (int64 (current_num_internal_nodes s - 1), nwa)) as (t & ->).
      eexists (_, _, _). cbn [fst snd]. reflexivity.
    - rewrite (aget_in 0) by lia. cbn [bind].
      rewrite aset_in by lia. cbn [bind].
      assert (Hv : zidx 0 nwa (c - 1) = count_arity (num_children s) (c - 1)).
      { unfold nwa. rewrite zidx_upd_other by lia. apply Hh. lia. }
      rewrite int32_small.
      + destruct (Tail (current_num_internal_nodes s,
                        upd nwa (Z.to_nat (c - 1)) (zidx 0 nwa (c - 1) + 1)))
          as (t & ->).
        eexists (_, _, _). cbn [fst snd]. reflexivity.
      + rewrite Hv. pose proof (Ecount (c - 1)) as E1.
        rewrite Z.eqb_refl in E1.
        destruct (Z.eqb_spec c (c - 1)); [lia|]. simpl in E1.
        pose proof (count_arity_le nc (c - 1)).
        pose proof (count_arity_le (num_children s) (c - 1)). lia. }
  destruct Run as (r & Run). eexists. split; [exact Run|]. split.
  - constructor; cbn [num_children nodes_with_arity]; auto.
    + destruct (c - 1 =? 0); [|rewrite upd_length]; exact Lnwa.
    + destruct (Z.eqb_spec (c - 1) 0) as [E0|N0].
      * unfold nwa. rewrite zidx_upd_other by lia. exact Hh0.
      * rewrite zidx_upd_other by lia.
        unfold nwa. rewrite zidx_upd_other by lia. exact Hh0.
    + intros a Ha. rewrite Ecount.
      destruct (Z.eqb_spec (c - 1) 0) as [E0|N0].
      * unfold nwa. destruct (Z.eqb_spec c a) as [<-|Hne].
        -- rewrite zidx_upd_same by lia.
           destruct (Z.eqb_spec (c - 1) c); [lia|]. simpl. lia.
        -- rewrite zidx_upd_other by lia.
           destruct (Z.eqb_spec (c - 1) a); [lia|]. simpl.
           rewrite (Hh a Ha). lia.
      * destruct (Z.eqb_spec (c - 1) a) as [<-|Hne1].
        -- rewrite zidx_upd_same by lia.
           unfold nwa. rewrite zidx_upd_other by lia.
           destruct (Z.eqb_spec c (c - 1)); [lia|]. simpl.
           rewrite (Hh (c - 1)) by lia. lia.
        -- rewrite zidx_upd_other by lia.
           unfold nwa. destruct (Z.eqb_spec c a) as [<-|Hne].
           ++ rewrite zidx_upd_same by lia. simpl. lia.
           ++ rewrite zidx_upd_other by lia. simpl. rewrite (Hh a Ha). lia.
  - repeat split.
Qed.

Lemma insert_edge_step (j k : Z) (s : stats) :
  mid_inv tp edges_parent num_nodes j k s ->
  0 <= j < num_edges tp ->
  count_parent edges_parent (edge_insertion_order tp) (j + 1)
    (parent_of edges_parent (ins_at tp j))
  - count_parent edges_parent (edge_removal_order tp) k
      (parent_of edges_parent (ins_at tp j))
  < num_nodes ->
  exists s',
    insert_edge chk nodes_time edges_parent edges_child tp j s = Ok s'
    /\ mid_inv tp edges_parent num_nodes (j + 1) k s'
    /\ same_outputs s s'.
Proof.
  intros MI Hj Hcount.
  destruct MI as [Lnc Lh Hnc Hb Hh0 Hh].
  destruct NO as [Nn Nlp Nlc Nlt Np Nc].
  pose proof (sh_len_ins tp SH) as Lins.
  pose proof (sh_ins_entry tp SH j Hj) as He.
  set (e := ins_at tp j) in *.
  set (p := parent_of edges_parent e) in *.
  pose proof (Np e He) as Hp. fold p in Hp.
  set (c := zidx 0 (num_children s) p).
  assert (Hc : 0 <= c /\ c + 1 < num_nodes).
  { pose proof (Hb p Hp) as B. pose proof (Hnc p Hp) as E. fold c in B, E.
    rewrite count_parent_succ in Hcount by lia.
    fold (ins_at tp j) in Hcount. fold e in Hcount. fold p in Hcount.
    rewrite Z.eqb_refl in Hcount. unfold ind in Hcount. lia. }
  set (nwa := if c =? 0 then nodes_with_arity s
              else upd (nodes_with_arity s) (Z.to_nat c)
                     (zidx 0 (nodes_with_arity s) c - 1)).
  set (nc := upd (num_children s) (Z.to_nat p) (c + 1)).
  assert (Lnwa : Z.of_nat (length nwa) = num_nodes)
    by (unfold nwa; destruct (c =? 0); [|rewrite upd_length]; exact Lh).
  assert (Lnc' : Z.of_nat (length nc) = num_nodes)
    by (unfold nc; rewrite upd_length; exact Lnc).
  assert (Enc : forall n, 0 <= n < num_nodes ->
            zidx 0 nc n =
            count_parent edges_parent (edge_insertion_order tp) (j + 1) n
            - count_parent edges_parent (edge_removal_order tp) k n).
  { intros n Hn. rewrite count_parent_succ by lia.
    fold (ins_at tp j). fold e. fold p. unfold nc.
    destruct (Z.eqb_spec p n) as [E|Hne]; [subst n|].
    - rewrite zidx_upd_same by lia.
      unfold c. rewrite (Hnc p Hn). unfold ind. lia.
    - rewrite zidx_upd_other by lia. rewrite (Hnc n Hn). unfold ind. lia. }
  assert (Bnc : forall n, 0 <= n < num_nodes -> 0 <= zidx 0 nc n < num_nodes).
  { intros n Hn. unfold nc. destruct (Z.eq_dec p n) as [E|Hne]; [subst n|].
    - rewrite zidx_upd_same by lia. lia.
    - rewrite zidx_upd_other by lia. apply Hb. exact Hn. }
  assert (Ecount : forall a, count_arity nc a =
            count_arity (num_children s) a - ind (c =? a) + ind (c + 1 =? a)).
  { intros a. unfold nc. rewrite count_arity_upd by lia. reflexivity. }
  assert (Hnwa0 : zidx 0 nwa 0 = 0).
  { unfold nwa. destruct (Z.eqb_spec c 0); [exact Hh0|].
    rewrite zidx_upd_other by lia. exact Hh0. }
  assert (Hnwa : forall a, 1 <= a < num_nodes ->
            zidx 0 nwa a = count_arity (num_children s) a - ind (c =? a)).
  { intros a Ha. unfold nwa. destruct (Z.eqb_spec c 0) as [E0|N0].
    - destruct (Z.eqb_spec c a); [lia|]. unfold ind. rewrite (Hh a Ha). lia.
    - destruct (Z.eqb_spec c a) as [E|Hne]; [subst a|].
      + rewrite zidx_upd_same by lia. rewrite (Hh c Ha). unfold ind. lia.
      + rewrite zidx_upd_other by lia. rewrite (Hh a Ha). unfold ind. lia. }
  assert (Run : exists r,
    insert_edge chk nodes_time edges_parent edges_child tp j s =
      Ok {| tbl := tbl s;
            num_internal_nodes := num_internal_nodes s;
            max_arity := max_arity s;
            num_children := nc;
            nodes_with_arity :=
              upd nwa (Z.to_nat (c + 1)) (zidx 0 nwa (c + 1) + 1);
            current_tbl := fst (fst r);
            tree_index := tree_index s;
            current_num_internal_nodes := snd (fst r);
            current_max_arity := snd r |}).
  { unfold insert_edge.
    rewrite (aget_in 0) by lia. cbn [bind]. fold (ins_at tp j). fold e.
    rewrite (aget_in 0) by lia. cbn [bind]. fold (parent_of edges_parent e). fold p.
    rewrite (aget_in 0) by lia. cbn [bind]. fold c.
    assert (Er : exists q,
      (if c =? 0
       then Ok (int64 (current_num_internal_nodes s + 1), nodes_with_arity s)
       else h <- aget chk (nodes_with_arity s) c ;;
            nwa0 <- aset chk (nodes_with_arity s) c (int32 (h - 1)) ;;
            Ok (current_num_internal_nodes s, nwa0)) = Ok (q, nwa)).
    { unfold nwa. destruct (Z.eqb_spec c 0) as [E0|N0]; [eauto|].
      rewrite (aget_in 0) by lia. cbn [bind].
      rewrite aset_in by lia. cbn [bind].
      rewrite int32_small; [eauto|].
      rewrite (Hh c) by lia.
      pose proof (count_arity_pos (num_children s) p ltac:(lia)) as P. fold c in P.
      pose proof (count_arity_le (num_children s) c). lia. }
    destruct Er as (q & ->). cbn [bind snd fst].
    rewrite aset_in by lia. cbn [bind]. rewrite int32_small by lia. fold nc.
    rewrite (aget_in 0) by lia. cbn [bind].
    assert (Encp : zidx 0 nc p = c + 1)
      by (unfold nc; rewrite zidx_upd_same by lia; reflexivity).
    rewrite Encp.
    rewrite (aget_in 0) by lia. cbn [bind].
    rewrite aset_in by lia. cbn [bind].
    rewrite int32_small.
    - rewrite (aget_in 0 chk edges_child) by lia. cbn [bind].
      rewrite (aget_in 0%float chk nodes_time) by lia. cbn [bind].
      rewrite (aget_in 0%float chk nodes_time) by (rewrite Nlt; apply Nc; exact He).
      cbn [bind]. eexists (_, _, _). cbn [fst snd]. reflexivity.
    - rewrite (Hnwa (c + 1)) by lia.
      pose proof (Ecount (c + 1)) as E1. rewrite Z.eqb_refl in E1.
      pose proof (count_arity_le nc (c + 1)).
      pose proof (count_arity_le (num_children s) (c + 1)).
      unfold ind in *. destruct (Z.eqb_spec c (c + 1)); lia. }
  destruct Run as (r & Run). eexists. split; [exact Run|]. split.
  - constructor; cbn [num_children nodes_with_arity]; auto.
    + rewrite upd_length. exact Lnwa.
    + rewrite zidx_upd_other by lia. exact Hnwa0.
    + intros a Ha. rewrite Ecount.
      destruct (Z.eqb_spec (c + 1) a) as [E|Hne]; [subst a|].
      * rewrite zidx_upd_same by lia. rewrite (Hnwa (c + 1) Ha). unfold ind. lia.
      * rewrite zidx_upd_other by lia. rewrite (Hnwa a Ha). unfold ind. lia.
  - repeat split.
Qed.

End Steps.

(** ** Loops *)

Lemma for_count_inv {St : Type} (P : Z -> St -> Prop) (body : Z -> St -> result St) :
  forall (n : nat) (a : Z) (s : St),
    P a s ->
    (forall j s, a <= j < a + Z.of_nat n -> P j s ->
                 exists s', body j s = Ok s' /\ P (j + 1) s') ->
    exists s', for_count n a body s = Ok s' /\ P (a + Z.of_nat n) s'.
Proof.
  induction n as [|n IH]; intros a s HP Hstep.
  - exists s. split; [reflexivity|]. rewrite Z.add_0_r. exact HP.
  - destruct (Hstep a s ltac:(lia) HP) as (s1 & E1 & HP1).
    destruct (IH (a + 1) s1 HP1) as (s2 & E2 & HP2).
    { intros j s' Hj. apply Hstep. lia. }
    exists s2. split.
    + simpl. rewrite E1. exact E2.
    + replace (a + Z.of_nat (S n)) with (a + 1 + Z.of_nat n) by lia. exact HP2.
Qed.

Lemma for_range_inv {St : Type} (P : Z -> St -> Prop) (body : Z -> St -> result St)
    (a b : Z) (s : St) :
  a <= b -> P a s ->
  (forall j s, a <= j < b -> P j s -> exists s', body j s = Ok s' /\ P (j + 1) s') ->
  exists s', for_range a b body s = Ok s' /\ P b s'.
Proof.
  intros Hab HP Hstep. unfold for_range.
  destruct (for_count_inv P body (Z.to_nat (b - a)) a s HP) as (s' & E & HP').
  - intros j s0 Hj. apply Hstep. lia.
  - exists s'. split; [exact E|].
    replace (a + Z.of_nat (Z.to_nat (b - a))) with b in HP' by lia. exact HP'.
Qed.

(** ** Edges inserted, removed and present *)

Section Edges.

Variable tp : TreePosition.
Variable edges_parent : list Z.
Hypothesis WF : well_formed tp.

Lemma ins_NoDup : NoDup (edge_insertion_order tp).
Proof.
  apply (Permutation_NoDup (Permutation_sym (wf_ins_perm tp WF))).
  apply NoDup_zrange.
Qed.

Lemma rem_NoDup : NoDup (edge_removal_order tp).
Proof.
  apply (Permutation_NoDup (Permutation_sym (wf_rem_perm tp WF))).
  apply NoDup_zrange.
Qed.

Lemma perm_zrange_pos (l : list Z) (n e : Z) :
  Permutation l (zrange n) -> 0 <= n -> 0 <= e < n ->
  exists i, 0 <= i < n /\ zidx 0 l i = e.
Proof.
  intros HP Hn He.
  assert (Hin : In e l).
  { apply (Permutation_in _ (Permutation_sym HP)). apply in_zrange. exact He. }
  destruct (In_nth _ _ 0 Hin) as (k & Hk & Ek).
  pose proof (perm_zrange_length l n Hn HP).
  exists (Z.of_nat k). unfold zidx. rewrite Nat2Z.id. split; [lia | exact Ek].
Qed.

Lemma ins_pos (e : Z) :
  0 <= e < num_edges tp -> exists i, 0 <= i < num_edges tp /\ ins_at tp i = e.
Proof. apply perm_zrange_pos; apply WF. Qed.

Lemma rem_pos (e : Z) :
  0 <= e < num_edges tp -> exists i, 0 <= i < num_edges tp /\ rem_at tp i = e.
Proof. apply perm_zrange_pos; apply WF. Qed.

Lemma in_ins_prefix (j e : Z) :
  0 <= j <= num_edges tp ->
  (In e (firstn (Z.to_nat j) (edge_insertion_order tp)) <->
   exists i, 0 <= i < j /\ ins_at tp i = e).
Proof.
  intros Hj. rewrite (in_firstn_zidx 0). rewrite (wf_ins_length tp WF).
  split; intros (i & H); exists i; unfold ins_at in *; intuition lia.
Qed.

Lemma in_rem_prefix (k e : Z) :
  0 <= k <= num_edges tp ->
  (In e (firstn (Z.to_nat k) (edge_removal_order tp)) <->
   exists i, 0 <= i < k /\ rem_at tp i = e).
Proof.
  intros Hk. rewrite (in_firstn_zidx 0). rewrite (wf_rem_length tp WF).
  split; intros (i & H); exists i; unfold rem_at in *; intuition lia.
Qed.

(** Edges removed so far were inserted before. *)
Lemma removed_le_inserted (j k n : Z) :
  0 <= j <= num_edges tp -> 0 <= k <= num_edges tp ->
  (forall i, 0 <= i < k -> exists i', 0 <= i' < j /\ ins_at tp i' = rem_at tp i) ->
  count_parent edges_parent (edge_removal_order tp) k n
  <= count_parent edges_parent (edge_insertion_order tp) j n.
Proof.
  intros Hj Hk H. unfold count_parent. apply inj_le.
  apply filter_incl_length.
  - apply NoDup_firstn. apply rem_NoDup.
  - intros e He Hf. split; [|exact Hf].
    apply (in_rem_prefix k e Hk) in He. destruct He as (i & Hi & <-).
    apply (in_ins_prefix j _ Hj). apply H. exact Hi.
Qed.

(** Of the edges inserted so far, those not yet removed are in the tree. *)
Lemma inserted_le_present (x : Q) (j k n : Z) :
  0 <= j <= num_edges tp -> 0 <= k <= num_edges tp ->
  (forall i, 0 <= i < j -> (left_of tp (ins_at tp i) <= x)%Q) ->
  (forall i, k <= i < num_edges tp -> (x < right_of tp (rem_at tp i))%Q) ->
  count_parent edges_parent (edge_insertion_order tp) j n
  <= out_degree tp edges_parent x n
     + count_parent edges_parent (edge_removal_order tp) k n.
Proof.
  intros Hj Hk Hleft Hright. unfold count_parent, out_degree, children_edges.
  set (f := fun e => parent_of edges_parent e =? n).
  set (I := filter f (firstn (Z.to_nat j) (edge_insertion_order tp))).
  set (g := fun e => Qle_bool (right_of tp e) x).
  assert (NDI : NoDup I) by (apply NoDup_filter, NoDup_firstn, ins_NoDup).
  assert (HI : forall e, In e I ->
            0 <= e < num_edges tp /\ (left_of tp e <= x)%Q /\ f e = true).
  { intros e He. apply filter_In in He. destruct He as (He & Hf).
    apply (in_ins_prefix j e Hj) in He. destruct He as (i & Hi & <-).
    split; [apply wf_ins_entry; auto; lia|]. split; [apply Hleft; exact Hi | exact Hf]. }
  pose proof (filter_length g I) as Hsplit.
  assert (H1 : (length (filter g I)
                <= length (filter f (firstn (Z.to_nat k) (edge_removal_order tp))))%nat).
  { apply filter_incl_length; [exact NDI|].
    intros e He Hg. destruct (HI e He) as (Hr & _ & Hf). split; [|exact Hf].
    apply (in_rem_prefix k e Hk).
    destruct (rem_pos e Hr) as (i & Hi & Ei). exists i. split; [|exact Ei].
    destruct (Z_lt_le_dec i k) as [Hlt|Hge]; [lia|].
    exfalso. specialize (Hright i ltac:(lia)). rewrite Ei in Hright.
    unfold g in Hg. apply Qle_bool_iff in Hg. lra. }
  assert (H2 : (length (filter (fun e => negb (g e)) I)
                <= length (filter (fun e => covers tp x e && f e)
                             (zrange (num_edges tp))))%nat).
  { apply filter_incl_length; [exact NDI|].
    intros e He Hg. destruct (HI e He) as (Hr & Hl & Hf).
    split; [apply in_zrange; exact Hr|].
    rewrite Hf, andb_true_r. unfold covers.
    apply andb_true_iff. split; [apply Qle_bool_iff; exact Hl|].
    unfold Qlt_bool. exact Hg. }
  unfold f in *. lia.
Qed.

(** The edges in the tree and the edges removed so far were all inserted. *)
Lemma present_le_inserted (x : Q) (j k n : Z) :
  0 <= j <= num_edges tp -> 0 <= k <= num_edges tp ->
  (forall i, j <= i < num_edges tp -> (x < left_of tp (ins_at tp i))%Q) ->
  (forall i, 0 <= i < k -> (right_of tp (rem_at tp i) <= x)%Q) ->
  out_degree tp edges_parent x n
  + count_parent edges_parent (edge_removal_order tp) k n
  <= count_parent edges_parent (edge_insertion_order tp) j n.
Proof.
  intros Hj Hk Hleft Hright. unfold count_parent, out_degree, children_edges.
  set (f := fun e => parent_of edges_parent e =? n).
  set (A := filter (fun e => covers tp x e && f e) (zrange (num_edges tp))).
  set (R := filter f (firstn (Z.to_nat k) (edge_removal_order tp))).
  set (I := filter f (firstn (Z.to_nat j) (edge_insertion_order tp))).
  assert (Hins : forall e, 0 <= e < num_edges tp -> (left_of tp e <= x)%Q ->
                           In e (firstn (Z.to_nat j) (edge_insertion_order tp))).
  { intros e He Hl. apply (in_ins_prefix j e Hj).
    destruct (ins_pos e He) as (i & Hi & Ei). exists i. split; [|exact Ei].
    destruct (Z_lt_le_dec i j) as [Hlt|Hge]; [lia|].
    exfalso. specialize (Hleft i ltac:(lia)). rewrite Ei in Hleft. lra. }
  assert (HA : forall e, In e A ->
            0 <= e < num_edges tp /\ (left_of tp e <= x)%Q
            /\ (x < right_of tp e)%Q /\ f e = true).
  { intros e He. apply filter_In in He. destruct He as (He & Hc).
    apply in_zrange in He. apply andb_true_iff in Hc. destruct Hc as (Hc & Hf).
    unfold covers in Hc. apply andb_true_iff in Hc. destruct Hc as (Hc1 & Hc2).
    apply Qle_bool_iff in Hc1. apply Qlt_bool_iff in Hc2. auto. }
  assert (HR : forall e, In e R ->
            0 <= e < num_edges tp /\ (right_of tp e <= x)%Q /\ f e = true).
  { intros e He. apply filter_In in He. destruct He as (He & Hf).
    apply (in_rem_prefix k e Hk) in He. destruct He as (i & Hi & <-).
    split; [apply wf_rem_entry; auto; lia|]. split; [apply Hright; exact Hi | exact Hf]. }
  assert (ND : NoDup (A ++ R)).
  { apply NoDup_app.
    - apply NoDup_filter, NoDup_zrange.
    - apply NoDup_filter, NoDup_firstn, rem_NoDup.
    - intros e HeA HeR. destruct (HA e HeA) as (_ & _ & H1 & _).
      destruct (HR e HeR) as (_ & H2 & _). lra. }
  assert (Hincl : incl (A ++ R) I).
  { intros e He. apply in_app_or in He. apply filter_In. destruct He as [He|He].
    - destruct (HA e He) as (Hr & Hl & _ & Hf). split; [apply Hins; auto | exact Hf].
    - destruct (HR e He) as (Hr & Hl & Hf). split; [|exact Hf].
      apply Hins; [exact Hr|].
      destruct (wf_span tp WF e Hr) as (_ & Hs & _). lra. }
  pose proof (NoDup_incl_length ND Hincl) as Hlen.
  rewrite length_app in Hlen. subst A R I. unfold f in *. cbv beta in *. lia.
Qed.

End Edges.

(** ** The body of the while loop *)

Lemma same_outputs_refl (s : stats) : same_outputs s s.
Proof. repeat split. Qed.

Lemma same_outputs_trans (a b c : stats) :
  same_outputs a b -> same_outputs b c -> same_outputs a c.
Proof.
  unfold same_outputs. intros (A1 & A2 & A3 & A4) (B1 & B2 & B3 & B4).
  repeat split; congruence.
Qed.

Lemma mid_inv_same_table (tp tp' : TreePosition) (edges_parent : list Z)
    (num_nodes j k : Z) (s : stats) :
  same_table tp tp' ->
  mid_inv tp edges_parent num_nodes j k s ->
  mid_inv tp' edges_parent num_nodes j k s.
Proof.
  intros (_ & _ & _ & _ & E5 & E6) [H1 H2 H3 H4 H5 H6].
  constructor; auto. rewrite E5, E6. exact H3.
Qed.

Lemma nodes_ok_same_table (tp tp' : TreePosition) (nodes_time : list float)
    (edges_parent edges_child : list Z) (num_nodes : Z) :
  same_table tp tp' ->
  nodes_ok tp nodes_time edges_parent edges_child num_nodes ->
  nodes_ok tp' nodes_time edges_parent edges_child num_nodes.
Proof.
  intros (E1 & _) [H1 H2 H3 H4 H5 H6].
  constructor; rewrite ?E1; auto.
Qed.

Lemma out_degree_same_table (tp tp' : TreePosition) (edges_parent : list Z)
    (x : Q) (n : Z) :
  same_table tp tp' ->
  out_degree tp' edges_parent x n = out_degree tp edges_parent x n.
Proof.
  intros (E1 & _ & E3 & E4 & _).
  unfold out_degree, children_edges, covers, left_of, right_of.
  rewrite E1, E3, E4. reflexivity.
Qed.

Lemma arity_bounded_same_table (tp tp' : TreePosition) (edges_parent : list Z)
    (num_nodes : Z) :
  same_table tp tp' ->
  arity_bounded tp edges_parent num_nodes ->
  arity_bounded tp' edges_parent num_nodes.
Proof.
  intros Htab H x n Hn. rewrite (out_degree_same_table tp tp' _ _ _ Htab).
  apply H. exact Hn.
Qed.

Section Body.

Variable chk : bool.
Variables (nodes_time : list float) (edges_parent edges_child : list Z).
Variable num_nodes : Z.
Variable tp : TreePosition.
Hypothesis WF : well_formed tp.
Hypothesis NO : nodes_ok tp nodes_time edges_parent edges_child num_nodes.
Hypothesis AB : arity_bounded tp edges_parent num_nodes.
Hypothesis AT : at_tree tp.
Hypothesis Hin : 0 <= fst (in_range tp) <= snd (in_range tp).
Hypothesis Hout : 0 <= fst (out_range tp) <= snd (out_range tp).
Hypothesis Hpending : forall i, fst (in_range tp) <= i < num_edges tp ->
  (fst (interval tp) <= left_of tp (ins_at tp i))%Q.

Lemma removed_were_inserted (k : Z) :
  k <= snd (out_range tp) ->
  forall i, 0 <= i < k ->
    exists i', 0 <= i' < fst (in_range tp) /\ ins_at tp i' = rem_at tp i.
Proof.
  intros Hk i Hi.
  pose proof (at_k tp AT) as Hk'.
  assert (He : 0 <= rem_at tp i < num_edges tp) by (apply wf_rem_entry; auto; lia).
  destruct (ins_pos tp WF _ He) as (i' & Hi' & Ei'). exists i'. split; [|exact Ei'].
  destruct (Z_lt_le_dec i' (fst (in_range tp))) as [Hlt|Hge]; [lia|].
  exfalso. specialize (Hpending i' ltac:(lia)). rewrite Ei' in Hpending.
  pose proof (at_rem_done tp AT i ltac:(lia)) as Hr.
  destruct (wf_span tp WF _ He) as (_ & Hs & _). lra.
Qed.

Lemma tree_body (s : stats) :
  mid_inv tp edges_parent num_nodes (fst (in_range tp)) (fst (out_range tp)) s ->
  exists s1 s2,
    for_range (fst (out_range tp)) (snd (out_range tp))
      (remove_edge chk nodes_time edges_parent edges_child tp) s = Ok s1
    /\ for_range (fst (in_range tp)) (snd (in_range tp))
         (insert_edge chk nodes_time edges_parent edges_child tp) s1 = Ok s2
    /\ mid_inv tp edges_parent num_nodes (snd (in_range tp)) (snd (out_range tp)) s2
    /\ same_outputs s s2
    /\ forall n, 0 <= n < num_nodes ->
         zidx 0 (num_children s2) n =
         out_degree tp edges_parent (fst (interval tp)) n.
Proof.
  intros MI.
  pose proof (well_formed_shaped tp WF) as SH.
  pose proof (at_j tp AT) as Hj. pose proof (at_k tp AT) as Hk.
  destruct (for_range_inv
              (fun k s' => mid_inv tp edges_parent num_nodes (fst (in_range tp)) k s'
                           /\ same_outputs s s')
              (remove_edge chk nodes_time edges_parent edges_child tp)
              (fst (out_range tp)) (snd (out_range tp)) s)
    as (s1 & E1 & MI1 & SO1).
  { lia. }
  { split; [exact MI | apply same_outputs_refl]. }
  { intros k s' Hk' (MI' & SO').
    destruct (remove_edge_step chk nodes_time edges_parent edges_child num_nodes tp
                SH NO (fst (in_range tp)) k s' MI') as (s'' & E & MI'' & SO'').
    - lia.
    - apply removed_le_inserted; auto; try lia.
      apply removed_were_inserted. lia.
    - exists s''. split; [exact E|]. split; [exact MI''|].
      apply (same_outputs_trans s s' s''); assumption. }
  destruct (for_range_inv
              (fun j s' => mid_inv tp edges_parent num_nodes j (snd (out_range tp)) s'
                           /\ same_outputs s s')
              (insert_edge chk nodes_time edges_parent edges_child tp)
              (fst (in_range tp)) (snd (in_range tp)) s1)
    as (s2 & E2 & MI2 & SO2).
  { lia. }
  { split; assumption. }
  { intros j s' Hj' (MI' & SO').
    destruct (insert_edge_step chk nodes_time edges_parent edges_child num_nodes tp
                SH NO j (snd (out_range tp)) s' MI') as (s'' & E & MI'' & SO'').
    - lia.
    - set (p := parent_of edges_parent (ins_at tp j)).
      assert (Hp : 0 <= p < num_nodes).
      { apply (no_parent _ _ _ _ _ NO). apply wf_ins_entry; auto. lia. }
      pose proof (inserted_le_present tp edges_parent WF (fst (interval tp))
                    (j + 1) (snd (out_range tp)) p ltac:(lia) ltac:(lia)) as Hle.
      pose proof (AB (fst (interval tp)) p Hp) as Hdeg.
      assert (count_parent edges_parent (edge_insertion_order tp) (j + 1) p
              <= out_degree tp edges_parent (fst (interval tp)) p
                 + count_parent edges_parent (edge_removal_order tp)
                     (snd (out_range tp)) p); [|lia].
      apply Hle.
      + intros i Hi. apply (at_ins_done tp AT). lia.
      + intros i Hi. apply (at_rem_todo tp AT). lia.
    - exists s''. split; [exact E|]. split; [exact MI''|].
      apply (same_outputs_trans s s' s''); assumption. }
  exists s1, s2.
  split; [exact E1|]. split; [exact E2|]. split; [exact MI2|]. split; [exact SO2|].
  intros n Hn. rewrite (mi_nc _ _ _ _ _ _ MI2 n Hn).
  pose proof (inserted_le_present tp edges_parent WF (fst (interval tp))
                (snd (in_range tp)) (snd (out_range tp)) n Hj Hk
                (at_ins_done tp AT) (at_rem_todo tp AT)).
  pose proof (present_le_inserted tp edges_parent WF (fst (interval tp))
                (snd (in_range tp)) (snd (out_range tp)) n Hj Hk
                (at_ins_todo tp AT) (at_rem_done tp AT)).
  lia.
Qed.

End Body.

(** ** The while loop *)

Lemma emit_run (chk : bool) (s : stats) :
  0 <= tree_index s < Z.of_nat (length (tbl s)) ->
  0 <= tree_index s < Z.of_nat (length (num_internal_nodes s)) ->
  0 <= tree_index s < Z.of_nat (length (max_arity s)) ->
  tree_index s + 1 < 2 ^ 63 ->
  exists s',
    emit chk s = Ok s'
    /\ num_children s' = num_children s
    /\ nodes_with_arity s' = nodes_with_arity s
    /\ tree_index s' = tree_index s + 1
    /\ length (tbl s') = length (tbl s)
    /\ length (num_internal_nodes s') = length (num_internal_nodes s)
    /\ length (max_arity s') = length (max_arity s).
Proof.
  intros H1 H2 H3 H4. unfold emit.
  rewrite !aset_in by assumption. cbn [bind].
  eexists. split; [reflexivity|]. cbn.
  rewrite !upd_length, int64_small by lia. repeat split.
Qed.

Lemma emit_keeps (chk : bool) (s s' : stats) :
  emit chk s = Ok s' ->
  num_children s' = num_children s /\ nodes_with_arity s' = nodes_with_arity s.
Proof.
  unfold emit. intros H.
  apply bind_ok in H. destruct H as (a & _ & H).
  apply bind_ok in H. destruct H as (b & _ & H).
  apply bind_ok in H. destruct H as (c & _ & H).
  injection H as <-. split; reflexivity.
Qed.

Section Loop.

Variable chk : bool.
Variables (nodes_time : list float) (edges_parent edges_child : list Z).
Variable num_nodes : Z.
Variable tp0 : TreePosition.
Hypothesis NO : nodes_ok tp0 nodes_time edges_parent edges_child num_nodes.
Hypothesis AB : arity_bounded tp0 edges_parent num_nodes.

Lemma tree_step_run (c : TreePosition * stats) :
  loop_inv edges_parent num_nodes tp0 c ->
  exists b tp',
    next chk (fst c) = Ok (b, tp')
    /\ next_post (fst c) b tp'
    /\ if b then
         exists s2,
           tree_inv edges_parent num_nodes tp0 tp' s2 /\ same_outputs (snd c) s2
           /\ tree_step chk nodes_time edges_parent edges_child c =
              (s3 <- emit chk s2 ;; Ok (true, (tp', s3)))
       else tree_step chk nodes_time edges_parent edges_child c = Ok (false, (tp', snd c)).
Proof.
  intros [WF Htab RD MI]. destruct c as (tp, s). simpl in *.
  destruct (next_ready chk tp WF RD) as (b & tp' & Enext & NP).
  exists b, tp'. split; [exact Enext|]. split; [exact NP|].
  unfold tree_step. cbn [fst snd]. rewrite Enext. cbn [bind fst snd].
  destruct b; [|reflexivity].
  pose proof (np_table _ _ _ NP) as Htab'.
  assert (WF' : well_formed tp') by (apply (same_table_wf tp); assumption).
  assert (Htab0 : same_table tp0 tp') by (apply (same_table_trans tp0 tp tp'); assumption).
  destruct (same_table_reads tp tp' Htab') as (El & _ & Ei & _).
  destruct (tree_body chk nodes_time edges_parent edges_child num_nodes tp' WF'
              (nodes_ok_same_table _ _ _ _ _ _ Htab0 NO)
              (arity_bounded_same_table _ _ _ _ Htab0 AB)
              (np_at _ _ _ NP)) with (s := s)
    as (s1 & s2 & E1 & E2 & MI2 & SO & Hex).
  - rewrite (np_in_start _ _ _ NP). pose proof (np_in_le _ _ _ NP) as H.
    rewrite (np_in_start _ _ _ NP) in H. pose proof (rd_j tp RD). lia.
  - rewrite (np_out_start _ _ _ NP). pose proof (np_out_le _ _ _ NP) as H.
    rewrite (np_out_start _ _ _ NP) in H. pose proof (rd_k tp RD). lia.
  - intros i Hi. rewrite (np_in_start _ _ _ NP) in Hi.
    assert (EM : num_edges tp' = num_edges tp) by apply Htab'.
    rewrite El, Ei, (np_left _ _ _ NP). apply (rd_ins_todo tp RD). lia.
  - rewrite (np_in_start _ _ _ NP), (np_out_start _ _ _ NP).
    apply (mid_inv_same_table tp tp'); assumption.
  - rewrite E1. cbn [bind]. rewrite E2. cbn [bind].
    exists s2. split; [|split; [exact SO | reflexivity]].
    split; [exact MI2|]. intros n Hn.
    rewrite <- (out_degree_same_table tp0 tp' _ _ _ Htab0). apply Hex. exact Hn.
Qed.

Lemma tree_step_inv (c c' : TreePosition * stats) :
  loop_inv edges_parent num_nodes tp0 c ->
  tree_step chk nodes_time edges_parent edges_child c = Ok (true, c') ->
  loop_inv edges_parent num_nodes tp0 c'
  /\ tree_inv edges_parent num_nodes tp0 (fst c') (snd c').
Proof.
  intros LI Hstep.
  destruct (tree_step_run c LI) as (b & tp' & Enext & NP & H).
  destruct b.
  - destruct H as (s2 & (MI2 & Hex) & SO & E). rewrite E in Hstep.
    apply bind_ok in Hstep. destruct Hstep as (s3 & Eemit & Hc).
    injection Hc as <-. cbn [fst snd].
    destruct (emit_keeps chk s2 s3 Eemit) as (Enc & Eh).
    assert (MI3 : mid_inv tp' edges_parent num_nodes
                    (snd (in_range tp')) (snd (out_range tp')) s3).
    { destruct MI2 as [H1 H2 H3 H4 H5 H6].
      constructor; rewrite ?Enc, ?Eh; assumption. }
    assert (WF' : well_formed tp')
      by (apply (same_table_wf (fst c)); [apply NP | apply LI]).
    split.
    + constructor; cbn [fst snd]; auto.
      * apply (same_table_trans tp0 (fst c) tp'); [apply LI | apply NP].
      * apply at_tree_ready; [exact WF' | apply NP | apply NP; reflexivity].
    + split; [exact MI3|]. intros n Hn. rewrite Enc. apply Hex. exact Hn.
  - rewrite H in Hstep. discriminate.
Qed.

Lemma emitted_inv (c0 c : TreePosition * stats) :
  loop_inv edges_parent num_nodes tp0 c0 ->
  emitted chk nodes_time edges_parent edges_child c0 c ->
  loop_inv edges_parent num_nodes tp0 c
  /\ tree_inv edges_parent num_nodes tp0 (fst c) (snd c).
Proof.
  intros LI0 E. induction E as [c Hstep | c c' E IH Hstep].
  - apply (tree_step_inv c0 c LI0 Hstep).
  - destruct IH as (LI & _). apply (tree_step_inv c c' LI Hstep).
Qed.

End Loop.

(** ** From the start of the loop *)

Lemma zidx_repeat {A : Type} (d : A) (n : nat) (i : Z) : zidx d (repeat d n) i = d.
Proof. unfold zidx. apply nth_repeat. Qed.

Lemma count_arity_repeat (n : nat) (a : Z) : a <> 0 -> count_arity (repeat 0 n) a = 0.
Proof.
  intros Ha. unfold count_arity.
  induction n as [|n IH]; cbn [repeat filter]; [reflexivity|].
  destruct (Z.eqb_spec 0 a); [lia | exact IH].
Qed.

Lemma stats_init_run (num_trees num_nodes : Z) :
  0 <= num_trees -> 0 <= num_nodes ->
  stats_init num_trees num_nodes =
    Ok {| tbl := repeat 0%float (Z.to_nat num_trees);
          num_internal_nodes := repeat 0%float (Z.to_nat num_trees);
          max_arity := repeat 0 (Z.to_nat num_trees);
          num_children := repeat 0 (Z.to_nat num_nodes);
          nodes_with_arity := repeat 0 (Z.to_nat num_nodes);
          current_tbl := 0%float;
          tree_index := 0;
          current_num_internal_nodes := 0;
          current_max_arity := 0 |}.
Proof.
  intros H1 H2. unfold stats_init, zeros.
  destruct (Z.ltb_spec num_trees 0); [lia|].
  destruct (Z.ltb_spec num_nodes 0); [lia|]. reflexivity.
Qed.

Lemma stats_init_ok (num_trees num_nodes : Z) (s0 : stats) :
  stats_init num_trees num_nodes = Ok s0 ->
  0 <= num_trees /\ 0 <= num_nodes
  /\ s0 = {| tbl := repeat 0%float (Z.to_nat num_trees);
             num_internal_nodes := repeat 0%float (Z.to_nat num_trees);
             max_arity := repeat 0 (Z.to_nat num_trees);
             num_children := repeat 0 (Z.to_nat num_nodes);
             nodes_with_arity := repeat 0 (Z.to_nat num_nodes);
             current_tbl := 0%float;
             tree_index := 0;
             current_num_internal_nodes := 0;
             current_max_arity := 0 |}.
Proof.
  intros H.
  destruct (Z_lt_le_dec num_trees 0) as [Ht|Ht].
  { unfold stats_init, zeros in H. destruct (Z.ltb_spec num_trees 0); [discriminate|lia]. }
  destruct (Z_lt_le_dec num_nodes 0) as [Hn|Hn].
  { unfold stats_init, zeros in H. destruct (Z.ltb_spec num_trees 0); [lia|].
    destruct (Z.ltb_spec num_nodes 0); [discriminate|lia]. }
  rewrite stats_init_run in H by assumption. injection H as <-. auto.
Qed.

Lemma loop_inv_init (edges_parent : list Z) (num_trees num_nodes : Z)
    (tp0 : TreePosition) (s0 : stats) :
  well_formed tp0 -> initial tp0 ->
  stats_init num_trees num_nodes = Ok s0 ->
  loop_inv edges_parent num_nodes tp0 (tp0, s0).
Proof.
  intros WF Hinit Hs0.
  destruct (stats_init_ok _ _ _ Hs0) as (Ht & Hn & ->).
  constructor; cbn [fst snd].
  - exact WF.
  - apply same_table_refl.
  - apply initial_ready; assumption.
  - destruct Hinit as (_ & -> & ->). cbn [snd].
    constructor; cbn [num_children nodes_with_arity].
    + rewrite repeat_length. lia.
    + rewrite repeat_length. lia.
    + intros n _. rewrite zidx_repeat, !count_parent_zero. reflexivity.
    + intros n Hn'. rewrite zidx_repeat. lia.
    + apply zidx_repeat.
    + intros a Ha. rewrite zidx_repeat, count_arity_repeat by lia. reflexivity.
Qed.

Lemma filter_map_length {A B : Type} (p : B -> bool) (f : A -> B) (l : list A) :
  length (filter p (map f l)) = length (filter (fun x => p (f x)) l).
Proof.
  induction l as [|x l IH]; simpl; [reflexivity|].
  destruct (p (f x)); simpl; rewrite IH; reflexivity.
Qed.

Lemma list_is_map (l : list Z) (f : Z -> Z) (n : Z) :
  Z.of_nat (length l) = n ->
  (forall i, 0 <= i < n -> zidx 0 l i = f i) ->
  l = map f (zrange n).
Proof.
  intros Hlen H. apply (nth_ext _ _ 0 (f 0)).
  - rewrite length_map. pose proof (zrange_length n ltac:(lia)). lia.
  - intros k Hk. unfold zrange. rewrite map_map.
    replace (f 0) with (f (Z.of_nat 0%nat)) by reflexivity.
    rewrite (map_nth (fun x => f (Z.of_nat x)) (seq 0 (Z.to_nat n)) 0%nat k).
    rewrite seq_nth by lia. simpl.
    specialize (H (Z.of_nat k) ltac:(lia)). unfold zidx in H.
    rewrite Nat2Z.id in H. exact H.
Qed.

Lemma count_arity_nodes (tp0 : TreePosition) (edges_parent : list Z) (num_nodes : Z)
    (x : Q) (nc : list Z) (a : Z) :
  Z.of_nat (length nc) = num_nodes ->
  (forall n, 0 <= n < num_nodes -> zidx 0 nc n = out_degree tp0 edges_parent x n) ->
  count_arity nc a = nodes_of_arity tp0 edges_parent num_nodes x a.
Proof.
  intros Hlen H. unfold count_arity, nodes_of_arity.
  rewrite (list_is_map nc (out_degree tp0 edges_parent x) num_nodes Hlen H) at 1.
  rewrite filter_map_length. reflexivity.
Qed.

(** C3, as the code has it: at every stop of the loop the bucket of each
    arity from 1 on holds the number of nodes that have this many children in
    the tree the cursor stands at, and bucket 0 holds 0: nodes without
    children are not counted. *)
Theorem histogram_counts_arities (chk : bool) (nodes_time : list float)
    (edges_parent edges_child : list Z) (num_trees num_nodes : Z)
    (tp0 : TreePosition) (s0 : stats) (tp : TreePosition) (s : stats) :
  well_formed tp0 -> initial tp0 ->
  nodes_ok tp0 nodes_time edges_parent edges_child num_nodes ->
  arity_bounded tp0 edges_parent num_nodes ->
  stats_init num_trees num_nodes = Ok s0 ->
  emitted chk nodes_time edges_parent edges_child (tp0, s0) (tp, s) ->
  zidx 0 (nodes_with_arity s) 0 = 0
  /\ forall a, 1 <= a < num_nodes ->
       zidx 0 (nodes_with_arity s) a =
       nodes_of_arity tp0 edges_parent num_nodes (fst (interval tp)) a.
Proof.
  intros WF Hinit NO AB Hs0 E.
  pose proof (loop_inv_init edges_parent num_trees num_nodes tp0 s0 WF Hinit Hs0) as LI0.
  destruct (emitted_inv chk nodes_time edges_parent edges_child num_nodes tp0 NO AB
              (tp0, s0) (tp, s) LI0 E) as (_ & MI & Hex).
  cbn [fst snd] in *. split; [apply MI|].
  intros a Ha. rewrite (mi_hist _ _ _ _ _ _ MI a Ha).
  apply count_arity_nodes; [apply MI | exact Hex].
Qed.

(** ** The whole loop *)

Section Run.

Variable chk : bool.
Variables (nodes_time : list float) (edges_parent edges_child : list Z).
Variables (num_trees num_nodes : Z).
Variable tp0 : TreePosition.
Hypothesis NO : nodes_ok tp0 nodes_time edges_parent edges_child num_nodes.
Hypothesis AB : arity_bounded tp0 edges_parent num_nodes.
Hypothesis NT : num_trees < 2 ^ 63.

(** The loop goes through the cursors that [traverse] lists and stores one
    tree for each. *)
Lemma tree_loop_run (fuel : nat) :
  forall (c : TreePosition * stats) (ts : list TreePosition) (tf : TreePosition),
    loop_inv edges_parent num_nodes tp0 c ->
    traverse chk fuel (fst c) = Ok (ts, tf) ->
    outputs_sized num_trees (snd c) ->
    0 <= tree_index (snd c) ->
    tree_index (snd c) + Z.of_nat (length ts) <= num_trees ->
    exists s',
      tree_loop chk nodes_time edges_parent edges_child fuel c = Ok (tf, s')
      /\ tree_index s' = tree_index (snd c) + Z.of_nat (length ts)
      /\ outputs_sized num_trees s'.
Proof.
  induction fuel as [|fuel IH]; intros c ts tf LI Htr Hsz Hti Hroom.
  - discriminate.
  - destruct (tree_step_run chk nodes_time edges_parent edges_child num_nodes tp0
                NO AB c LI) as (b & tp' & Enext & NP & H).
    simpl in Htr. rewrite Enext in Htr. cbn [bind fst snd] in Htr.
    cbn [tree_loop].
    destruct b.
    + apply bind_ok in Htr. destruct Htr as ((ts', tf') & Htr' & Hres).
      cbn [fst snd] in Hres. injection Hres as <- <-.
      destruct H as (s2 & TI & SO & Estep).
      destruct SO as (S1 & S2 & S3 & S4).
      destruct Hsz as (Z1 & Z2 & Z3).
      cbn [length] in Hroom.
      destruct (emit_run chk s2) as (s3 & Eemit & _ & _ & Eti & L1 & L2 & L3);
        try (rewrite ?S1, ?S2, ?S3, ?S4; lia).
      assert (Estep' : tree_step chk nodes_time edges_parent edges_child c
                       = Ok (true, (tp', s3))).
      { rewrite Estep, Eemit. reflexivity. }
      destruct (tree_step_inv chk nodes_time edges_parent edges_child num_nodes tp0
                  NO AB c (tp', s3) LI Estep') as (LI' & _).
      destruct (IH (tp', s3) ts' tf' LI' Htr') as (s' & Eloop & Eti' & Hsz').
      * unfold outputs_sized. cbn [snd]. rewrite L1, L2, L3, S1, S2, S3. auto.
      * cbn [snd]. lia.
      * cbn [snd]. lia.
      * exists s'. rewrite Estep'. cbn [bind fst snd].
        split; [exact Eloop|]. split; [|exact Hsz'].
        cbn [snd] in Eti'. cbn [length]. lia.
    + injection Htr as <- <-. rewrite H. cbn [bind fst snd].
      exists (snd c). split; [reflexivity|]. split; [simpl; lia | exact Hsz].
Qed.

End Run.

Lemma stats_init_sized (num_trees num_nodes : Z) (s0 : stats) :
  stats_init num_trees num_nodes = Ok s0 ->
  outputs_sized num_trees s0 /\ tree_index s0 = 0.
Proof.
  intros H. destruct (stats_init_ok _ _ _ H) as (Ht & Hn & ->).
  unfold outputs_sized. cbn. rewrite !repeat_length. split; [|reflexivity].
  repeat split; lia.
Qed.

(** C10, with the invariants it needs: on a well-formed table whose arities
    stay below [num_nodes] and with room for every tree in the output
    arrays, the loop runs to its end with every index inside its array
    ([chk = true]; a count that went below 0 after a decrement would be the
    next index into [nodes_with_arity] and fault), the code itself
    ([chk = false]) returns the same arrays, and at every stop of the loop
    each entry of [num_children] lies in [0, num_nodes). *)
Theorem accesses_in_bounds (nodes_time : list float)
    (edges_parent edges_child : list Z) (num_trees num_nodes : Z)
    (tp0 : TreePosition) (fuel : nat) :
  well_formed tp0 -> initial tp0 ->
  nodes_ok tp0 nodes_time edges_parent edges_child num_nodes ->
  arity_bounded tp0 edges_parent num_nodes ->
  (enough_fuel tp0 <= fuel)%nat ->
  exists ts tf,
    traverse true fuel tp0 = Ok (ts, tf)
    /\ (Z.of_nat (length ts) <= num_trees < 2 ^ 63 ->
        (exists r,
           _compute_per_tree_stats true nodes_time edges_parent edges_child
             fuel tp0 num_trees num_nodes = Ok r
           /\ _compute_per_tree_stats false nodes_time edges_parent edges_child
                fuel tp0 num_trees num_nodes = Ok r)
        /\ forall s0 tp s,
             stats_init num_trees num_nodes = Ok s0 ->
             emitted true nodes_time edges_parent edges_child (tp0, s0) (tp, s) ->
             forall n, 0 <= n < num_nodes ->
               0 <= zidx 0 (num_children s) n < num_nodes).
Proof.
  intros WF Hinit NO AB Hfuel.
  destruct (traverse_total true tp0 fuel WF Hinit Hfuel) as (ts & tf & Etr & _).
  exists ts, tf. split; [exact Etr|]. intros Hnt.
  pose proof (no_nodes _ _ _ _ _ NO) as Hnn.
  pose proof (stats_init_run num_trees num_nodes ltac:(lia) ltac:(lia)) as Einit.
  set (s0 := {| tbl := repeat 0%float (Z.to_nat num_trees);
                num_internal_nodes := repeat 0%float (Z.to_nat num_trees);
                max_arity := repeat 0 (Z.to_nat num_trees);
                num_children := repeat 0 (Z.to_nat num_nodes);
                nodes_with_arity := repeat 0 (Z.to_nat num_nodes);
                current_tbl := 0%float;
                tree_index := 0;
                current_num_internal_nodes := 0;
                current_max_arity := 0 |}) in *.
  pose proof (loop_inv_init edges_parent num_trees num_nodes tp0 s0 WF Hinit Einit) as LI0.
  destruct (stats_init_sized _ _ _ Einit) as (Hsz & Hti).
  split.
  - destruct (tree_loop_run true nodes_time edges_parent edges_child num_trees
                num_nodes tp0 NO AB ltac:(lia) fuel (tp0, s0) ts tf LI0 Etr Hsz)
      as (s' & Eloop & _); cbn [snd]; try lia.
    assert (Erun : _compute_per_tree_stats true nodes_time edges_parent
                     edges_child fuel tp0 num_trees num_nodes
                   = Ok (tbl s', num_internal_nodes s', max_arity s')).
    { unfold _compute_per_tree_stats. rewrite Einit. cbn [bind].
      rewrite Eloop. reflexivity. }
    eexists. split; [exact Erun|].
    apply (checked_run_is_run false). exact Erun.
  - intros s1 tp s Es1 E n Hn.
    rewrite Einit in Es1. injection Es1 as <-.
    destruct (emitted_inv true nodes_time edges_parent edges_child num_nodes tp0 NO AB
                (tp0, s0) (tp, s) LI0 E) as (_ & MI & _).
    apply (mi_bound _ _ _ _ _ _ MI n Hn).
Qed.

(** * Concrete tables *)

Ltac below3 i :=
  let H := fresh in
  assert (H : i = 0 \/ i = 1 \/ i = 2) by lia;
  destruct H as [H | [H | H]]; subst i.

Lemma three_edges_wf : well_formed three_edges.
Proof.
  constructor.
  - vm_compute. split; [discriminate | reflexivity].
  - reflexivity.
  - reflexivity.
  - reflexivity.
  - apply Permutation_refl.
  - apply Permutation_refl.
  - intros i i' H1 H2 H3. change (num_edges three_edges) with 3 in H3.
    below3 i; below3 i'; try lia; vm_compute; discriminate.
  - intros i i' H1 H2 H3. change (num_edges three_edges) with 3 in H3.
    below3 i; below3 i'; try lia; vm_compute; discriminate.
  - intros e He. change (num_edges three_edges) with 3 in He.
    below3 e; vm_compute; repeat split; discriminate.
Qed.

Lemma three_edges_initial : initial three_edges.
Proof. apply initial_init. Qed.

Lemma three_edges_nodes :
  nodes_ok three_edges three_edges_time three_edges_parent three_edges_child 4.
Proof.
  constructor; try reflexivity.
  - vm_compute. split; [discriminate | reflexivity].
  - intros e He. change (num_edges three_edges) with 3 in He.
    below3 e; vm_compute; split; discriminate || reflexivity.
  - intros e He. change (num_edges three_edges) with 3 in He.
    below3 e; vm_compute; split; discriminate || reflexivity.
Qed.

Lemma three_edges_arity : arity_bounded three_edges three_edges_parent 4.
Proof.
  intros x n _. unfold out_degree, children_edges.
  match goal with
  | |- Z.of_nat (length (filter ?f ?l)) < _ =>
      pose proof (filter_length_le f l) as H
  end.
  change (length (zrange (num_edges three_edges))) with 3%nat in H. lia.
Qed.

Lemma three_edges_stop1_emitted :
  emitted false three_edges_time three_edges_parent three_edges_child
    (three_edges, three_edges_start) three_edges_stop1.
Proof. apply emitted_first. vm_compute. reflexivity. Qed.

(** C1: the code compares the bucket with 1 where the claim has 0.  On the
    three-edge table the removal of the first edge empties the bucket of the
    running maximum 3 (it held 1) and leaves the maximum at 3; on the table
    with two nodes of arity 2 the removal of the first edge leaves one node
    in the bucket of the running maximum 2 (it held 2) and lowers the maximum
    to 1. *)
Theorem removal_compares_bucket_with_one :
  (exists s',
     remove_edge false three_edges_time three_edges_parent three_edges_child
       three_edges_cursor2 0 (snd three_edges_stop1) = Ok s'
     /\ zidx 0 (num_children (snd three_edges_stop1)) 0 = 3
     /\ current_max_arity (snd three_edges_stop1) = 3
     /\ zidx 0 (nodes_with_arity (snd three_edges_stop1)) 3 = 1
     /\ zidx 0 (nodes_with_arity s') 3 = 0
     /\ current_max_arity s' = 3)
  /\ (exists s',
        remove_edge false two_pairs_time two_pairs_parent two_pairs_child
          two_pairs_cursor2 0 (snd two_pairs_stop1) = Ok s'
        /\ zidx 0 (num_children (snd two_pairs_stop1)) 0 = 2
        /\ current_max_arity (snd two_pairs_stop1) = 2
        /\ zidx 0 (nodes_with_arity (snd two_pairs_stop1)) 2 = 2
        /\ zidx 0 (num_children s') 1 = 2
        /\ current_max_arity s' = 1).
Proof.
  split; eexists; (split; [vm_compute; reflexivity|]); vm_compute; repeat split.
Qed.

(** C2: on the three-edge table the trees start at 0, 1 and 2 and have
    maximal arity 3, 2 and 1 by direct scanning, but the loop stores 3, 3
    and 3. *)
Theorem max_arity_stale_after_removal :
  (exists ts tf,
     traverse false 10 three_edges = Ok (ts, tf)
     /\ map (fun t => fst (interval t)) ts = [0; 1; 2]%Q)
  /\ map (brute_max_arity three_edges three_edges_parent 4) [0; 1; 2]%Q = [3; 2; 1]
  /\ _compute_per_tree_stats false three_edges_time three_edges_parent
       three_edges_child 10 three_edges 3 4
     = Ok ([3; 2; 1]%float, [1; 1; 1]%float, [3; 3; 3]).
Proof.
  split; [eexists _, _; split; vm_compute; reflexivity|].
  split; vm_compute; reflexivity.
Qed.

(** C3 as stated fails at arity 0: at the first stop on the three-edge table
    three of the four nodes have no children and bucket 0 holds 0. *)
Lemma histogram_bucket_zero_counterexample :
  emitted false three_edges_time three_edges_parent three_edges_child
    (three_edges, three_edges_start) three_edges_stop1
  /\ 0 <= 0 < 4
  /\ zidx 0 (nodes_with_arity (snd three_edges_stop1)) 0 = 0
  /\ nodes_of_arity three_edges three_edges_parent 4
       (fst (interval (fst three_edges_stop1))) 0 = 3
  /\ zidx 0 (nodes_with_arity (snd three_edges_stop1)) 0
     <> nodes_of_arity three_edges three_edges_parent 4
          (fst (interval (fst three_edges_stop1))) 0.
Proof.
  split; [apply three_edges_stop1_emitted|].
  vm_compute. repeat split; discriminate.
Qed.

Lemma histogram_counts_arities_witness :
  zidx 0 (nodes_with_arity (snd three_edges_stop1)) 0 = 0
  /\ forall a, 1 <= a < 4 ->
       zidx 0 (nodes_with_arity (snd three_edges_stop1)) a =
       nodes_of_arity three_edges three_edges_parent 4
         (fst (interval (fst three_edges_stop1))) a.
Proof.
  apply (histogram_counts_arities false three_edges_time three_edges_parent
           three_edges_child 3 4 three_edges three_edges_start
           (fst three_edges_stop1) (snd three_edges_stop1)).
  - apply three_edges_wf.
  - apply three_edges_initial.
  - apply three_edges_nodes.
  - apply three_edges_arity.
  - vm_compute. reflexivity.
  - apply three_edges_stop1_emitted.
Defined.

Lemma next_false_iff_witness :
  exists b tp',
    next true three_edges = Ok (b, tp')
    /\ (b = false <->
        snd (in_range tp') = num_edges three_edges
        /\ (sequence_length three_edges <= snd (interval three_edges))%Q).
Proof.
  apply (next_false_iff true three_edges three_edges).
  - apply well_formed_shaped, three_edges_wf.
  - apply three_edges_initial.
  - apply reach_start.
Defined.

Lemma next_interval_witness :
  exists b tp',
    next true three_edges = Ok (b, tp')
    /\ fst (interval tp') = snd (interval three_edges)
    /\ (snd (interval tp')
        == least (sequence_length tp') (boundary_candidates tp'))%Q.
Proof.
  apply (next_interval true three_edges three_edges).
  - apply well_formed_shaped, three_edges_wf.
  - apply three_edges_initial.
  - apply reach_start.
Defined.

Lemma intervals_tile_witness :
  exists ts tf,
    traverse true 8 three_edges = Ok (ts, tf)
    /\ let ivs := map interval ts in
       ivs <> []
       /\ (fst (hd (0, 0)%Q ivs) == 0)%Q
       /\ (snd (last ivs (0, 0)%Q) == sequence_length three_edges)%Q
       /\ (forall i, (S i < length ivs)%nat ->
             (fst (nth (S i) ivs (0, 0)%Q) == snd (nth i ivs (0, 0)%Q))%Q)
       /\ (forall i, (i < length ivs)%nat ->
             (fst (nth i ivs (0, 0)%Q) < snd (nth i ivs (0, 0)%Q))%Q)
       /\ (forall i i', (i < i')%nat -> (i' < length ivs)%nat ->
             (snd (nth i ivs (0, 0)%Q) <= fst (nth i' ivs (0, 0)%Q))%Q).
Proof.
  apply (intervals_tile true three_edges 8).
  - apply three_edges_wf.
  - apply three_edges_initial.
  - vm_compute. lia.
Defined.

Lemma edge_coverage_witness :
  exists ts tf,
    traverse true 8 three_edges = Ok (ts, tf)
    /\ forall e, 0 <= e < num_edges three_edges ->
         count_occ Z.eq_dec (inserted_edges three_edges (ts ++ [tf])) e = 1%nat
         /\ count_occ Z.eq_dec (removed_edges three_edges (ts ++ [tf])) e = 1%nat.
Proof.
  apply (edge_coverage true three_edges 8).
  - apply three_edges_wf.
  - apply three_edges_initial.
  - vm_compute. lia.
Defined.

Lemma accesses_in_bounds_witness :
  exists ts tf,
    traverse true 8 three_edges = Ok (ts, tf)
    /\ (Z.of_nat (length ts) <= 3 < 2 ^ 63 ->
        (exists r,
           _compute_per_tree_stats true three_edges_time three_edges_parent
             three_edges_child 8 three_edges 3 4 = Ok r
           /\ _compute_per_tree_stats false three_edges_time three_edges_parent
                three_edges_child 8 three_edges 3 4 = Ok r)
        /\ forall s0 tp s,
             stats_init 3 4 = Ok s0 ->
             emitted true three_edges_time three_edges_parent three_edges_child
               (three_edges, s0) (tp, s) ->
             forall n, 0 <= n < 4 -> 0 <= zidx 0 (num_children s) n < 4).
Proof.
  apply (accesses_in_bounds three_edges_time three_edges_parent three_edges_child
           3 4 three_edges 8).
  - apply three_edges_wf.
  - apply three_edges_initial.
  - apply three_edges_nodes.
  - apply three_edges_arity.
  - vm_compute. lia.
Defined.

Ltac below2 i :=
  let H := fresh in
  assert (H : i = 0 \/ i = 1) by lia;
  destruct H as [H | H]; subst i.

(** C10 as stated fails: on the table with two parallel edges the orders are
    sorted permutations, the edges span (0, 1) inside the genome and every id
    is a node id, yet the second insertion indexes [nodes_with_arity], of
    length 2, at 2. *)
Lemma parallel_edges_counterexample :
  well_formed parallel_edges
  /\ nodes_ok parallel_edges parallel_edges_time parallel_edges_parent
       parallel_edges_child 2
  /\ _compute_per_tree_stats true parallel_edges_time parallel_edges_parent
       parallel_edges_child 8 parallel_edges 1 2 = Err IndexOutOfBounds
  /\ _compute_per_tree_stats false parallel_edges_time parallel_edges_parent
       parallel_edges_child 8 parallel_edges 1 2 = Err IndexOutOfBounds.
Proof.
  split; [|split; [|split; vm_compute; reflexivity]].
  - constructor.
    + vm_compute. split; [discriminate | reflexivity].
    + reflexivity.
    + reflexivity.
    + reflexivity.
    + apply Permutation_refl.
    + apply Permutation_refl.
    + intros i i' H1 H2 H3. change (num_edges parallel_edges) with 2 in H3.
      below2 i; below2 i'; try lia; vm_compute; discriminate.
    + intros i i' H1 H2 H3. change (num_edges parallel_edges) with 2 in H3.
      below2 i; below2 i'; try lia; vm_compute; discriminate.
    + intros e He. change (num_edges parallel_edges) with 2 in He.
      below2 e; vm_compute; repeat split; discriminate.
  - constructor; try reflexivity.
    + vm_compute. split; [discriminate | reflexivity].
    + intros e He. change (num_edges parallel_edges) with 2 in He.
      below2 e; vm_compute; split; discriminate || reflexivity.
    + intros e He. change (num_edges parallel_edges) with 2 in He.
      below2 e; vm_compute; split; discriminate || reflexivity.
Qed.

(** * Two tables run by hand *)

Lemma Qlt_bool_irrefl (x : Q) : Qlt_bool x x = false.
Proof. apply Qlt_bool_false. apply Qle_refl. Qed.

Lemma Qlt_bool_true (x y : Q) : (x < y)%Q -> Qlt_bool x y = true.
Proof. apply Qlt_bool_iff. Qed.

Lemma Qeq_bool_lt (x y : Q) : (x < y)%Q -> Qeq_bool y x = false.
Proof.
  intros H. destruct (Qeq_bool y x) eqn:E; [|reflexivity].
  apply Qeq_bool_iff in E. lra.
Qed.

Lemma next_empty_first (chk : bool) (L : Q) :
  (0 < L)%Q ->
  next chk (empty_table L) =
  Ok (true, set_ranges (empty_table L) (0%Q, L) (0, 0) (0, 0)).
Proof.
  intros HL. unfold next, scan. cbn -[Qlt_bool Qeq_bool pymin].
  rewrite (Qlt_bool_true _ _ HL). reflexivity.
Qed.

Lemma next_empty_second (chk : bool) (L : Q) :
  next chk (set_ranges (empty_table L) (0%Q, L) (0, 0) (0, 0)) =
  Ok (false, set_ranges (empty_table L) (L, L) (0, 0) (0, 0)).
Proof.
  unfold next, scan. cbn -[Qlt_bool Qeq_bool pymin].
  rewrite Qlt_bool_irrefl. reflexivity.
Qed.

Lemma emit_single (chk : bool) (a b : float) (m : Z) (nc h : list Z)
    (ct : float) (cn cm : Z) :
  emit chk {| tbl := [a]; num_internal_nodes := [b]; max_arity := [m];
              num_children := nc; nodes_with_arity := h;
              current_tbl := ct; tree_index := 0;
              current_num_internal_nodes := cn; current_max_arity := cm |} =
  Ok {| tbl := [ct]; num_internal_nodes := [float_of_int64 cn];
        max_arity := [int32 cm];
        num_children := nc; nodes_with_arity := h;
        current_tbl := ct; tree_index := 1;
        current_num_internal_nodes := cn; current_max_arity := cm |}.
Proof. reflexivity. Qed.

Lemma for_range_empty {St : Type} (a : Z) (body : Z -> St -> result St) (s : St) :
  for_range a a body s = Ok s.
Proof. unfold for_range. rewrite Z.sub_diag. reflexivity. Qed.

(** C9: on a table without edges and with [sequence_length] L > 0 the run is
    not a fault: the loop stores one tree ([tree_index] ends at 1) and the
    three arrays returned for [num_trees = 1] hold 0. *)
Theorem empty_table_one_tree (chk : bool) (L : Q) (nodes_time : list float)
    (num_nodes : Z) (fuel : nat) :
  (0 < L)%Q -> 0 <= num_nodes -> (2 <= fuel)%nat ->
  (exists s0 tf s,
     stats_init 1 num_nodes = Ok s0
     /\ tree_loop chk nodes_time [] [] fuel (empty_table L, s0) = Ok (tf, s)
     /\ tree_index s = 1)
  /\ _compute_per_tree_stats chk nodes_time [] [] fuel (empty_table L) 1 num_nodes
     = Ok ([0%float], [0%float], [0]).
Proof.
  intros HL Hn Hfuel.
  destruct fuel as [|[|fuel]]; try lia.
  assert (Eloop : exists tf s,
    tree_loop chk nodes_time [] [] (S (S fuel))
      (empty_table L,
       {| tbl := repeat 0%float (Z.to_nat 1);
          num_internal_nodes := repeat 0%float (Z.to_nat 1);
          max_arity := repeat 0 (Z.to_nat 1);
          num_children := repeat 0 (Z.to_nat num_nodes);
          nodes_with_arity := repeat 0 (Z.to_nat num_nodes);
          current_tbl := 0%float;
          tree_index := 0;
          current_num_internal_nodes := 0;
          current_max_arity := 0 |}) = Ok (tf, s)
    /\ tree_index s = 1 /\ tbl s = [0%float]
    /\ num_internal_nodes s = [0%float] /\ max_arity s = [0]).
  { change (Z.to_nat 1) with 1%nat. cbn [repeat].
    cbn [tree_loop]. unfold tree_step at 1. cbn [fst snd].
    rewrite (next_empty_first chk L HL). cbn [bind fst snd].
    change (out_range (set_ranges (empty_table L) (0%Q, L) (0, 0) (0, 0)))
      with (0, 0).
    change (in_range (set_ranges (empty_table L) (0%Q, L) (0, 0) (0, 0)))
      with (0, 0).
    cbn [fst snd]. rewrite for_range_empty. cbn [bind].
    rewrite for_range_empty. cbn [bind].
    rewrite emit_single. cbn [bind fst snd].
    unfold tree_step. cbn [fst snd].
    rewrite (next_empty_second chk L). cbn [bind fst snd].
    eexists _, _. split; [reflexivity|]. cbn. repeat split. }
  destruct Eloop as (tf & s & Eloop & Eti & E1 & E2 & E3).
  split.
  - eexists _, tf, s. split; [apply stats_init_run; lia|]. split; assumption.
  - unfold _compute_per_tree_stats.
    rewrite stats_init_run by lia. cbn [bind]. rewrite Eloop. cbn [bind snd].
    rewrite E1, E2, E3. reflexivity.
Qed.

Lemma aget_head {A : Type} (chk : bool) (x : A) (l : list A) :
  aget chk (x :: l) 0 = Ok x.
Proof. reflexivity. Qed.

Lemma scan_loop_done (chk : bool) (fuel : nat) (M : Z) (coord : list Q)
    (order : list Z) (left : Q) (k : Z) :
  M <= k -> scan_loop chk fuel M coord order left k = Ok k.
Proof.
  intros H. destruct fuel; simpl; destruct (Z.ltb_spec k M); auto; lia.
Qed.

Lemma scan_loop_step (chk : bool) (fuel : nat) (M : Z) (coord : list Q)
    (order : list Z) (left : Q) (k e : Z) (x : Q) :
  k < M -> aget chk order k = Ok e -> aget chk coord e = Ok x ->
  scan_loop chk (S fuel) M coord order left k =
  if Qeq_bool x left
  then scan_loop chk fuel M coord order left (int64 (k + 1))
  else Ok k.
Proof.
  intros H E1 E2. simpl. destruct (Z.ltb_spec k M); [|lia].
  rewrite E1. cbn [bind]. rewrite E2. reflexivity.
Qed.

Lemma next_single_first (chk : bool) (L : Q) :
  (0 < L)%Q ->
  next chk (single_edge L) =
  Ok (true, set_ranges (single_edge L) (0%Q, L) (0, 1) (0, 0)).
Proof.
  intros HL. unfold next, scan.
  cbn [single_edge TreePosition_init interval in_range out_range num_edges
       edges_left edges_right edge_insertion_order edge_removal_order
       sequence_length fst snd].
  change (Z.to_nat (1 - 0)) with 1%nat.
  rewrite (scan_loop_step chk 0 1 [L] [0] 0 0 0 L) by (reflexivity || lia).
  rewrite (Qeq_bool_lt _ _ HL). cbn [bind].
  rewrite (scan_loop_step chk 0 1 [0%Q] [0] 0 0 0 0%Q) by (reflexivity || lia).
  rewrite Qeq_bool_refl. change (int64 (0 + 1)) with 1.
  rewrite scan_loop_done by lia. cbn [bind].
  change (1 <? 1) with false. change (0 <? 1) with true. cbn [bind orb].
  rewrite !aget_head. cbn [bind]. rewrite aget_head. cbn [bind].
  unfold pymin. rewrite Qlt_bool_irrefl, (Qlt_bool_true _ _ HL). reflexivity.
Qed.

Lemma next_single_second (chk : bool) (L : Q) :
  next chk (set_ranges (single_edge L) (0%Q, L) (0, 1) (0, 0)) =
  Ok (false, set_ranges (single_edge L) (L, L) (1, 1) (0, 1)).
Proof.
  unfold next, scan.
  cbn [set_ranges single_edge TreePosition_init interval in_range out_range
       num_edges edges_left edges_right edge_insertion_order edge_removal_order
       sequence_length fst snd].
  change (Z.to_nat (1 - 0)) with 1%nat. change (Z.to_nat (1 - 1)) with 0%nat.
  rewrite (scan_loop_step chk 0 1 [L] [0] L 0 0 L) by (reflexivity || lia).
  rewrite Qeq_bool_refl. change (int64 (0 + 1)) with 1.
  rewrite !scan_loop_done by lia. cbn [bind].
  change (1 <? 1) with false. cbn [bind orb].
  rewrite Qlt_bool_irrefl. reflexivity.
Qed.

Lemma insert_single (chk : bool) (nodes_time : list float) (p c num_nodes : Z)
    (tp : TreePosition) (a b : float) (m : Z) :
  edge_insertion_order tp = [0] ->
  0 <= p < num_nodes -> 0 <= c < num_nodes ->
  aget chk nodes_time p = Ok 5%float ->
  aget chk nodes_time c = Ok 2%float ->
  insert_edge chk nodes_time [p] [c] tp 0
    {| tbl := [a]; num_internal_nodes := [b]; max_arity := [m];
       num_children := repeat 0 (Z.to_nat num_nodes);
       nodes_with_arity := repeat 0 (Z.to_nat num_nodes);
       current_tbl := 0%float; tree_index := 0;
       current_num_internal_nodes := 0; current_max_arity := 0 |} =
  Ok {| tbl := [a]; num_internal_nodes := [b]; max_arity := [m];
        num_children := upd (repeat 0 (Z.to_nat num_nodes)) (Z.to_nat p) 1;
        nodes_with_arity := upd (repeat 0 (Z.to_nat num_nodes)) (Z.to_nat 1) 1;
        current_tbl := 3%float; tree_index := 0;
        current_num_internal_nodes := 1; current_max_arity := 1 |}.
Proof.
  intros Hins Hp Hc Htp Htc.
  assert (Hne : p <> c) by (intros ->; rewrite Htp in Htc; discriminate).
  assert (Hlen : Z.of_nat (length (repeat 0 (Z.to_nat num_nodes))) = num_nodes)
    by (rewrite repeat_length; lia).
  unfold insert_edge.
  cbn [num_children nodes_with_arity current_num_internal_nodes current_max_arity
       current_tbl tbl num_internal_nodes max_arity tree_index].
  rewrite Hins, aget_head. cbn [bind]. rewrite aget_head. cbn [bind].
  rewrite (aget_in 0 chk (repeat 0 (Z.to_nat num_nodes))) by lia.
  cbn [bind]. rewrite zidx_repeat.
  change (0 =? 0) with true. cbn [bind fst snd].
  rewrite aset_in by lia. cbn [bind]. change (int32 (0 + 1)) with 1.
  rewrite (aget_in 0) by (rewrite upd_length; lia). cbn [bind].
  rewrite zidx_upd_same by lia.
  rewrite (aget_in 0 chk (repeat 0 (Z.to_nat num_nodes))) by lia.
  cbn [bind]. rewrite zidx_repeat.
  rewrite aset_in by lia. cbn [bind]. change (int32 (0 + 1)) with 1.
  rewrite aget_head. cbn [bind]. rewrite Htp. cbn [bind]. rewrite Htc. cbn [bind].
  reflexivity.
Qed.

(** C8: on the table with the one edge (0, L, p, c), with time 5 at [p] and
    time 2 at [c], the loop stores one tree ([tree_index] ends at 1) and the
    arrays returned for [num_trees = 1] hold total branch length 3, one
    internal node and maximal arity 1. *)
Theorem single_edge_one_tree (chk : bool) (L : Q) (nodes_time : list float)
    (p c num_nodes : Z) (fuel : nat) :
  (0 < L)%Q ->
  0 <= p < num_nodes -> 0 <= c < num_nodes ->
  aget chk nodes_time p = Ok 5%float ->
  aget chk nodes_time c = Ok 2%float ->
  (2 <= fuel)%nat ->
  (exists s0 tf s,
     stats_init 1 num_nodes = Ok s0
     /\ tree_loop chk nodes_time [p] [c] fuel (single_edge L, s0) = Ok (tf, s)
     /\ tree_index s = 1)
  /\ _compute_per_tree_stats chk nodes_time [p] [c] fuel (single_edge L) 1 num_nodes
     = Ok ([3%float], [1%float], [1]).
Proof.
  intros HL Hp Hc Htp Htc Hfuel.
  destruct fuel as [|[|fuel]]; try lia.
  assert (Eloop : exists tf s,
    tree_loop chk nodes_time [p] [c] (S (S fuel))
      (single_edge L,
       {| tbl := repeat 0%float (Z.to_nat 1);
          num_internal_nodes := repeat 0%float (Z.to_nat 1);
          max_arity := repeat 0 (Z.to_nat 1);
          num_children := repeat 0 (Z.to_nat num_nodes);
          nodes_with_arity := repeat 0 (Z.to_nat num_nodes);
          current_tbl := 0%float;
          tree_index := 0;
          current_num_internal_nodes := 0;
          current_max_arity := 0 |}) = Ok (tf, s)
    /\ tree_index s = 1 /\ tbl s = [3%float]
    /\ num_internal_nodes s = [1%float] /\ max_arity s = [1]).
  { change (Z.to_nat 1) with 1%nat. cbn [repeat].
    cbn [tree_loop]. unfold tree_step at 1. cbn [fst snd].
    rewrite (next_single_first chk L HL). cbn [bind fst snd].
    change (out_range (set_ranges (single_edge L) (0%Q, L) (0, 1) (0, 0)))
      with (0, 0).
    change (in_range (set_ranges (single_edge L) (0%Q, L) (0, 1) (0, 0)))
      with (0, 1).
    cbn [fst snd]. rewrite for_range_empty. cbn [bind].
    unfold for_range. change (Z.to_nat (1 - 0)) with 1%nat. cbn [for_count].
    rewrite (insert_single chk nodes_time p c num_nodes
               (set_ranges (single_edge L) (0%Q, L) (0, 1) (0, 0))
               _ _ _ eq_refl Hp Hc Htp Htc).
    cbn [bind]. rewrite emit_single. cbn [bind fst snd].
    unfold tree_step. cbn [fst snd].
    rewrite (next_single_second chk L). cbn [bind fst snd].
    eexists _, _. split; [reflexivity|]. cbn. repeat split. }
  destruct Eloop as (tf & s & Eloop & Eti & E1 & E2 & E3).
  split.
  - eexists _, tf, s. split; [apply stats_init_run; lia|]. split; assumption.
  - unfold _compute_per_tree_stats.
    rewrite stats_init_run by lia. cbn [bind]. rewrite Eloop. cbn [bind snd].
    rewrite E1, E2, E3. reflexivity.
Qed.

Lemma single_edge_one_tree_witness :
  (exists s0 tf s,
     stats_init 1 2 = Ok s0
     /\ tree_loop true [5; 2]%float [0] [1] 2 (single_edge 7, s0) = Ok (tf, s)
     /\ tree_index s = 1)
  /\ _compute_per_tree_stats true [5; 2]%float [0] [1] 2 (single_edge 7) 1 2
     = Ok ([3%float], [1%float], [1]).
Proof.
  apply (single_edge_one_tree true 7 [5; 2]%float 0 1 2 2);
    try reflexivity; try lia.
Defined.

Lemma empty_table_one_tree_witness :
  (exists s0 tf s,
     stats_init 1 2 = Ok s0
     /\ tree_loop true [5; 2]%float [] [] 2 (empty_table 7, s0) = Ok (tf, s)
     /\ tree_index s = 1)
  /\ _compute_per_tree_stats true [5; 2]%float [] [] 2 (empty_table 7) 1 2
     = Ok ([0%float], [0%float], [0]).
Proof.
  apply (empty_table_one_tree true 7 [5; 2]%float 2 2);
    try reflexivity; try lia.
Defined.

(** * Further properties of the cursor *)

Lemma in_slice_zidx {A : Type} (d : A) (l : list A) (a b : Z) (e : A) :
  0 <= a -> a <= b -> b <= Z.of_nat (length l) ->
  (In e (slice l a b) <-> exists i, a <= i < b /\ zidx d l i = e).
Proof.
  intros Ha Hab Hb. unfold slice, zidx. split.
  - intros H. destruct (In_nth _ _ d H) as (n & Hn & En).
    rewrite length_firstn, length_skipn in Hn.
    rewrite nth_firstn, nth_skipn in En.
    destruct (Nat.ltb_spec n (Z.to_nat (b - a))); [|lia].
    exists (a + Z.of_nat n). split; [lia|].
    replace (Z.to_nat (a + Z.of_nat n)) with (Z.to_nat a + n)%nat by lia. exact En.
  - intros (i & Hi & <-).
    replace (nth (Z.to_nat i) l d)
      with (nth (Z.to_nat (i - a)) (firstn (Z.to_nat (b - a)) (skipn (Z.to_nat a) l)) d).
    + apply nth_In. rewrite length_firstn, length_skipn. lia.
    + rewrite nth_firstn, nth_skipn.
      destruct (Nat.ltb_spec (Z.to_nat (i - a)) (Z.to_nat (b - a))); [|lia].
      f_equal. lia.
Qed.

(** X1: the two ranges [next] reports hold exactly the edges that start,
    and exactly the edges that end, at the left end of the tree it moves
    to. *)
Theorem ranges_hold_the_edges_at_the_breakpoint (chk : bool) (tp0 tp : TreePosition) :
  well_formed tp0 -> initial tp0 -> reachable chk tp0 tp ->
  exists b tp',
    next chk tp = Ok (b, tp')
    /\ forall e, 0 <= e < num_edges tp ->
         (In e (slice (edge_insertion_order tp)
                  (fst (in_range tp')) (snd (in_range tp')))
          <-> (left_of tp e == fst (interval tp'))%Q)
         /\ (In e (slice (edge_removal_order tp)
                     (fst (out_range tp')) (snd (out_range tp')))
             <-> (right_of tp e == fst (interval tp'))%Q).
Proof.
  intros WF0 Hinit R.
  destruct (reachable_ready chk tp0 tp WF0 Hinit R) as (WF & RD & _ & _).
  destruct (next_ready chk tp WF RD) as (b & tp' & Enext & NP).
  exists b, tp'. split; [exact Enext|]. intros e He.
  pose proof (np_at _ _ _ NP) as AT.
  destruct (same_table_reads tp tp' (np_table _ _ _ NP)) as (El & Er & Ei & Eo & _).
  assert (EM : num_edges tp' = num_edges tp) by apply NP.
  pose proof (at_j tp' AT) as Hj'. pose proof (at_k tp' AT) as Hk'.
  pose proof (np_in_le _ _ _ NP) as Hjle. pose proof (np_out_le _ _ _ NP) as Hkle.
  pose proof (np_in_start _ _ _ NP) as Ejs. pose proof (np_out_start _ _ _ NP) as Eks.
  pose proof (rd_j tp RD) as Hj. pose proof (rd_k tp RD) as Hk.
  rewrite (np_left _ _ _ NP). split.
  - rewrite (in_slice_zidx 0) by (rewrite ?(wf_ins_length tp WF); lia). split.
    + intros (i & Hi & <-). apply (np_in_eq _ _ _ NP). exact Hi.
    + intros Hx. destruct (ins_pos tp WF e He) as (i & Hi & Ei').
      exists i. split; [|exact Ei'].
      destruct (Z_lt_le_dec i (fst (in_range tp'))) as [Hlt|Hge1].
      { pose proof (rd_ins_done tp RD i ltac:(lia)) as H. rewrite Ei' in H. lra. }
      destruct (Z_lt_le_dec i (snd (in_range tp'))) as [Hlt|Hge2]; [lia|].
      pose proof (at_ins_todo tp' AT i ltac:(lia)) as H.
      rewrite El, Ei, Ei', (np_left _ _ _ NP) in H. lra.
  - rewrite (in_slice_zidx 0) by (rewrite ?(wf_rem_length tp WF); lia). split.
    + intros (i & Hi & <-). apply (np_out_eq _ _ _ NP). exact Hi.
    + intros Hx. destruct (rem_pos tp WF e He) as (i & Hi & Ei').
      exists i. split; [|exact Ei'].
      destruct (Z_lt_le_dec i (fst (out_range tp'))) as [Hlt|Hge1].
      { pose proof (rd_rem_done tp RD i ltac:(lia)) as H. rewrite Ei' in H. lra. }
      destruct (Z_lt_le_dec i (snd (out_range tp'))) as [Hlt|Hge2]; [lia|].
      pose proof (at_rem_todo tp' AT i ltac:(lia)) as H.
      rewrite Er, Eo, Ei', (np_left _ _ _ NP) in H. lra.
Qed.

Lemma ranges_hold_the_edges_at_the_breakpoint_witness :
  exists b tp',
    next true three_edges = Ok (b, tp')
    /\ forall e, 0 <= e < num_edges three_edges ->
         (In e (slice (edge_insertion_order three_edges)
                  (fst (in_range tp')) (snd (in_range tp')))
          <-> (left_of three_edges e == fst (interval tp'))%Q)
         /\ (In e (slice (edge_removal_order three_edges)
                     (fst (out_range tp')) (snd (out_range tp')))
             <-> (right_of three_edges e == fst (interval tp'))%Q).
Proof.
  apply (ranges_hold_the_edges_at_the_breakpoint true three_edges three_edges).
  - apply three_edges_wf.
  - apply three_edges_initial.
  - apply reach_start.
Defined.

Lemma reachable_from_tree (chk : bool) (tp1 tp : TreePosition) :
  well_formed tp1 -> at_tree tp1 -> ready tp1 ->
  reachable chk tp1 tp ->
  well_formed tp /\ at_tree tp /\ ready tp.
Proof.
  intros WF AT RD R. induction R as [|tp tp' R IH Enext]; [auto|].
  destruct IH as (WF' & AT' & RD').
  destruct (next_ready chk tp WF' RD') as (b & tp'' & Erun & NP).
  rewrite Erun in Enext. injection Enext as -> ->.
  assert (WF'' : well_formed tp')
    by (apply (same_table_wf tp); [apply NP | exact WF']).
  split; [exact WF''|]. split; [apply NP|].
  apply at_tree_ready; [exact WF'' | apply NP | apply NP; reflexivity].
Qed.

(** X2: after the first tree, [next] never answers true without reporting
    an edge: every later tree differs from the one before it. *)
Theorem later_trees_differ (chk : bool) (tp0 tp1 tp tp' : TreePosition) :
  well_formed tp0 -> initial tp0 ->
  next chk tp0 = Ok (true, tp1) ->
  reachable chk tp1 tp ->
  next chk tp = Ok (true, tp') ->
  fst (in_range tp') < snd (in_range tp')
  \/ fst (out_range tp') < snd (out_range tp').
Proof.
  intros WF0 Hinit E1 R E.
  pose proof (initial_ready tp0 WF0 Hinit) as RD0.
  destruct (next_ready chk tp0 WF0 RD0) as (b & tp1' & Erun & NP1).
  rewrite Erun in E1. injection E1 as -> ->.
  assert (WF1 : well_formed tp1)
    by (apply (same_table_wf tp0); [apply NP1 | exact WF0]).
  assert (RD1 : ready tp1)
    by (apply at_tree_ready; [exact WF1 | apply NP1 | apply NP1; reflexivity]).
  destruct (reachable_from_tree chk tp1 tp WF1 (np_at _ _ _ NP1) RD1 R)
    as (WF & AT & RD).
  destruct (next_ready chk tp WF RD) as (b & tp'' & Erun' & NP).
  rewrite Erun' in E. injection E as -> ->.
  pose proof (next_progress tp tp' AT NP) as Hp.
  rewrite (np_in_start _ _ _ NP), (np_out_start _ _ _ NP). lia.
Qed.

Lemma traverse_length (chk : bool) (fuel : nat) :
  forall (tp : TreePosition) (ts : list TreePosition) (tf : TreePosition),
    well_formed tp -> at_tree tp -> ready tp ->
    traverse chk fuel tp = Ok (ts, tf) ->
    Z.of_nat (length ts)
    <= 2 * num_edges tp - snd (in_range tp) - snd (out_range tp).
Proof.
  induction fuel as [|fuel IH]; intros tp ts tf WF AT RD Htr; [discriminate|].
  destruct (next_ready chk tp WF RD) as (b & tp' & Enext & NP).
  simpl in Htr. rewrite Enext in Htr. cbn [bind fst snd] in Htr.
  pose proof (at_j tp AT). pose proof (at_k tp AT).
  destruct b.
  - apply bind_ok in Htr. destruct Htr as ((ts', tf') & Htr' & Hres).
    cbn [fst snd] in Hres. injection Hres as <- <-.
    assert (WF' : well_formed tp')
      by (apply (same_table_wf tp); [apply NP | exact WF]).
    assert (EM : num_edges tp' = num_edges tp) by apply NP.
    pose proof (next_progress tp tp' AT NP) as Hp.
    specialize (IH tp' ts' tf' WF' (np_at _ _ _ NP)
                  (at_tree_ready tp' WF' (np_at _ _ _ NP)
                     (np_true _ _ _ NP eq_refl)) Htr').
    cbn [length]. lia.
  - injection Htr as <- <-. cbn [length]. lia.
Qed.

(** X3: a traversal of a well-formed table yields at least one tree and at
    most [2 * num_edges + 1]. *)
Theorem tree_count_bounds (chk : bool) (tp : TreePosition) (fuel : nat) :
  well_formed tp -> initial tp -> (enough_fuel tp <= fuel)%nat ->
  exists ts tf,
    traverse chk fuel tp = Ok (ts, tf)
    /\ 1 <= Z.of_nat (length ts) <= 2 * num_edges tp + 1.
Proof.
  intros WF Hinit Hfuel.
  destruct (traverse_total chk tp fuel WF Hinit Hfuel) as (ts & tf & Etr & RP).
  exists ts, tf. split; [exact Etr|]. split.
  - pose proof (rp_tiles tp ts tf RP) as HT.
    destruct Hinit as (Ei & _). rewrite Ei in HT. simpl in HT.
    pose proof (tiles_nonempty _ _ _ HT (wf_length tp WF)) as HN.
    destruct ts; [contradiction|]. cbn [length]. lia.
  - destruct fuel as [|fuel]; [discriminate|].
    pose proof (initial_ready tp WF Hinit) as RD.
    destruct (next_ready chk tp WF RD) as (b & tp' & Enext & NP).
    simpl in Etr. rewrite Enext in Etr. cbn [bind fst snd] in Etr.
    pose proof (wf_edges tp WF).
    destruct b.
    + apply bind_ok in Etr. destruct Etr as ((ts', tf') & Htr' & Hres).
      cbn [fst snd] in Hres. injection Hres as <- <-.
      assert (WF' : well_formed tp')
        by (apply (same_table_wf tp); [apply NP | exact WF]).
      assert (EM : num_edges tp' = num_edges tp) by apply NP.
      pose proof (traverse_length chk fuel tp' ts' tf' WF' (np_at _ _ _ NP)
                    (at_tree_ready tp' WF' (np_at _ _ _ NP)
                       (np_true _ _ _ NP eq_refl)) Htr') as Hlen.
      pose proof (at_j tp' (np_at _ _ _ NP)). pose proof (at_k tp' (np_at _ _ _ NP)).
      cbn [length]. lia.
    + injection Etr as <- <-. cbn [length]. lia.
Qed.

Lemma tree_count_bounds_witness :
  exists ts tf,
    traverse true 8 three_edges = Ok (ts, tf)
    /\ 1 <= Z.of_nat (length ts) <= 2 * num_edges three_edges + 1.
Proof.
  apply (tree_count_bounds true three_edges 8).
  - apply three_edges_wf.
  - apply three_edges_initial.
  - vm_compute. lia.
Defined.

(** * Further properties of the accumulator *)

(** X4: at every stop of the loop [num_children] holds, for each node, the
    number of its children in the tree the cursor stands at. *)
Theorem num_children_is_out_degree (chk : bool) (nodes_time : list float)
    (edges_parent edges_child : list Z) (num_trees num_nodes : Z)
    (tp0 : TreePosition) (s0 : stats) (tp : TreePosition) (s : stats) :
  well_formed tp0 -> initial tp0 ->
  nodes_ok tp0 nodes_time edges_parent edges_child num_nodes ->
  arity_bounded tp0 edges_parent num_nodes ->
  stats_init num_trees num_nodes = Ok s0 ->
  emitted chk nodes_time edges_parent edges_child (tp0, s0) (tp, s) ->
  Z.of_nat (length (num_children s)) = num_nodes
  /\ forall n, 0 <= n < num_nodes ->
       zidx 0 (num_children s) n =
       out_degree tp0 edges_parent (fst (interval tp)) n.
Proof.
  intros WF Hinit NO AB Hs0 E.
  pose proof (loop_inv_init edges_parent num_trees num_nodes tp0 s0 WF Hinit Hs0) as LI0.
  destruct (emitted_inv chk nodes_time edges_parent edges_child num_nodes tp0 NO AB
              (tp0, s0) (tp, s) LI0 E) as (_ & MI & Hex).
  cbn [fst snd] in *. split; [apply MI | exact Hex].
Qed.

Lemma num_children_is_out_degree_witness :
  Z.of_nat (length (num_children (snd three_edges_stop1))) = 4
  /\ forall n, 0 <= n < 4 ->
       zidx 0 (num_children (snd three_edges_stop1)) n =
       out_degree three_edges three_edges_parent
         (fst (interval (fst three_edges_stop1))) n.
Proof.
  apply (num_children_is_out_degree false three_edges_time three_edges_parent
           three_edges_child 3 4 three_edges three_edges_start
           (fst three_edges_stop1) (snd three_edges_stop1)).
  - apply three_edges_wf.
  - apply three_edges_initial.
  - apply three_edges_nodes.
  - apply three_edges_arity.
  - vm_compute. reflexivity.
  - apply three_edges_stop1_emitted.
Defined.

Lemma later_trees_differ_witness :
  fst (in_range three_edges_cursor2) < snd (in_range three_edges_cursor2)
  \/ fst (out_range three_edges_cursor2) < snd (out_range three_edges_cursor2).
Proof.
  apply (later_trees_differ false three_edges (fst three_edges_stop1)
           (fst three_edges_stop1) three_edges_cursor2).
  - apply three_edges_wf.
  - apply three_edges_initial.
  - vm_compute. reflexivity.
  - apply reach_start.
  - vm_compute. reflexivity.
Defined.

(** ** The count of internal nodes *)

Lemma for_count_post {St : Type} (P : Z -> St -> Prop) (body : Z -> St -> result St) :
  forall (n : nat) (a : Z) (s s' : St),
    for_count n a body s = Ok s' ->
    P a s ->
    (forall j s s', a <= j < a + Z.of_nat n -> P j s -> body j s = Ok s' ->
                    P (j + 1) s') ->
    P (a + Z.of_nat n) s'.
Proof.
  induction n as [|n IH]; intros a s s' Hrun HP Hstep.
  - simpl in Hrun. injection Hrun as <-. rewrite Z.add_0_r. exact HP.
  - simpl in Hrun. apply bind_ok in Hrun. destruct Hrun as (s1 & E1 & E2).
    replace (a + Z.of_nat (S n)) with (a + 1 + Z.of_nat n) by lia.
    apply (IH (a + 1) s1 s' E2).
    + apply (Hstep a s s1); [lia | exact HP | exact E1].
    + intros j t t' Hj. apply Hstep. lia.
Qed.

Lemma for_range_post {St : Type} (P : Z -> St -> Prop) (body : Z -> St -> result St)
    (a b : Z) (s s' : St) :
  a <= b ->
  for_range a b body s = Ok s' ->
  P a s ->
  (forall j s s', a <= j < b -> P j s -> body j s = Ok s' -> P (j + 1) s') ->
  P b s'.
Proof.
  intros Hab Hrun HP Hstep. unfold for_range in Hrun.
  pose proof (for_count_post P body (Z.to_nat (b - a)) a s s' Hrun HP) as H.
  replace (a + Z.of_nat (Z.to_nat (b - a))) with b in H by lia.
  apply H. intros j t t' Hj. apply Hstep. lia.
Qed.

Section InternalSteps.

Variable chk : bool.
Variables (nodes_time : list float) (edges_parent edges_child : list Z).
Variable num_nodes : Z.
Variable tp : TreePosition.
Hypothesis SH : shaped tp.
Hypothesis NO : nodes_ok tp nodes_time edges_parent edges_child num_nodes.

Lemma remove_edge_internal (j k : Z) (s s' : stats) :
  mid_inv tp edges_parent num_nodes j k s ->
  0 <= k < num_edges tp ->
  count_parent edges_parent (edge_removal_order tp) (k + 1)
    (parent_of edges_parent (rem_at tp k))
  <= count_parent edges_parent (edge_insertion_order tp) j
       (parent_of edges_parent (rem_at tp k)) ->
  internal_counted num_nodes s ->
  remove_edge chk nodes_time edges_parent edges_child tp k s = Ok s' ->
  internal_counted num_nodes s'.
Proof.
  intros MI Hk Hcount IC Hrun.
  destruct MI as [Lnc Lh Hnc Hb Hh0 Hh].
  destruct NO as [Nn Nlp Nlc Nlt Np Nc].
  pose proof (sh_len_rem tp SH) as Lrem.
  pose proof (sh_rem_entry tp SH k Hk) as He.
  set (e := rem_at tp k) in *.
  set (p := parent_of edges_parent e) in *.
  pose proof (Np e He) as Hp. fold p in Hp.
  set (c := zidx 0 (num_children s) p) in *.
  assert (Hc : 1 <= c < num_nodes).
  { pose proof (Hb p Hp) as B. pose proof (Hnc p Hp) as E. fold c in B, E.
    rewrite count_parent_succ in Hcount by lia.
    fold (rem_at tp k) in Hcount. fold e in Hcount. fold p in Hcount.
    rewrite Z.eqb_refl in Hcount. unfold ind in Hcount. lia. }
  pose proof (count_arity_le (num_children s) 0) as Hca.
  unfold internal_counted in *.
  unfold remove_edge in Hrun.
  rewrite (aget_in 0) in Hrun by lia. cbn [bind] in Hrun.
  fold (rem_at tp k) in Hrun. fold e in Hrun.
  rewrite (aget_in 0) in Hrun by lia. cbn [bind] in Hrun.
  fold (parent_of edges_parent e) in Hrun. fold p in Hrun.
  rewrite (aget_in 0) in Hrun by lia. cbn [bind] in Hrun. fold c in Hrun.
  apply bind_ok in Hrun. destruct Hrun as (h & _ & Hrun).
  apply bind_ok in Hrun. destruct Hrun as (nwa & _ & Hrun).
  apply bind_ok in Hrun. destruct Hrun as (d & _ & Hrun).
  rewrite aset_in in Hrun by lia. cbn [bind] in Hrun.
  rewrite int32_small in Hrun by lia.
  rewrite (aget_in 0) in Hrun by (rewrite upd_length; lia). cbn [bind] in Hrun.
  rewrite zidx_upd_same in Hrun by lia.
  apply bind_ok in Hrun. destruct Hrun as (r & Er & Hrun).
  apply bind_ok in Hrun. destruct Hrun as (c0 & _ & Hrun).
  apply bind_ok in Hrun. destruct Hrun as (t1 & _ & Hrun).
  apply bind_ok in Hrun. destruct Hrun as (t2 & _ & Hrun).
  injection Hrun as <-. cbn [current_num_internal_nodes num_children].
  rewrite count_arity_upd by lia. fold c.
  destruct (Z.eqb_spec c 0) as [E0|N0]; [lia|].
  destruct (Z.eqb_spec (c - 1) 0) as [E1|N1].
  - injection Er as <-. cbn [fst]. rewrite int64_small by lia. unfold ind. lia.
  - apply bind_ok in Er. destruct Er as (h1 & _ & Er).
    apply bind_ok in Er. destruct Er as (nwa' & _ & Er).
    injection Er as <-. cbn [fst]. unfold ind. lia.
Qed.

Lemma insert_edge_internal (j k : Z) (s s' : stats) :
  mid_inv tp edges_parent num_nodes j k s ->
  0 <= j < num_edges tp ->
  internal_counted num_nodes s ->
  insert_edge chk nodes_time edges_parent edges_child tp j s = Ok s' ->
  internal_counted num_nodes s'.
Proof.
  intros MI Hj IC Hrun.
  destruct MI as [Lnc Lh Hnc Hb Hh0 Hh].
  destruct NO as [Nn Nlp Nlc Nlt Np Nc].
  pose proof (sh_len_ins tp SH) as Lins.
  pose proof (sh_ins_entry tp SH j Hj) as He.
  set (e := ins_at tp j) in *.
  set (p := parent_of edges_parent e) in *.
  pose proof (Np e He) as Hp. fold p in Hp.
  set (c := zidx 0 (num_children s) p) in *.
  pose proof (Hb p Hp) as Hc. fold c in Hc.
  pose proof (count_arity_le (num_children s) 0) as Hca.
  unfold internal_counted in *.
  unfold insert_edge in Hrun.
  rewrite (aget_in 0) in Hrun by lia. cbn [bind] in Hrun.
  fold (ins_at tp j) in Hrun. fold e in Hrun.
  rewrite (aget_in 0) in Hrun by lia. cbn [bind] in Hrun.
  fold (parent_of edges_parent e) in Hrun. fold p in Hrun.
  rewrite (aget_in 0) in Hrun by lia. cbn [bind] in Hrun. fold c in Hrun.
  apply bind_ok in Hrun. destruct Hrun as (r & Er & Hrun).
  rewrite aset_in in Hrun by lia. cbn [bind] in Hrun.
  apply bind_ok in Hrun. destruct Hrun as (c1 & _ & Hrun).
  apply bind_ok in Hrun. destruct Hrun as (h & _ & Hrun).
  apply bind_ok in Hrun. destruct Hrun as (nwa & _ & Hrun).
  apply bind_ok in Hrun. destruct Hrun as (c0 & _ & Hrun).
  apply bind_ok in Hrun. destruct Hrun as (t1 & _ & Hrun).
  apply bind_ok in Hrun. destruct Hrun as (t2 & _ & Hrun).
  injection Hrun as <-. cbn [current_num_internal_nodes num_children].
  rewrite int32_small by lia.
  rewrite count_arity_upd by lia. fold c.
  destruct (Z.eqb_spec (c + 1) 0) as [E1|N1]; [lia|].
  destruct (Z.eqb_spec c 0) as [E0|N0].
  - injection Er as <-. cbn [fst]. rewrite int64_small by lia. unfold ind. lia.
  - apply bind_ok in Er. destruct Er as (h1 & _ & Er).
    apply bind_ok in Er. destruct Er as (nwa' & _ & Er).
    injection Er as <-. cbn [fst]. unfold ind. lia.
Qed.

End InternalSteps.

Section InternalBody.

Variable chk : bool.
Variables (nodes_time : list float) (edges_parent edges_child : list Z).
Variable num_nodes : Z.
Variable tp : TreePosition.
Hypothesis WF : well_formed tp.
Hypothesis NO : nodes_ok tp nodes_time edges_parent edges_child num_nodes.
Hypothesis AB : arity_bounded tp edges_parent num_nodes.
Hypothesis AT : at_tree tp.
Hypothesis Hin : 0 <= fst (in_range tp) <= snd (in_range tp).
Hypothesis Hout : 0 <= fst (out_range tp) <= snd (out_range tp).
Hypothesis Hpending : forall i, fst (in_range tp) <= i < num_edges tp ->
  (fst (interval tp) <= left_of tp (ins_at tp i))%Q.

Lemma tree_body_internal (s s1 s2 : stats) :
  mid_inv tp edges_parent num_nodes (fst (in_range tp)) (fst (out_range tp)) s ->
  internal_counted num_nodes s ->
  for_range (fst (out_range tp)) (snd (out_range tp))
    (remove_edge chk nodes_time edges_parent edges_child tp) s = Ok s1 ->
  for_range (fst (in_range tp)) (snd (in_range tp))
    (insert_edge chk nodes_time edges_parent edges_child tp) s1 = Ok s2 ->
  internal_counted num_nodes s2.
Proof.
  intros MI IC E1 E2.
  pose proof (well_formed_shaped tp WF) as SH.
  pose proof (at_j tp AT) as Hj. pose proof (at_k tp AT) as Hk.
  assert (P1 : mid_inv tp edges_parent num_nodes (fst (in_range tp))
                 (snd (out_range tp)) s1
               /\ internal_counted num_nodes s1).
  { apply (for_range_post
             (fun k s' => mid_inv tp edges_parent num_nodes (fst (in_range tp)) k s'
                          /\ internal_counted num_nodes s')
             _ _ _ _ _ (proj2 Hout) E1); [auto|].
    intros k t t' Hk' (MI' & IC') Hrun.
    assert (Hcount :
      count_parent edges_parent (edge_removal_order tp) (k + 1)
        (parent_of edges_parent (rem_at tp k))
      <= count_parent edges_parent (edge_insertion_order tp) (fst (in_range tp))
           (parent_of edges_parent (rem_at tp k))).
    { apply removed_le_inserted; auto; try lia.
      apply (removed_were_inserted tp WF AT Hpending). lia. }
    destruct (remove_edge_step chk nodes_time edges_parent edges_child num_nodes tp
                SH NO (fst (in_range tp)) k t MI' ltac:(lia) Hcount)
      as (t'' & E & MI'' & _).
    rewrite E in Hrun. injection Hrun as <-. split; [exact MI''|].
    apply (remove_edge_internal chk nodes_time edges_parent edges_child num_nodes tp
             SH NO (fst (in_range tp)) k t t'' MI' ltac:(lia) Hcount IC' E). }
  destruct P1 as (MI1 & IC1).
  apply (for_range_post
           (fun j s' => mid_inv tp edges_parent num_nodes j (snd (out_range tp)) s'
                        /\ internal_counted num_nodes s')
           _ _ _ _ _ (proj2 Hin) E2); [auto|].
  intros j t t' Hj' (MI' & IC') Hrun.
  assert (Hcount :
    count_parent edges_parent (edge_insertion_order tp) (j + 1)
      (parent_of edges_parent (ins_at tp j))
    - count_parent edges_parent (edge_removal_order tp) (snd (out_range tp))
        (parent_of edges_parent (ins_at tp j))
    < num_nodes).
  { set (p := parent_of edges_parent (ins_at tp j)).
    assert (Hp : 0 <= p < num_nodes).
    { apply (no_parent _ _ _ _ _ NO). apply wf_ins_entry; auto. lia. }
    pose proof (AB (fst (interval tp)) p Hp) as Hdeg.
    assert (count_parent edges_parent (edge_insertion_order tp) (j + 1) p
            <= out_degree tp edges_parent (fst (interval tp)) p
               + count_parent edges_parent (edge_removal_order tp)
                   (snd (out_range tp)) p); [|lia].
    apply (inserted_le_present tp edges_parent WF); try lia.
    - intros i Hi. apply (at_ins_done tp AT). lia.
    - intros i Hi. apply (at_rem_todo tp AT). lia. }
  destruct (insert_edge_step chk nodes_time edges_parent edges_child num_nodes tp
              SH NO j (snd (out_range tp)) t MI' ltac:(lia) Hcount)
    as (t'' & E & MI'' & _).
  rewrite E in Hrun. injection Hrun as <-. split; [exact MI''|].
  apply (insert_edge_internal chk nodes_time edges_parent edges_child num_nodes tp
           SH NO j (snd (out_range tp)) t t'' MI' ltac:(lia) IC' E).
Qed.

End InternalBody.

Lemma internal_nodes_complement (tp : TreePosition) (edges_parent : list Z)
    (num_nodes : Z) (x : Q) :
  0 <= num_nodes ->
  internal_nodes tp edges_parent num_nodes x =
  num_nodes - nodes_of_arity tp edges_parent num_nodes x 0.
Proof.
  intros Hn. unfold internal_nodes, nodes_of_arity.
  pose proof (filter_length (fun n => out_degree tp edges_parent x n =? 0)
                (zrange num_nodes)) as H.
  pose proof (zrange_length num_nodes Hn) as Hl.
  rewrite (filter_ext (fun n => 0 <? out_degree tp edges_parent x n)
             (fun n => negb (out_degree tp edges_parent x n =? 0))).
  - lia.
  - intros n. unfold out_degree.
    destruct (Z.ltb_spec 0 (Z.of_nat (length (children_edges tp edges_parent x n))));
      destruct (Z.eqb_spec (Z.of_nat (length (children_edges tp edges_parent x n))) 0);
      simpl; auto; lia.
Qed.

Lemma emit_stores (chk : bool) (s : stats) :
  0 <= tree_index s < Z.of_nat (length (tbl s)) ->
  0 <= tree_index s < Z.of_nat (length (num_internal_nodes s)) ->
  0 <= tree_index s < Z.of_nat (length (max_arity s)) ->
  tree_index s + 1 < 2 ^ 63 ->
  emit chk s =
    Ok {| tbl := upd (tbl s) (Z.to_nat (tree_index s)) (current_tbl s);
          num_internal_nodes :=
            upd (num_internal_nodes s) (Z.to_nat (tree_index s))
              (float_of_int64 (current_num_internal_nodes s));
          max_arity :=
            upd (max_arity s) (Z.to_nat (tree_index s)) (int32 (current_max_arity s));
          num_children := num_children s;
          nodes_with_arity := nodes_with_arity s;
          current_tbl := current_tbl s;
          tree_index := tree_index s + 1;
          current_num_internal_nodes := current_num_internal_nodes s;
          current_max_arity := current_max_arity s |}.
Proof.
  intros H1 H2 H3 H4. unfold emit.
  rewrite !aset_in by assumption. cbn [bind].
  rewrite int64_small by lia. reflexivity.
Qed.

Lemma count_arity_repeat_zero (n : nat) : count_arity (repeat 0 n) 0 = Z.of_nat n.
Proof.
  unfold count_arity. induction n as [|n IH]; cbn [repeat filter]; [reflexivity|].
  change (0 =? 0) with true. cbn [length]. lia.
Qed.

Section InternalLoop.

Variable chk : bool.
Variables (nodes_time : list float) (edges_parent edges_child : list Z).
Variables (num_trees num_nodes : Z).
Variable tp0 : TreePosition.
Hypothesis NO : nodes_ok tp0 nodes_time edges_parent edges_child num_nodes.
Hypothesis AB : arity_bounded tp0 edges_parent num_nodes.
Hypothesis NT : num_trees < 2 ^ 63.

Lemma tree_step_run_internal (c : TreePosition * stats) :
  loop_inv edges_parent num_nodes tp0 c ->
  internal_counted num_nodes (snd c) ->
  exists b tp',
    next chk (fst c) = Ok (b, tp')
    /\ if b then
         exists s2,
           tree_inv edges_parent num_nodes tp0 tp' s2
           /\ same_outputs (snd c) s2
           /\ internal_counted num_nodes s2
           /\ tree_step chk nodes_time edges_parent edges_child c =
              (s3 <- emit chk s2 ;; Ok (true, (tp', s3)))
       else tree_step chk nodes_time edges_parent edges_child c
            = Ok (false, (tp', snd c)).
Proof.
  intros [WF Htab RD MI] IC. destruct c as (tp, s). simpl in *.
  destruct (next_ready chk tp WF RD) as (b & tp' & Enext & NP).
  exists b, tp'. split; [exact Enext|].
  unfold tree_step. cbn [fst snd]. rewrite Enext. cbn [bind fst snd].
  destruct b; [|reflexivity].
  pose proof (np_table _ _ _ NP) as Htab'.
  assert (WF' : well_formed tp') by (apply (same_table_wf tp); assumption).
  assert (Htab0 : same_table tp0 tp') by (apply (same_table_trans tp0 tp tp'); assumption).
  destruct (same_table_reads tp tp' Htab') as (El & _ & Ei & _).
  pose proof (nodes_ok_same_table _ _ _ _ _ _ Htab0 NO) as NO'.
  pose proof (arity_bounded_same_table _ _ _ _ Htab0 AB) as AB'.
  assert (Hin : 0 <= fst (in_range tp') <= snd (in_range tp')).
  { rewrite (np_in_start _ _ _ NP). pose proof (np_in_le _ _ _ NP) as H.
    rewrite (np_in_start _ _ _ NP) in H. pose proof (rd_j tp RD). lia. }
  assert (Hout : 0 <= fst (out_range tp') <= snd (out_range tp')).
  { rewrite (np_out_start _ _ _ NP). pose proof (np_out_le _ _ _ NP) as H.
    rewrite (np_out_start _ _ _ NP) in H. pose proof (rd_k tp RD). lia. }
  assert (Hpending : forall i, fst (in_range tp') <= i < num_edges tp' ->
            (fst (interval tp') <= left_of tp' (ins_at tp' i))%Q).
  { intros i Hi. rewrite (np_in_start _ _ _ NP) in Hi.
    assert (EM : num_edges tp' = num_edges tp) by apply Htab'.
    rewrite El, Ei, (np_left _ _ _ NP). apply (rd_ins_todo tp RD). lia. }
  assert (MI' : mid_inv tp' edges_parent num_nodes
                  (fst (in_range tp')) (fst (out_range tp')) s).
  { rewrite (np_in_start _ _ _ NP), (np_out_start _ _ _ NP).
    apply (mid_inv_same_table tp tp'); assumption. }
  destruct (tree_body chk nodes_time edges_parent edges_child num_nodes tp' WF'
              NO' AB' (np_at _ _ _ NP) Hin Hout Hpending s MI')
    as (s1 & s2 & E1 & E2 & MI2 & SO & Hex).
  pose proof (tree_body_internal chk nodes_time edges_parent edges_child num_nodes
                tp' WF' NO' AB' (np_at _ _ _ NP) Hin Hout Hpending s s1 s2
                MI' IC E1 E2) as IC2.
  rewrite E1. cbn [bind]. rewrite E2. cbn [bind].
  exists s2. split; [|split; [exact SO | split; [exact IC2 | reflexivity]]].
  split; [exact MI2|]. intros n Hn.
  rewrite <- (out_degree_same_table tp0 tp' _ _ _ Htab0). apply Hex. exact Hn.
Qed.

(** The loop stores, tree after tree, the number of internal nodes of the
    tree and leaves the other slots alone. *)
Lemma tree_loop_internal (fuel : nat) :
  forall (c : TreePosition * stats) (ts : list TreePosition) (tf : TreePosition),
    loop_inv edges_parent num_nodes tp0 c ->
    internal_counted num_nodes (snd c) ->
    traverse chk fuel (fst c) = Ok (ts, tf) ->
    outputs_sized num_trees (snd c) ->
    0 <= tree_index (snd c) ->
    tree_index (snd c) + Z.of_nat (length ts) <= num_trees ->
    exists s',
      tree_loop chk nodes_time edges_parent edges_child fuel c = Ok (tf, s')
      /\ Z.of_nat (length (num_internal_nodes s')) = num_trees
      /\ (forall t, 0 <= t ->
            t < tree_index (snd c)
            \/ tree_index (snd c) + Z.of_nat (length ts) <= t ->
            zidx 0%float (num_internal_nodes s') t
            = zidx 0%float (num_internal_nodes (snd c)) t)
      /\ (forall i, (i < length ts)%nat ->
            zidx 0%float (num_internal_nodes s') (tree_index (snd c) + Z.of_nat i)
            = float_of_int64
                (internal_nodes tp0 edges_parent num_nodes
                   (fst (interval (nth i ts tp0))))).
Proof.
  induction fuel as [|fuel IH]; intros c ts tf LI IC Htr Hsz Hti Hroom.
  - discriminate.
  - destruct (tree_step_run_internal c LI IC) as (b & tp' & Enext & H).
    simpl in Htr. rewrite Enext in Htr. cbn [bind fst snd] in Htr.
    cbn [tree_loop].
    destruct b.
    + apply bind_ok in Htr. destruct Htr as ((ts', tf') & Htr' & Hres).
      cbn [fst snd] in Hres. injection Hres as <- <-.
      destruct H as (s2 & TI & SO & IC2 & Estep).
      destruct SO as (S1 & S2 & S3 & S4).
      destruct Hsz as (Z1 & Z2 & Z3).
      cbn [length] in Hroom.
      pose proof (emit_stores chk s2) as Eemit.
      rewrite S1, S2, S3, S4 in Eemit.
      specialize (Eemit ltac:(lia) ltac:(lia) ltac:(lia) ltac:(lia)).
      rewrite Eemit in Estep. cbn [bind] in Estep.
      match type of Estep with _ = Ok (true, (_, ?s)) => set (s3 := s) in * end.
      destruct (tree_step_inv chk nodes_time edges_parent edges_child num_nodes tp0
                  NO AB c (tp', s3) LI Estep) as (LI' & _).
      destruct (IH (tp', s3) ts' tf' LI') as (s' & Eloop & Hlen & Hkeep & Hnew).
      * exact IC2.
      * exact Htr'.
      * unfold outputs_sized, s3. cbn [snd tbl num_internal_nodes max_arity].
        rewrite !upd_length. auto.
      * unfold s3. cbn [snd tree_index]. lia.
      * unfold s3. cbn [snd tree_index]. lia.
      * exists s'. rewrite Estep. cbn [bind fst snd].
        split; [exact Eloop|]. split; [exact Hlen|].
        assert (Ev : current_num_internal_nodes s2
                     = internal_nodes tp0 edges_parent num_nodes (fst (interval tp'))).
        { destruct TI as (MI2 & Hex). unfold internal_counted in IC2. rewrite IC2.
          rewrite internal_nodes_complement by (apply (no_nodes _ _ _ _ _ NO)).
          f_equal. apply count_arity_nodes; [apply MI2 | exact Hex]. }
        unfold s3 in Hkeep, Hnew. cbn [snd tree_index num_internal_nodes] in Hkeep, Hnew.
        split.
        -- intros t Ht0 Ht. rewrite Hkeep by (cbn [length] in Ht; lia).
           rewrite zidx_upd_other by (cbn [length] in Ht; lia). reflexivity.
        -- intros i Hi. destruct i as [|i].
           ++ rewrite Z.add_0_r. rewrite Hkeep by lia.
              rewrite zidx_upd_same by lia. cbn [nth]. rewrite Ev. reflexivity.
           ++ cbn [nth length] in *.
              replace (tree_index (snd c) + Z.of_nat (S i))
                with (tree_index (snd c) + 1 + Z.of_nat i) by lia.
              apply Hnew. lia.
    + injection Htr as <- <-. rewrite H. cbn [bind fst snd].
      exists (snd c). split; [reflexivity|]. split; [apply Hsz|].
      split; [reflexivity|]. intros i Hi. cbn [length] in Hi. lia.
Qed.

End InternalLoop.

(** X5: on a well-formed table whose arities stay below [num_nodes], the
    second array returned holds for every tree, in order, the number of nodes
    that have a child in it, and 0 in the slots beyond the last tree. *)
Theorem internal_nodes_are_counted (chk : bool) (nodes_time : list float)
    (edges_parent edges_child : list Z) (num_trees num_nodes : Z)
    (tp0 : TreePosition) (fuel : nat) :
  well_formed tp0 -> initial tp0 ->
  nodes_ok tp0 nodes_time edges_parent edges_child num_nodes ->
  arity_bounded tp0 edges_parent num_nodes ->
  (enough_fuel tp0 <= fuel)%nat ->
  exists ts tf,
    traverse chk fuel tp0 = Ok (ts, tf)
    /\ (Z.of_nat (length ts) <= num_trees < 2 ^ 63 ->
        exists total internal arity,
          _compute_per_tree_stats chk nodes_time edges_parent edges_child
            fuel tp0 num_trees num_nodes = Ok (total, internal, arity)
          /\ Z.of_nat (length internal) = num_trees
          /\ (forall i, (i < length ts)%nat ->
                nth i internal 0%float =
                float_of_int64
                  (internal_nodes tp0 edges_parent num_nodes
                     (fst (interval (nth i ts tp0)))))
          /\ (forall i, (length ts <= i)%nat -> nth i internal 0%float = 0%float)).
Proof.
  intros WF Hinit NO AB Hfuel.
  destruct (traverse_total chk tp0 fuel WF Hinit Hfuel) as (ts & tf & Etr & _).
  exists ts, tf. split; [exact Etr|]. intros Hnt.
  pose proof (no_nodes _ _ _ _ _ NO) as Hnn.
  pose proof (stats_init_run num_trees num_nodes ltac:(lia) ltac:(lia)) as Einit.
  set (s0 := {| tbl := repeat 0%float (Z.to_nat num_trees);
                num_internal_nodes := repeat 0%float (Z.to_nat num_trees);
                max_arity := repeat 0 (Z.to_nat num_trees);
                num_children := repeat 0 (Z.to_nat num_nodes);
                nodes_with_arity := repeat 0 (Z.to_nat num_nodes);
                current_tbl := 0%float;
                tree_index := 0;
                current_num_internal_nodes := 0;
                current_max_arity := 0 |}) in *.
  pose proof (loop_inv_init edges_parent num_trees num_nodes tp0 s0 WF Hinit Einit) as LI0.
  destruct (stats_init_sized _ _ _ Einit) as (Hsz & Hti).
  assert (IC0 : internal_counted num_nodes s0).
  { unfold internal_counted, s0. cbn [current_num_internal_nodes num_children].
    rewrite count_arity_repeat_zero. lia. }
  destruct (tree_loop_internal chk nodes_time edges_parent edges_child num_trees
              num_nodes tp0 NO AB ltac:(lia) fuel (tp0, s0) ts tf LI0 IC0 Etr Hsz)
    as (s' & Eloop & Hlen & Hkeep & Hnew); cbn [snd]; try lia.
  cbn [snd] in Hkeep, Hnew. rewrite Hti in Hkeep, Hnew.
  exists (tbl s'), (num_internal_nodes s'), (max_arity s').
  split.
  { unfold _compute_per_tree_stats. rewrite Einit. cbn [bind].
    rewrite Eloop. reflexivity. }
  split; [exact Hlen|]. split.
  - intros i Hi. specialize (Hnew i Hi). unfold zidx in Hnew.
    rewrite Z.add_0_l, Nat2Z.id in Hnew. exact Hnew.
  - intros i Hi. specialize (Hkeep (Z.of_nat i) ltac:(lia) ltac:(lia)).
    unfold zidx in Hkeep. rewrite Nat2Z.id in Hkeep. rewrite Hkeep.
    unfold s0. cbn [num_internal_nodes]. apply nth_repeat.
Qed.

Lemma internal_nodes_are_counted_witness :
  exists ts tf,
    traverse false 8 three_edges = Ok (ts, tf)
    /\ (Z.of_nat (length ts) <= 3 < 2 ^ 63 ->
        exists total internal arity,
          _compute_per_tree_stats false three_edges_time three_edges_parent
            three_edges_child 8 three_edges 3 4 = Ok (total, internal, arity)
          /\ Z.of_nat (length internal) = 3
          /\ (forall i, (i < length ts)%nat ->
                nth i internal 0%float =
                float_of_int64
                  (internal_nodes three_edges three_edges_parent 4
                     (fst (interval (nth i ts three_edges)))))
          /\ (forall i, (length ts <= i)%nat -> nth i internal 0%float = 0%float)).
Proof.
  apply (internal_nodes_are_counted false three_edges_time three_edges_parent
           three_edges_child 3 4 three_edges 8).
  - apply three_edges_wf.
  - apply three_edges_initial.
  - apply three_edges_nodes.
  - apply three_edges_arity.
  - vm_compute. lia.
Defined.

(** * TreeInfo.child_bounds *)

Lemma child_bounds_step_run (chk : bool) (edges_left edges_right : list Q)
    (edges_child : list Z) (num_nodes k : Z) (st : list extended * list Q) :
  Z.of_nat (length edges_right) = Z.of_nat (length edges_left) ->
  Z.of_nat (length edges_child) = Z.of_nat (length edges_left) ->
  (forall e, 0 <= e < Z.of_nat (length edges_left) ->
             0 <= zidx 0 edges_child e < num_nodes) ->
  0 <= k < Z.of_nat (length edges_left) ->
  bounds_upto edges_left edges_right edges_child num_nodes k st ->
  exists st',
    child_bounds_step chk edges_left edges_right edges_child k st = Ok st'
    /\ bounds_upto edges_left edges_right edges_child num_nodes (k + 1) st'.
Proof.
  intros Lr Lc Hchild Hk (Ll & Lrr & Hinv).
  destruct st as (cl, cr). cbn [fst snd] in *.
  set (u := zidx 0 edges_child k).
  pose proof (Hchild k Hk) as Hu. fold u in Hu.
  set (l := zidx 0%Q edges_left k). set (r := zidx 0%Q edges_right k).
  set (cl' := if Qlt_extended l (zidx Inf cl u)
              then upd cl (Z.to_nat u) (Finite l) else cl).
  set (cr' := if Qlt_bool (zidx 0%Q cr u) r then upd cr (Z.to_nat u) r else cr).
  exists (cl', cr'). split.
  - unfold child_bounds_step. cbn [fst snd].
    rewrite (aget_in 0) by lia. cbn [bind]. fold u.
    rewrite (aget_in 0%Q chk edges_left) by lia. cbn [bind]. fold l.
    rewrite (aget_in Inf) by lia. cbn [bind].
    rewrite (aget_in 0%Q chk edges_right) by lia.
    rewrite (aget_in 0%Q chk cr) by lia. cbn [bind]. fold r.
    unfold cl', cr'.
    destruct (Qlt_extended l (zidx Inf cl u));
      destruct (Qlt_bool (zidx 0%Q cr u) r);
      rewrite ?aset_in by lia; reflexivity.
  - unfold bounds_upto. cbn [fst snd].
    split; [unfold cl'; destruct (Qlt_extended l (zidx Inf cl u));
            rewrite ?upd_length; exact Ll|].
    split; [unfold cr'; destruct (Qlt_bool (zidx 0%Q cr u) r);
            rewrite ?upd_length; exact Lrr|].
    intros v Hv. destruct (Hinv v Hv) as (HL & HR1 & HR2).
    destruct (Z.eq_dec u v) as [E|N]; [subst v|].
    + (* the child of edge k *)
      split; [|split].
      * unfold cl'. destruct (zidx Inf cl u) as [m|] eqn:Ecl; cbn [Qlt_extended].
        -- destruct (Qlt_bool l m) eqn:Elt.
           ++ rewrite zidx_upd_same by lia. apply Qlt_bool_iff in Elt.
              split; [exists k; repeat split; auto; lia|].
              intros e He Hue. destruct (Z.eq_dec e k) as [->|Ne]; [fold l; lra|].
              destruct HL as (_ & HL). specialize (HL e ltac:(lia) Hue). lra.
           ++ rewrite Ecl. apply Qlt_bool_false in Elt.
              destruct HL as ((e0 & He0 & Hu0 & Hm0) & HL).
              split; [exists e0; repeat split; auto; lia|].
              intros e He Hue. destruct (Z.eq_dec e k) as [->|Ne]; [fold l; lra|].
              apply HL; [lia | exact Hue].
        -- rewrite zidx_upd_same by lia.
           split; [exists k; repeat split; auto; lia|].
           intros e He Hue. destruct (Z.eq_dec e k) as [->|Ne]; [fold l; lra|].
           exfalso. apply (HL e); [lia | exact Hue].
      * intros e He Hue. unfold cr'.
        destruct (Qlt_bool (zidx 0%Q cr u) r) eqn:Elt.
        -- rewrite zidx_upd_same by lia. apply Qlt_bool_iff in Elt.
           destruct (Z.eq_dec e k) as [->|Ne]; [fold r; lra|].
           specialize (HR1 e ltac:(lia) Hue). lra.
        -- apply Qlt_bool_false in Elt.
           destruct (Z.eq_dec e k) as [->|Ne]; [fold r; lra|].
           apply HR1; [lia | exact Hue].
      * unfold cr'. destruct (Qlt_bool (zidx 0%Q cr u) r) eqn:Elt.
        -- rewrite zidx_upd_same by lia. right. exists k. repeat split; auto; lia.
        -- destruct HR2 as [H0|(e0 & He0 & Hu0 & Hr0)]; [left; exact H0|].
           right. exists e0. repeat split; auto; lia.
    + (* another node *)
      assert (Ecl : zidx Inf cl' v = zidx Inf cl v).
      { unfold cl'. destruct (Qlt_extended l (zidx Inf cl u)); [|reflexivity].
        apply zidx_upd_other; lia. }
      assert (Ecr : zidx 0%Q cr' v = zidx 0%Q cr v).
      { unfold cr'. destruct (Qlt_bool (zidx 0%Q cr u) r); [|reflexivity].
        apply zidx_upd_other; lia. }
      rewrite Ecl, Ecr. split; [|split].
      * destruct (zidx Inf cl v) as [m|].
        -- destruct HL as ((e0 & He0 & Hu0 & Hm0) & HL).
           split; [exists e0; repeat split; auto; lia|].
           intros e He Hue. destruct (Z.eq_dec e k) as [->|Ne]; [contradiction|].
           apply HL; [lia | exact Hue].
        -- intros e He. destruct (Z.eq_dec e k) as [->|Ne]; [exact N|].
           apply HL. lia.
      * intros e He Hue. destruct (Z.eq_dec e k) as [->|Ne]; [contradiction|].
        apply HR1; [lia | exact Hue].
      * destruct HR2 as [H0|(e0 & He0 & Hu0 & Hr0)]; [left; exact H0|].
        right. exists e0. repeat split; auto; lia.
Qed.

(** X6: [child_bounds] returns two arrays of [num_nodes] entries.  For a node
    that is the child of no edge they hold [np.inf] and 0.  For any other
    node the first holds the least left end of the edges above it, and the
    second bounds their right ends from above and is one of them or 0. *)
Theorem child_bounds_are_extremes (chk : bool) (num_nodes : Z)
    (edges_left edges_right : list Q) (edges_child : list Z) :
  0 <= num_nodes ->
  Z.of_nat (length edges_right) = Z.of_nat (length edges_left) ->
  Z.of_nat (length edges_child) = Z.of_nat (length edges_left) ->
  (forall e, 0 <= e < Z.of_nat (length edges_left) ->
             0 <= zidx 0 edges_child e < num_nodes) ->
  exists child_left child_right,
    child_bounds chk num_nodes edges_left edges_right edges_child
    = Ok (child_left, child_right)
    /\ bounds_upto edges_left edges_right edges_child num_nodes
         (Z.of_nat (length edges_left)) (child_left, child_right).
Proof.
  intros Hn Lr Lc Hchild. unfold child_bounds, zeros.
  destruct (Z.ltb_spec num_nodes 0); [lia|]. cbn [bind].
  destruct (for_range_inv
              (bounds_upto edges_left edges_right edges_child num_nodes)
              (child_bounds_step chk edges_left edges_right edges_child)
              0 (Z.of_nat (length edges_left))
              (repeat Inf (Z.to_nat num_nodes), repeat 0%Q (Z.to_nat num_nodes)))
    as ((cl, cr) & E & Hinv).
  - lia.
  - unfold bounds_upto. cbn [fst snd]. rewrite !repeat_length.
    split; [lia|]. split; [lia|]. intros u Hu. rewrite !zidx_repeat.
    split; [intros e He; lia|]. split; [intros e He; lia | left; reflexivity].
  - intros k st Hk Hst.
    apply (child_bounds_step_run chk edges_left edges_right edges_child num_nodes k st);
      auto.
  - exists cl, cr. split; assumption.
Qed.

Lemma child_bounds_are_extremes_witness :
  exists child_left child_right,
    child_bounds true 4 [0; 0; 0]%Q [1; 2; 3]%Q [1; 2; 3]
    = Ok (child_left, child_right)
    /\ bounds_upto [0; 0; 0]%Q [1; 2; 3]%Q [1; 2; 3] 4
         (Z.of_nat (length [0; 0; 0]%Q)) (child_left, child_right).
Proof.
  apply (child_bounds_are_extremes true 4 [0; 0; 0]%Q [1; 2; 3]%Q [1; 2; 3]).
  - lia.
  - reflexivity.
  - reflexivity.
  - intros e He. change (Z.of_nat (length [0; 0; 0]%Q)) with 3 in He.
    below3 e; vm_compute; split; discriminate || reflexivity.
Defined.

(** * TreeInfo.make_sliding_windows *)

Lemma windows_loop_run {A : Type} (iterable : list A) (size step : Z) :
  0 <= size -> 1 <= step ->
  forall (fuel : nat) (start : Z),
    0 <= start ->
    (Z.to_nat (Z.of_nat (length iterable) - (start + size)) <= fuel)%nat ->
    exists ws,
      windows_loop fuel iterable step start (start + size) = Yields ws
      /\ length ws
         = S (Z.to_nat ((Z.of_nat (length iterable) - (start + size) + step - 1)
                        / step))
      /\ (forall k, (k < length ws)%nat ->
            nth k ws [] =
            firstn (Z.to_nat size)
              (skipn (Z.to_nat (start + Z.of_nat k * step)) iterable))
      /\ (forall k, (S k < length ws)%nat ->
            start + Z.of_nat k * step + size < Z.of_nat (length iterable))
      /\ Z.of_nat (length iterable)
         <= start + Z.of_nat (length ws - 1) * step + size.
Proof.
  intros Hsize Hstep.
  set (n := Z.of_nat (length iterable)).
  induction fuel as [|fuel IH]; intros start Hstart Hfuel.
  - (* no fuel is needed only when the loop is not entered *)
    assert (Hn : n <= start + size) by lia.
    cbn [windows_loop]. fold n.
    destruct (Z.ltb_spec (start + size) n); [lia|].
    exists [pyslice_from iterable start].
    assert (Hq : (n - (start + size) + step - 1) / step <= 0).
    { apply Z.lt_succ_r. apply Z.div_lt_upper_bound; lia. }
    split; [reflexivity|]. split; [cbn [length]; lia|].
    split; [|split].
    + intros k Hk. cbn [length] in Hk. assert (k = 0%nat) by lia. subst k.
      cbn [nth]. unfold pyslice_from, norm_index. fold n.
      destruct (Z.ltb_spec start 0); [lia|].
      replace (start + Z.of_nat 0 * step) with start by lia.
      destruct (Z.le_gt_cases n start).
      * rewrite Z.min_r by lia. rewrite !skipn_all2 by (unfold n in *; lia).
        rewrite firstn_nil. reflexivity.
      * rewrite Z.min_l by lia. symmetry. apply firstn_all2.
        rewrite length_skipn. unfold n in *. lia.
    + intros k Hk. cbn [length] in Hk. lia.
    + cbn [length]. lia.
  - cbn [windows_loop]. fold n.
    destruct (Z.ltb_spec (start + size) n) as [Hlt|Hge].
    + destruct (IH (start + step) ltac:(lia) ltac:(lia))
        as (ws & E & Hlen & Hnth & Hfull & Hlast).
      replace (start + size + step) with (start + step + size) by lia.
      rewrite E. exists (pyslice iterable start (start + size) :: ws).
      split; [reflexivity|]. split; [|split; [|split]].
      * cbn [length]. rewrite Hlen. f_equal.
        replace (n - (start + size) + step - 1)
          with (n - (start + step + size) + step - 1 + 1 * step) by lia.
        rewrite Z.div_add by lia.
        assert (0 <= (n - (start + step + size) + step - 1) / step)
          by (apply Z.div_pos; lia).
        lia.
      * intros [|k] Hk.
        -- cbn [nth]. unfold pyslice, norm_index. fold n.
           destruct (Z.ltb_spec start 0); [lia|].
           destruct (Z.ltb_spec (start + size) 0); [lia|].
           rewrite !Z.min_l by lia.
           replace (start + size - start) with size by lia.
           replace (start + Z.of_nat 0 * step) with start by lia.
           reflexivity.
        -- cbn [nth]. cbn [length] in Hk. rewrite Hnth by lia.
           replace (start + step + Z.of_nat k * step)
             with (start + Z.of_nat (S k) * step) by lia.
           reflexivity.
      * intros [|k] Hk; [lia|]. cbn [length] in Hk.
        specialize (Hfull k ltac:(lia)). lia.
      * cbn [length]. rewrite Hlen in Hlast |- *.
        replace (S (S (Z.to_nat ((n - (start + step + size) + step - 1) / step))) - 1)%nat
          with (S (S (Z.to_nat ((n - (start + step + size) + step - 1) / step)) - 1))
          by lia.
        lia.
    + exists [pyslice_from iterable start].
      assert (Hq : (n - (start + size) + step - 1) / step <= 0).
      { apply Z.lt_succ_r. apply Z.div_lt_upper_bound; lia. }
      split; [reflexivity|]. split; [cbn [length]; lia|].
      split; [|split].
      * intros k Hk. cbn [length] in Hk. assert (k = 0%nat) by lia. subst k.
        cbn [nth]. unfold pyslice_from, norm_index. fold n.
        destruct (Z.ltb_spec start 0); [lia|].
        replace (start + Z.of_nat 0 * step) with start by lia.
        destruct (Z.le_gt_cases n start).
        -- rewrite Z.min_r by lia. rewrite !skipn_all2 by (unfold n in *; lia).
           rewrite firstn_nil. reflexivity.
        -- rewrite Z.min_l by lia. symmetry. apply firstn_all2.
           rewrite length_skipn. unfold n in *. lia.
      * intros k Hk. cbn [length] in Hk. lia.
      * cbn [length]. lia.
Qed.

Lemma make_sliding_windows_run {A : Type} (fuel : nat) (iterable : list A)
    (size overlap : Z) :
  0 <= size -> overlap < size ->
  (Z.to_nat (Z.of_nat (length iterable) - size) <= fuel)%nat ->
  exists ws,
    make_sliding_windows fuel iterable size overlap = Yields ws
    /\ length ws
       = S (Z.to_nat ((Z.of_nat (length iterable) - overlap - 1) / (size - overlap)))
    /\ (forall k, (k < length ws)%nat ->
          nth k ws [] =
          firstn (Z.to_nat size)
            (skipn (Z.to_nat (Z.of_nat k * (size - overlap))) iterable))
    /\ (forall k, (S k < length ws)%nat ->
          Z.of_nat k * (size - overlap) + size < Z.of_nat (length iterable)).
Proof.
  intros Hsize Hov Hfuel. unfold make_sliding_windows.
  destruct (Z.ltb_spec overlap size); [|lia].
  destruct (windows_loop_run iterable size (size - overlap) Hsize ltac:(lia)
              fuel 0 ltac:(lia) Hfuel) as (ws & E & Hlen & Hnth & Hfull & _).
  exists ws. split; [exact E|]. split; [|split].
  - rewrite Hlen. do 3 f_equal. lia.
  - intros k Hk. rewrite (Hnth k Hk). reflexivity.
  - intros k Hk. specialize (Hfull k Hk). lia.
Qed.

(** X7: with [overlap < size] (and [size] not negative) the generator yields
    [1 + floor((len - overlap - 1) / (size - overlap))] windows, at least
    one.  Window [k] is the part of the input that starts at position
    [k * (size - overlap)] and has up to [size] elements, and every window
    but the last has exactly [size] elements. *)
Theorem sliding_windows_shape {A : Type} (fuel : nat) (iterable : list A)
    (size overlap : Z) :
  0 <= size -> overlap < size ->
  (Z.to_nat (Z.of_nat (length iterable) - size) <= fuel)%nat ->
  exists ws,
    make_sliding_windows fuel iterable size overlap = Yields ws
    /\ length ws
       = S (Z.to_nat ((Z.of_nat (length iterable) - overlap - 1) / (size - overlap)))
    /\ (forall k, (k < length ws)%nat ->
          nth k ws [] =
          firstn (Z.to_nat size)
            (skipn (Z.to_nat (Z.of_nat k * (size - overlap))) iterable))
    /\ (forall k, (S k < length ws)%nat ->
          length (nth k ws []) = Z.to_nat size).
Proof.
  intros Hsize Hov Hfuel.
  destruct (make_sliding_windows_run fuel iterable size overlap Hsize Hov Hfuel)
    as (ws & E & Hlen & Hnth & Hfull).
  exists ws. split; [exact E|]. split; [exact Hlen|]. split; [exact Hnth|].
  intros k Hk. rewrite Hnth by lia. specialize (Hfull k Hk).
  rewrite length_firstn, length_skipn. nia.
Qed.

Lemma sliding_windows_shape_witness :
  exists ws,
    make_sliding_windows 5 [1; 2; 3; 4; 5; 6; 7] 3 1 = Yields ws
    /\ length ws
       = S (Z.to_nat ((Z.of_nat (length [1; 2; 3; 4; 5; 6; 7]) - 1 - 1) / (3 - 1)))
    /\ (forall k, (k < length ws)%nat ->
          nth k ws [] =
          firstn (Z.to_nat 3)
            (skipn (Z.to_nat (Z.of_nat k * (3 - 1))) [1; 2; 3; 4; 5; 6; 7]))
    /\ (forall k, (S k < length ws)%nat ->
          length (nth k ws []) = Z.to_nat 3).
Proof.
  apply (sliding_windows_shape 5 [1; 2; 3; 4; 5; 6; 7] 3 1).
  - lia.
  - lia.
  - vm_compute. lia.
Defined.

Lemma windows_loop_concat {A : Type} (iterable : list A) (size : Z) :
  0 <= size ->
  forall (fuel : nat) (start : Z) (ws : list (list A)),
    0 <= start ->
    windows_loop fuel iterable size start (start + size) = Yields ws ->
    concat ws = skipn (Z.to_nat start) iterable.
Proof.
  intros Hsize. set (n := Z.of_nat (length iterable)).
  assert (Hbase : forall start, 0 <= start ->
            concat [pyslice_from iterable start] = skipn (Z.to_nat start) iterable).
  { intros start Hstart. cbn [concat]. rewrite app_nil_r.
    unfold pyslice_from, norm_index. fold n.
    destruct (Z.ltb_spec start 0); [lia|].
    destruct (Z.le_gt_cases n start).
    - rewrite Z.min_r by lia. rewrite !skipn_all2 by (unfold n in *; lia).
      reflexivity.
    - rewrite Z.min_l by lia. reflexivity. }
  induction fuel as [|fuel IH]; intros start ws Hstart E.
  - cbn [windows_loop] in E. fold n in E.
    destruct (Z.ltb_spec (start + size) n); [discriminate|].
    injection E as <-. apply Hbase. exact Hstart.
  - cbn [windows_loop] in E. fold n in E.
    destruct (Z.ltb_spec (start + size) n) as [Hlt|Hge].
    + replace (start + size + size) with (start + size + size) in E by lia.
      destruct (windows_loop fuel iterable size (start + size) (start + size + size))
        as [ws'| |] eqn:E'; try discriminate.
      injection E as <-. cbn [concat].
      rewrite (IH (start + size) ws' ltac:(lia) E').
      unfold pyslice, norm_index. fold n.
      destruct (Z.ltb_spec start 0); [lia|].
      destruct (Z.ltb_spec (start + size) 0); [lia|].
      rewrite !Z.min_l by lia.
      replace (start + size - start) with size by lia.
      replace (Z.to_nat (start + size)) with (Z.to_nat size + Z.to_nat start)%nat
        by lia.
      rewrite <- skipn_skipn. apply firstn_skipn.
    + injection E as <-. apply Hbase. exact Hstart.
Qed.

(** X8: without overlap (the default) the windows are consecutive pieces of
    the input: concatenated in the order they are yielded they give the
    input back. *)
Theorem sliding_windows_partition {A : Type} (fuel : nat) (iterable : list A)
    (size : Z) :
  0 < size ->
  (Z.to_nat (Z.of_nat (length iterable) - size) <= fuel)%nat ->
  exists ws,
    make_sliding_windows fuel iterable size 0 = Yields ws
    /\ concat ws = iterable.
Proof.
  intros Hsize Hfuel.
  destruct (make_sliding_windows_run fuel iterable size 0 ltac:(lia) Hsize Hfuel)
    as (ws & E & _).
  exists ws. split; [exact E|].
  unfold make_sliding_windows in E.
  destruct (Z.ltb_spec 0 size); [|lia].
  rewrite Z.sub_0_r in E.
  apply (windows_loop_concat iterable size ltac:(lia) fuel 0 ws ltac:(lia)) in E.
  exact E.
Qed.

Lemma sliding_windows_partition_witness :
  exists ws,
    make_sliding_windows 3 [1; 2; 3; 4; 5] 2 0 = Yields ws
    /\ concat ws = [1; 2; 3; 4; 5].
Proof.
  apply (sliding_windows_partition 3 [1; 2; 3; 4; 5] 2).
  - lia.
  - vm_compute. lia.
Defined.

(** X9: with [0 <= overlap < size] consecutive windows share exactly
    [overlap] elements: the last [overlap] elements of a window are the first
    [overlap] elements of the next one.  On a non-empty input no window is
    empty. *)
Theorem sliding_windows_overlap {A : Type} (fuel : nat) (iterable : list A)
    (size overlap : Z) :
  0 <= overlap < size ->
  (Z.to_nat (Z.of_nat (length iterable) - size) <= fuel)%nat ->
  exists ws,
    make_sliding_windows fuel iterable size overlap = Yields ws
    /\ (forall k, (S k < length ws)%nat ->
          skipn (Z.to_nat (size - overlap)) (nth k ws [])
          = firstn (Z.to_nat overlap) (nth (S k) ws [])
          /\ length (firstn (Z.to_nat overlap) (nth (S k) ws []))
             = Z.to_nat overlap)
    /\ (iterable <> [] -> forall k, (k < length ws)%nat -> nth k ws [] <> []).
Proof.
  intros Hov Hfuel.
  destruct (make_sliding_windows_run fuel iterable size overlap
              ltac:(lia) ltac:(lia) Hfuel) as (ws & E & Hlen & Hnth & Hfull).
  exists ws. split; [exact E|]. split.
  - intros k Hk. pose proof (Hfull k Hk) as Hf.
    rewrite (Hnth k) by lia. rewrite (Hnth (S k)) by lia.
    assert (Hshare :
      skipn (Z.to_nat (size - overlap))
        (firstn (Z.to_nat size)
           (skipn (Z.to_nat (Z.of_nat k * (size - overlap))) iterable))
      = firstn (Z.to_nat overlap)
          (firstn (Z.to_nat size)
             (skipn (Z.to_nat (Z.of_nat (S k) * (size - overlap))) iterable))).
    { rewrite skipn_firstn_comm, skipn_skipn, firstn_firstn.
      replace (Z.to_nat size - Z.to_nat (size - overlap))%nat
        with (Z.to_nat overlap) by lia.
      rewrite Nat.min_l by lia.
      replace (Z.to_nat (size - overlap) + Z.to_nat (Z.of_nat k * (size - overlap)))%nat
        with (Z.to_nat (Z.of_nat (S k) * (size - overlap))) by nia.
      reflexivity. }
    split; [exact Hshare|].
    rewrite <- Hshare. rewrite length_skipn, length_firstn, length_skipn. nia.
  - intros Hne k Hk. rewrite Hnth by exact Hk.
    assert (Hpos : Z.of_nat k * (size - overlap) < Z.of_nat (length iterable)).
    { destruct k as [|k].
      - destruct iterable; [contradiction|]. cbn [length]. lia.
      - specialize (Hfull k ltac:(lia)). nia. }
    intros Hnil. apply (f_equal (@length A)) in Hnil.
    rewrite length_firstn, length_skipn in Hnil. cbn [length] in Hnil. nia.
Qed.

Lemma sliding_windows_overlap_witness :
  exists ws,
    make_sliding_windows 5 [1; 2; 3; 4; 5; 6; 7] 3 1 = Yields ws
    /\ (forall k, (S k < length ws)%nat ->
          skipn (Z.to_nat (3 - 1)) (nth k ws [])
          = firstn (Z.to_nat 1) (nth (S k) ws [])
          /\ length (firstn (Z.to_nat 1) (nth (S k) ws [])) = Z.to_nat 1)
    /\ ([1; 2; 3; 4; 5; 6; 7] <> [] ->
        forall k, (k < length ws)%nat -> nth k ws [] <> []).
Proof.
  apply (sliding_windows_overlap 5 [1; 2; 3; 4; 5; 6; 7] 3 1).
  - lia.
  - vm_compute. lia.
Defined.

(** * TreeInfo.map_stats_to_genome *)

Lemma pyint_floor (q : Q) : (0 <= q)%Q -> pyint q = Qnum q / Z.pos (Qden q).
Proof.
  intros H. unfold pyint. apply Z.quot_div_nonneg; [|lia].
  unfold Qle in H. cbn in H. lia.
Qed.

Lemma pyint_mono (p q : Q) : (0 <= p)%Q -> (p <= q)%Q -> pyint p <= pyint q.
Proof.
  intros Hp Hpq. rewrite !pyint_floor by lra.
  apply Z.div_le_lower_bound; [lia|].
  destruct p as (n1, d1), q as (n2, d2). unfold Qle in Hp, Hpq.
  cbn [Qnum Qden] in *.
  pose proof (Z.mul_div_le n1 (Z.pos d1) ltac:(lia)) as H1.
  set (k := n1 / Z.pos d1) in *.
  apply (Z.mul_le_mono_pos_r _ _ (Z.pos d1)); [lia|].
  apply Z.le_trans with (n1 * Z.pos d2); [|exact Hpq].
  replace (Z.pos d2 * k * Z.pos d1) with (Z.pos d1 * k * Z.pos d2) by ring.
  apply Z.mul_le_mono_nonneg_r; [lia | exact H1].
Qed.

Lemma pyint_eq (p q : Q) : (0 <= p)%Q -> (p == q)%Q -> pyint p = pyint q.
Proof.
  intros Hp E. apply Z.le_antisymm; apply pyint_mono; lra.
Qed.

Lemma pyint_nonneg (q : Q) : (0 <= q)%Q -> 0 <= pyint q.
Proof. intros H. apply (pyint_mono 0 q); [lra | exact H]. Qed.

Lemma slice_assign_run {A : Type} (d : A) (a : list A) (lo hi : Z) (v : A) :
  0 <= lo <= hi -> hi <= Z.of_nat (length a) ->
  length (slice_assign a lo hi v) = length a
  /\ (forall x, lo <= x < hi -> zidx d (slice_assign a lo hi v) x = v)
  /\ (forall x, 0 <= x < lo \/ hi <= x ->
        zidx d (slice_assign a lo hi v) x = zidx d a x).
Proof.
  intros Hlo Hhi. unfold slice_assign, norm_index.
  destruct (Z.ltb_spec lo 0); [lia|]. destruct (Z.ltb_spec hi 0); [lia|].
  rewrite !Z.min_l by lia.
  destruct (Z.ltb_spec lo hi) as [Hlt|Hge].
  - assert (L1 : length (firstn (Z.to_nat lo) a) = Z.to_nat lo)
      by (rewrite length_firstn; lia).
    split; [|split].
    + rewrite !length_app, L1, repeat_length, length_skipn. lia.
    + intros x Hx. unfold zidx. rewrite app_nth2 by lia. rewrite L1.
      rewrite app_nth1 by (rewrite repeat_length; lia). apply nth_repeat_lt. lia.
    + intros x Hx. unfold zidx.
      destruct (Z.ltb_spec x lo) as [Hx1|Hx1].
      * rewrite app_nth1 by lia.
        rewrite <- (firstn_skipn (Z.to_nat lo) a) at 2.
        rewrite app_nth1 by lia. reflexivity.
      * assert (Hx2 : hi <= x) by lia.
        rewrite app_nth2 by lia. rewrite L1.
        rewrite app_nth2 by (rewrite repeat_length; lia). rewrite repeat_length.
        rewrite <- (firstn_skipn (Z.to_nat hi) a) at 2.
        rewrite app_nth2 by (rewrite length_firstn; lia).
        rewrite length_firstn. f_equal. lia.
  - split; [reflexivity|]. split; [intros x Hx; lia | reflexivity].
Qed.

Lemma map_stats_loop_run (to_map : list float) (d : Q * Q) :
  forall (intervals : list (Q * Q)) (a b : Q) (i : Z) (mapped : list float),
    tiles a intervals b -> (0 <= a)%Q ->
    pyint b <= Z.of_nat (length mapped) ->
    0 <= i -> i + Z.of_nat (length intervals) <= Z.of_nat (length to_map) ->
    exists mapped',
      map_stats_loop i intervals to_map mapped = Ok mapped'
      /\ length mapped' = length mapped
      /\ (forall x, 0 <= x < pyint a ->
            zidx 0%float mapped' x = zidx 0%float mapped x)
      /\ (forall k x, (k < length intervals)%nat ->
            pyint (fst (nth k intervals d)) <= x < pyint (snd (nth k intervals d)) ->
            zidx 0%float mapped' x = zidx 0%float to_map (i + Z.of_nat k)).
Proof.
  induction intervals as [|iv rest IH]; intros a b i mapped Ht Ha Hb Hi Hlen.
  - exists mapped. split; [reflexivity|]. split; [reflexivity|].
    split; [reflexivity|]. intros k x Hk. cbn [length] in Hk. lia.
  - cbn [tiles] in Ht. destruct Ht as (Hfst & Hlt & Hrest).
    cbn [length] in Hlen. cbn [map_stats_loop].
    rewrite (aget_in 0%float) by lia. cbn [bind].
    pose proof (tiles_le rest _ _ Hrest) as Hrb.
    assert (Hla : pyint (fst iv) = pyint a) by (apply pyint_eq; lra).
    assert (H0l : 0 <= pyint (fst iv)) by (apply pyint_nonneg; lra).
    assert (Hlr : pyint (fst iv) <= pyint (snd iv)) by (apply pyint_mono; lra).
    assert (Hrb' : pyint (snd iv) <= pyint b) by (apply pyint_mono; lra).
    destruct (slice_assign_run 0%float mapped (pyint (fst iv)) (pyint (snd iv))
                (zidx 0%float to_map i) ltac:(lia) ltac:(lia))
      as (L1 & Hin & Hout).
    destruct (IH (snd iv) b (i + 1)
                (slice_assign mapped (pyint (fst iv)) (pyint (snd iv))
                   (zidx 0%float to_map i)) Hrest ltac:(lra) ltac:(lia)
                ltac:(lia) ltac:(lia))
      as (mapped' & E & L2 & Hkeep & Hset).
    exists mapped'. split; [exact E|]. split; [lia|]. split.
    + intros x Hx. rewrite Hkeep by lia. apply Hout. lia.
    + intros [|k] x Hk Hx; cbn [nth] in Hx.
      * rewrite Hkeep by lia. rewrite Hin by lia. f_equal. lia.
      * cbn [length] in Hk. rewrite (Hset k x) by (lia || exact Hx).
        f_equal. lia.
Qed.

Lemma tiles_cover_int (d : Q * Q) :
  forall (intervals : list (Q * Q)) (a b : Q) (x : Z),
    tiles a intervals b -> (0 <= a)%Q -> pyint a <= x < pyint b ->
    exists k, (k < length intervals)%nat
              /\ pyint (fst (nth k intervals d)) <= x < pyint (snd (nth k intervals d)).
Proof.
  induction intervals as [|iv rest IH]; intros a b x Ht Ha Hx.
  - cbn [tiles] in Ht. rewrite (pyint_eq a b Ha Ht) in Hx. lia.
  - cbn [tiles] in Ht. destruct Ht as (Hfst & Hlt & Hrest).
    assert (Hla : pyint (fst iv) = pyint a) by (apply pyint_eq; lra).
    destruct (Z.lt_ge_cases x (pyint (snd iv))) as [Hin|Hout].
    + exists 0%nat. cbn [length nth]. split; lia.
    + destruct (IH (snd iv) b x Hrest ltac:(lra) ltac:(lia)) as (k & Hk & Hkx).
      exists (S k). cbn [length nth]. split; [lia | exact Hkx].
Qed.

(** X10: when the tree intervals tile the genome and [to_map] has an entry
    for each tree, [map_stats_to_genome] returns an array of
    [int(sequence_length)] entries.  Position [x] holds the entry of tree
    [k] whenever [int(left_k) <= x < int(right_k)], and every position of
    the array lies in such a range, so no entry keeps its initial zero by
    omission. *)
Theorem map_stats_covers_genome (sequence_length : Q) (intervals : list (Q * Q))
    (to_map : list float) :
  tiles 0 intervals sequence_length ->
  (length intervals <= length to_map)%nat ->
  exists mapped,
    map_stats_to_genome sequence_length intervals to_map = Ok mapped
    /\ Z.of_nat (length mapped) = pyint sequence_length
    /\ (forall k x, (k < length intervals)%nat ->
          pyint (fst (nth k intervals (0, 0)%Q)) <= x
            < pyint (snd (nth k intervals (0, 0)%Q)) ->
          zidx 0%float mapped x = nth k to_map 0%float)
    /\ (forall x, 0 <= x < pyint sequence_length ->
          exists k, (k < length intervals)%nat
                    /\ pyint (fst (nth k intervals (0, 0)%Q)) <= x
                         < pyint (snd (nth k intervals (0, 0)%Q))).
Proof.
  intros Ht Hlen. unfold map_stats_to_genome, zeros.
  pose proof (tiles_le intervals _ _ Ht) as HL.
  pose proof (pyint_nonneg sequence_length HL) as HN.
  destruct (Z.ltb_spec (pyint sequence_length) 0); [lia|]. cbn [bind].
  destruct (map_stats_loop_run to_map (0, 0)%Q intervals 0 sequence_length 0
              (repeat 0%float (Z.to_nat (pyint sequence_length))) Ht
              ltac:(lra) ltac:(rewrite repeat_length; lia) ltac:(lia) ltac:(lia))
    as (mapped & E & L & _ & Hset).
  exists mapped. split; [exact E|]. split; [rewrite L, repeat_length; lia|]. split.
  - intros k x Hk Hx. rewrite (Hset k x Hk Hx). unfold zidx. f_equal. lia.
  - intros x Hx. apply (tiles_cover_int (0, 0)%Q intervals 0 sequence_length x Ht);
      [lra|]. change (pyint 0) with 0. exact Hx.
Qed.

Lemma map_stats_covers_genome_witness :
  exists mapped,
    map_stats_to_genome 5 [(0, 5 # 2); (5 # 2, 5)]%Q [1%float; 2%float] = Ok mapped
    /\ Z.of_nat (length mapped) = pyint 5
    /\ (forall k x, (k < length [(0, 5 # 2); (5 # 2, 5)]%Q)%nat ->
          pyint (fst (nth k [(0, 5 # 2); (5 # 2, 5)]%Q (0, 0)%Q)) <= x
            < pyint (snd (nth k [(0, 5 # 2); (5 # 2, 5)]%Q (0, 0)%Q)) ->
          zidx 0%float mapped x = nth k [1%float; 2%float] 0%float)
    /\ (forall x, 0 <= x < pyint 5 ->
          exists k, (k < length [(0, 5 # 2); (5 # 2, 5)]%Q)%nat
                    /\ pyint (fst (nth k [(0, 5 # 2); (5 # 2, 5)]%Q (0, 0)%Q)) <= x
                         < pyint (snd (nth k [(0, 5 # 2); (5 # 2, 5)]%Q (0, 0)%Q))).
Proof.
  apply (map_stats_covers_genome 5 [(0, 5 # 2); (5 # 2, 5)]%Q [1%float; 2%float]).
  - cbn [tiles fst snd]. repeat split; lra.
  - cbn [length]. lia.
Defined.

(** * The maximal arity before the first removal *)

Lemma fold_max_upd (l : list Z) :
  forall (n : nat) (v : Z),
    (n < length l)%nat -> nth n l 0 <= v ->
    fold_right Z.max 0 (upd l n v) = Z.max (fold_right Z.max 0 l) v.
Proof.
  induction l as [|x l IH]; intros n v Hn Hv; cbn [length] in Hn; [lia|].
  destruct n as [|n]; cbn [upd fold_right nth] in *.
  - lia.
  - rewrite IH by (lia || assumption). lia.
Qed.

Lemma fold_max_bounds (l : list Z) (B : Z) :
  0 < B -> (forall i, (i < length l)%nat -> nth i l 0 < B) ->
  0 <= fold_right Z.max 0 l < B.
Proof.
  intros HB. induction l as [|x l IH]; intros H; cbn [fold_right]; [lia|].
  pose proof (H 0%nat ltac:(cbn [length]; lia)) as H0. cbn [nth] in H0.
  assert (0 <= fold_right Z.max 0 l < B).
  { apply IH. intros i Hi. apply (H (S i)). cbn [length]. lia. }
  lia.
Qed.

Lemma fold_max_repeat_zero (n : nat) : fold_right Z.max 0 (repeat 0 n) = 0.
Proof.
  induction n as [|n IH]; cbn [repeat fold_right]; [reflexivity|].
  rewrite IH. reflexivity.
Qed.

Section MaxSteps.

Variable chk : bool.
Variables (nodes_time : list float) (edges_parent edges_child : list Z).
Variable num_nodes : Z.
Variable tp : TreePosition.
Hypothesis SH : shaped tp.
Hypothesis NO : nodes_ok tp nodes_time edges_parent edges_child num_nodes.

Lemma insert_edge_max (j k : Z) (s s' : stats) :
  mid_inv tp edges_parent num_nodes j k s ->
  0 <= j < num_edges tp ->
  max_counted s ->
  insert_edge chk nodes_time edges_parent edges_child tp j s = Ok s' ->
  max_counted s'.
Proof.
  intros MI Hj MC Hrun.
  destruct MI as [Lnc Lh Hnc Hb Hh0 Hh].
  destruct NO as [Nn Nlp Nlc Nlt Np Nc].
  pose proof (sh_len_ins tp SH) as Lins.
  pose proof (sh_ins_entry tp SH j Hj) as He.
  set (e := ins_at tp j) in *.
  set (p := parent_of edges_parent e) in *.
  pose proof (Np e He) as Hp. fold p in Hp.
  set (c := zidx 0 (num_children s) p) in *.
  pose proof (Hb p Hp) as Hc. fold c in Hc.
  unfold max_counted in *.
  unfold insert_edge in Hrun.
  rewrite (aget_in 0) in Hrun by lia. cbn [bind] in Hrun.
  fold (ins_at tp j) in Hrun. fold e in Hrun.
  rewrite (aget_in 0) in Hrun by lia. cbn [bind] in Hrun.
  fold (parent_of edges_parent e) in Hrun. fold p in Hrun.
  rewrite (aget_in 0) in Hrun by lia. cbn [bind] in Hrun. fold c in Hrun.
  apply bind_ok in Hrun. destruct Hrun as (r & Er & Hrun).
  rewrite aset_in in Hrun by lia. cbn [bind] in Hrun.
  rewrite (aget_in 0) in Hrun by (rewrite upd_length; lia). cbn [bind] in Hrun.
  rewrite zidx_upd_same in Hrun by lia.
  rewrite int32_small in Hrun by lia.
  apply bind_ok in Hrun. destruct Hrun as (h & _ & Hrun).
  apply bind_ok in Hrun. destruct Hrun as (nwa & _ & Hrun).
  apply bind_ok in Hrun. destruct Hrun as (c0 & _ & Hrun).
  apply bind_ok in Hrun. destruct Hrun as (t1 & _ & Hrun).
  apply bind_ok in Hrun. destruct Hrun as (t2 & _ & Hrun).
  injection Hrun as <-. cbn [current_max_arity num_children].
  rewrite fold_max_upd; [| lia | fold (zidx 0 (num_children s) p); fold c; lia].
  rewrite <- MC.
  destruct (Z.ltb_spec (current_max_arity s) (c + 1)); lia.
Qed.

End MaxSteps.

Section MaxBody.

Variable chk : bool.
Variables (nodes_time : list float) (edges_parent edges_child : list Z).
Variable num_nodes : Z.
Variable tp : TreePosition.
Hypothesis WF : well_formed tp.
Hypothesis NO : nodes_ok tp nodes_time edges_parent edges_child num_nodes.
Hypothesis AB : arity_bounded tp edges_parent num_nodes.
Hypothesis AT : at_tree tp.
Hypothesis Hin : 0 <= fst (in_range tp) <= snd (in_range tp).

(** A round that removes no edge keeps the running maximum exact. *)
Lemma tree_body_max (s s1 s2 : stats) :
  mid_inv tp edges_parent num_nodes (fst (in_range tp)) (fst (out_range tp)) s ->
  snd (out_range tp) = fst (out_range tp) ->
  max_counted s ->
  for_range (fst (out_range tp)) (snd (out_range tp))
    (remove_edge chk nodes_time edges_parent edges_child tp) s = Ok s1 ->
  for_range (fst (in_range tp)) (snd (in_range tp))
    (insert_edge chk nodes_time edges_parent edges_child tp) s1 = Ok s2 ->
  max_counted s2.
Proof.
  intros MI Hno MC E1 E2.
  pose proof (well_formed_shaped tp WF) as SH.
  pose proof (at_j tp AT) as Hj. pose proof (at_k tp AT) as Hk.
  rewrite Hno in E1. rewrite for_range_empty in E1. injection E1 as <-.
  rewrite <- Hno in MI.
  apply (for_range_post
           (fun j s' => mid_inv tp edges_parent num_nodes j (snd (out_range tp)) s'
                        /\ max_counted s')
           _ _ _ _ _ (proj2 Hin) E2); [auto|].
  intros j t t' Hj' (MI' & MC') Hrun.
  assert (Hcount :
    count_parent edges_parent (edge_insertion_order tp) (j + 1)
      (parent_of edges_parent (ins_at tp j))
    - count_parent edges_parent (edge_removal_order tp) (snd (out_range tp))
        (parent_of edges_parent (ins_at tp j))
    < num_nodes).
  { set (p := parent_of edges_parent (ins_at tp j)).
    assert (Hp : 0 <= p < num_nodes).
    { apply (no_parent _ _ _ _ _ NO). apply wf_ins_entry; auto. lia. }
    pose proof (AB (fst (interval tp)) p Hp) as Hdeg.
    assert (count_parent edges_parent (edge_insertion_order tp) (j + 1) p
            <= out_degree tp edges_parent (fst (interval tp)) p
               + count_parent edges_parent (edge_removal_order tp)
                   (snd (out_range tp)) p); [|lia].
    apply (inserted_le_present tp edges_parent WF); try lia.
    - intros i Hi. apply (at_ins_done tp AT). lia.
    - intros i Hi. apply (at_rem_todo tp AT). lia. }
  destruct (insert_edge_step chk nodes_time edges_parent edges_child num_nodes tp
              SH NO j (snd (out_range tp)) t MI' ltac:(lia) Hcount)
    as (t'' & E & MI'' & _).
  rewrite E in Hrun. injection Hrun as <-. split; [exact MI''|].
  apply (insert_edge_max chk nodes_time edges_parent edges_child num_nodes tp
           SH NO j (snd (out_range tp)) t t'' MI' ltac:(lia) MC' E).
Qed.

End MaxBody.

Section MaxLoop.

Variable chk : bool.
Variables (nodes_time : list float) (edges_parent edges_child : list Z).
Variables (num_trees num_nodes : Z).
Variable tp0 : TreePosition.
Hypothesis NO : nodes_ok tp0 nodes_time edges_parent edges_child num_nodes.
Hypothesis AB : arity_bounded tp0 edges_parent num_nodes.
Hypothesis NT : num_trees < 2 ^ 63.

Lemma tree_step_run_max (c : TreePosition * stats) :
  loop_inv edges_parent num_nodes tp0 c ->
  (snd (out_range (fst c)) = 0 -> max_counted (snd c)) ->
  exists b tp',
    next chk (fst c) = Ok (b, tp')
    /\ if b then
         exists s2,
           tree_inv edges_parent num_nodes tp0 tp' s2
           /\ same_outputs (snd c) s2
           /\ (snd (out_range tp') = 0 -> max_counted s2)
           /\ ((forall e, 0 <= e < num_edges tp0 ->
                  (fst (interval tp') < right_of tp0 e)%Q) ->
               snd (out_range tp') = 0)
           /\ tree_step chk nodes_time edges_parent edges_child c =
              (s3 <- emit chk s2 ;; Ok (true, (tp', s3)))
       else tree_step chk nodes_time edges_parent edges_child c
            = Ok (false, (tp', snd c)).
Proof.
  intros [WF Htab RD MI] MC. destruct c as (tp, s). simpl in *.
  destruct (next_ready chk tp WF RD) as (b & tp' & Enext & NP).
  exists b, tp'. split; [exact Enext|].
  unfold tree_step. cbn [fst snd]. rewrite Enext. cbn [bind fst snd].
  destruct b; [|reflexivity].
  pose proof (np_table _ _ _ NP) as Htab'.
  assert (WF' : well_formed tp') by (apply (same_table_wf tp); assumption).
  assert (Htab0 : same_table tp0 tp') by (apply (same_table_trans tp0 tp tp'); assumption).
  destruct (same_table_reads tp tp' Htab') as (El & _ & Ei & _).
  pose proof (nodes_ok_same_table _ _ _ _ _ _ Htab0 NO) as NO'.
  pose proof (arity_bounded_same_table _ _ _ _ Htab0 AB) as AB'.
  assert (Hin : 0 <= fst (in_range tp') <= snd (in_range tp')).
  { rewrite (np_in_start _ _ _ NP). pose proof (np_in_le _ _ _ NP) as H.
    rewrite (np_in_start _ _ _ NP) in H. pose proof (rd_j tp RD). lia. }
  assert (Hout : 0 <= fst (out_range tp') <= snd (out_range tp')).
  { rewrite (np_out_start _ _ _ NP). pose proof (np_out_le _ _ _ NP) as H.
    rewrite (np_out_start _ _ _ NP) in H. pose proof (rd_k tp RD). lia. }
  assert (Hpending : forall i, fst (in_range tp') <= i < num_edges tp' ->
            (fst (interval tp') <= left_of tp' (ins_at tp' i))%Q).
  { intros i Hi. rewrite (np_in_start _ _ _ NP) in Hi.
    assert (EM : num_edges tp' = num_edges tp) by apply Htab'.
    rewrite El, Ei, (np_left _ _ _ NP). apply (rd_ins_todo tp RD). lia. }
  assert (MI' : mid_inv tp' edges_parent num_nodes
                  (fst (in_range tp')) (fst (out_range tp')) s).
  { rewrite (np_in_start _ _ _ NP), (np_out_start _ _ _ NP).
    apply (mid_inv_same_table tp tp'); assumption. }
  destruct (tree_body chk nodes_time edges_parent edges_child num_nodes tp' WF'
              NO' AB' (np_at _ _ _ NP) Hin Hout Hpending s MI')
    as (s1 & s2 & E1 & E2 & MI2 & SO & Hex).
  rewrite E1. cbn [bind]. rewrite E2. cbn [bind].
  exists s2. split; [|split; [exact SO | split; [|split; [|reflexivity]]]].
  - split; [exact MI2|]. intros n Hn.
    rewrite <- (out_degree_same_table tp0 tp' _ _ _ Htab0). apply Hex. exact Hn.
  - intros H0.
    assert (Hk0 : snd (out_range tp) = 0).
    { rewrite <- (np_out_start _ _ _ NP). lia. }
    apply (tree_body_max chk nodes_time edges_parent edges_child num_nodes tp' WF'
             NO' AB' (np_at _ _ _ NP) Hin s s1 s2 MI' ltac:(lia) (MC Hk0) E1 E2).
  - intros Hall.
    pose proof (at_k tp' (np_at _ _ _ NP)) as Hk.
    destruct (Z.eq_dec (snd (out_range tp')) 0) as [E0|N0]; [exact E0|].
    exfalso.
    pose proof (at_rem_done tp' (np_at _ _ _ NP) 0 ltac:(lia)) as Hdone.
    pose proof (wf_rem_entry tp' WF' 0 ltac:(lia)) as Hent.
    destruct (same_table_reads tp0 tp' Htab0) as (_ & Er0 & _).
    assert (EM : num_edges tp' = num_edges tp0) by apply Htab0.
    rewrite Er0 in Hdone.
    specialize (Hall (rem_at tp' 0) ltac:(lia)). lra.
Qed.

(** The loop stores for every tree that starts before the first edge ends
    the largest number of children a node has in it. *)
Lemma tree_loop_max (fuel : nat) :
  forall (c : TreePosition * stats) (ts : list TreePosition) (tf : TreePosition),
    loop_inv edges_parent num_nodes tp0 c ->
    (snd (out_range (fst c)) = 0 -> max_counted (snd c)) ->
    traverse chk fuel (fst c) = Ok (ts, tf) ->
    outputs_sized num_trees (snd c) ->
    0 <= tree_index (snd c) ->
    tree_index (snd c) + Z.of_nat (length ts) <= num_trees ->
    exists s',
      tree_loop chk nodes_time edges_parent edges_child fuel c = Ok (tf, s')
      /\ (forall t, 0 <= t ->
            t < tree_index (snd c)
            \/ tree_index (snd c) + Z.of_nat (length ts) <= t ->
            zidx 0 (max_arity s') t = zidx 0 (max_arity (snd c)) t)
      /\ (forall i, (i < length ts)%nat ->
            (forall e, 0 <= e < num_edges tp0 ->
               (fst (interval (nth i ts tp0)) < right_of tp0 e)%Q) ->
            zidx 0 (max_arity s') (tree_index (snd c) + Z.of_nat i)
            = brute_max_arity tp0 edges_parent num_nodes
                (fst (interval (nth i ts tp0)))).
Proof.
  induction fuel as [|fuel IH]; intros c ts tf LI MC Htr Hsz Hti Hroom.
  - discriminate.
  - destruct (tree_step_run_max c LI MC) as (b & tp' & Enext & H).
    simpl in Htr. rewrite Enext in Htr. cbn [bind fst snd] in Htr.
    cbn [tree_loop].
    destruct b.
    + apply bind_ok in Htr. destruct Htr as ((ts', tf') & Htr' & Hres).
      cbn [fst snd] in Hres. injection Hres as <- <-.
      destruct H as (s2 & TI & SO & MC2 & Hfirst & Estep).
      destruct SO as (S1 & S2 & S3 & S4).
      destruct Hsz as (Z1 & Z2 & Z3).
      cbn [length] in Hroom.
      pose proof (emit_stores chk s2) as Eemit.
      rewrite S1, S2, S3, S4 in Eemit.
      specialize (Eemit ltac:(lia) ltac:(lia) ltac:(lia) ltac:(lia)).
      rewrite Eemit in Estep. cbn [bind] in Estep.
      match type of Estep with _ = Ok (true, (_, ?s)) => set (s3 := s) in * end.
      destruct (tree_step_inv chk nodes_time edges_parent edges_child num_nodes tp0
                  NO AB c (tp', s3) LI Estep) as (LI' & _).
      destruct (IH (tp', s3) ts' tf' LI') as (s' & Eloop & Hkeep & Hnew).
      * exact MC2.
      * exact Htr'.
      * unfold outputs_sized, s3. cbn [snd tbl num_internal_nodes max_arity].
        rewrite !upd_length. auto.
      * unfold s3. cbn [snd tree_index]. lia.
      * unfold s3. cbn [snd tree_index]. lia.
      * exists s'. rewrite Estep. cbn [bind fst snd].
        split; [exact Eloop|].
        unfold s3 in Hkeep, Hnew. cbn [snd tree_index max_arity] in Hkeep, Hnew.
        split.
        -- intros t Ht0 Ht. rewrite Hkeep by (cbn [length] in Ht; lia).
           rewrite zidx_upd_other by (cbn [length] in Ht; lia). reflexivity.
        -- intros i Hi Hall. destruct i as [|i].
           ++ rewrite Z.add_0_r. rewrite Hkeep by lia.
              rewrite zidx_upd_same by lia. cbn [nth] in Hall |- *.
              destruct TI as (MI2 & Hex).
              pose proof (MC2 (Hfirst Hall)) as Emax. unfold max_counted in Emax.
              pose proof (no_nodes _ _ _ _ _ NO) as Hnn.
              assert (Hb : 0 <= fold_right Z.max 0 (num_children s2) < 2 ^ 31).
              { apply fold_max_bounds; [lia|]. intros n Hn.
                pose proof (mi_len_nc _ _ _ _ _ _ MI2) as Ln.
                pose proof (mi_bound _ _ _ _ _ _ MI2 (Z.of_nat n) ltac:(lia)) as B.
                unfold zidx in B. rewrite Nat2Z.id in B. lia. }
              rewrite Emax. rewrite int32_small by lia.
              unfold brute_max_arity.
              rewrite <- (list_is_map (num_children s2)
                            (out_degree tp0 edges_parent (fst (interval tp')))
                            num_nodes (mi_len_nc _ _ _ _ _ _ MI2) Hex).
              reflexivity.
           ++ cbn [nth length] in *.
              replace (tree_index (snd c) + Z.of_nat (S i))
                with (tree_index (snd c) + 1 + Z.of_nat i) by lia.
              apply Hnew; [lia | exact Hall].
    + injection Htr as <- <-. rewrite H. cbn [bind fst snd].
      exists (snd c). split; [reflexivity|].
      split; [reflexivity|]. intros i Hi. cbn [length] in Hi. lia.
Qed.

End MaxLoop.

(** X11: on a well-formed table whose arities stay below [num_nodes], the
    third array returned holds the largest number of children of a node for
    every tree that starts before the first edge ends, that is, as long as
    no edge has been removed. *)
Theorem max_arity_before_first_removal (chk : bool) (nodes_time : list float)
    (edges_parent edges_child : list Z) (num_trees num_nodes : Z)
    (tp0 : TreePosition) (fuel : nat) :
  well_formed tp0 -> initial tp0 ->
  nodes_ok tp0 nodes_time edges_parent edges_child num_nodes ->
  arity_bounded tp0 edges_parent num_nodes ->
  (enough_fuel tp0 <= fuel)%nat ->
  exists ts tf,
    traverse chk fuel tp0 = Ok (ts, tf)
    /\ (Z.of_nat (length ts) <= num_trees < 2 ^ 63 ->
        exists total internal arity,
          _compute_per_tree_stats chk nodes_time edges_parent edges_child
            fuel tp0 num_trees num_nodes = Ok (total, internal, arity)
          /\ (forall i, (i < length ts)%nat ->
                (forall e, 0 <= e < num_edges tp0 ->
                   (fst (interval (nth i ts tp0)) < right_of tp0 e)%Q) ->
                nth i arity 0 =
                brute_max_arity tp0 edges_parent num_nodes
                  (fst (interval (nth i ts tp0))))).
Proof.
  intros WF Hinit NO AB Hfuel.
  destruct (traverse_total chk tp0 fuel WF Hinit Hfuel) as (ts & tf & Etr & _).
  exists ts, tf. split; [exact Etr|]. intros Hnt.
  pose proof (no_nodes _ _ _ _ _ NO) as Hnn.
  pose proof (stats_init_run num_trees num_nodes ltac:(lia) ltac:(lia)) as Einit.
  set (s0 := {| tbl := repeat 0%float (Z.to_nat num_trees);
                num_internal_nodes := repeat 0%float (Z.to_nat num_trees);
                max_arity := repeat 0 (Z.to_nat num_trees);
                num_children := repeat 0 (Z.to_nat num_nodes);
                nodes_with_arity := repeat 0 (Z.to_nat num_nodes);
                current_tbl := 0%float;
                tree_index := 0;
                current_num_internal_nodes := 0;
                current_max_arity := 0 |}) in *.
  pose proof (loop_inv_init edges_parent num_trees num_nodes tp0 s0 WF Hinit Einit) as LI0.
  destruct (stats_init_sized _ _ _ Einit) as (Hsz & Hti).
  assert (MC0 : max_counted s0).
  { unfold max_counted, s0. cbn [current_max_arity num_children].
    symmetry. apply fold_max_repeat_zero. }
  destruct (tree_loop_max chk nodes_time edges_parent edges_child num_trees
              num_nodes tp0 NO AB ltac:(lia) fuel (tp0, s0) ts tf LI0
              (fun _ => MC0) Etr Hsz)
    as (s' & Eloop & Hkeep & Hnew); cbn [snd]; try lia.
  cbn [snd] in Hkeep, Hnew. rewrite Hti in Hkeep, Hnew.
  exists (tbl s'), (num_internal_nodes s'), (max_arity s').
  split.
  { unfold _compute_per_tree_stats. rewrite Einit. cbn [bind].
    rewrite Eloop. reflexivity. }
  intros i Hi Hall. specialize (Hnew i Hi Hall). unfold zidx in Hnew.
  rewrite Z.add_0_l, Nat2Z.id in Hnew. exact Hnew.
Qed.

Lemma max_arity_before_first_removal_witness :
  exists ts tf,
    traverse false 8 three_edges = Ok (ts, tf)
    /\ (Z.of_nat (length ts) <= 3 < 2 ^ 63 ->
        exists total internal arity,
          _compute_per_tree_stats false three_edges_time three_edges_parent
            three_edges_child 8 three_edges 3 4 = Ok (total, internal, arity)
          /\ (forall i, (i < length ts)%nat ->
                (forall e, 0 <= e < num_edges three_edges ->
                   (fst (interval (nth i ts three_edges))
                    < right_of three_edges e)%Q) ->
                nth i arity 0 =
                brute_max_arity three_edges three_edges_parent 4
                  (fst (interval (nth i ts three_edges))))).
Proof.
  apply (max_arity_before_first_removal false three_edges_time three_edges_parent
           three_edges_child 3 4 three_edges 8).
  - apply three_edges_wf.
  - apply three_edges_initial.
  - apply three_edges_nodes.
  - apply three_edges_arity.
  - vm_compute. lia.
Defined.

(** * The loop over the mutations in TreeInfo.mutations_data *)

Lemma zrange_succ (k : Z) : 0 <= k -> zrange (k + 1) = zrange k ++ [k].
Proof.
  intros Hk. unfold zrange.
  replace (Z.to_nat (k + 1)) with (S (Z.to_nat k)) by lia.
  rewrite seq_S, map_app. cbn [map Nat.add]. rewrite Z2Nat.id by lia. reflexivity.
Qed.

Lemma fold_add_app (l l' : list Z) :
  fold_right Z.add 0 (l ++ l') = fold_right Z.add 0 l + fold_right Z.add 0 l'.
Proof. induction l as [|x l IH]; cbn [app fold_right]; lia. Qed.

Lemma inherited_succ (mutations_parent : list Z) (num_samples : Z -> Z) (k m : Z) :
  0 <= k ->
  inherited_from mutations_parent num_samples (k + 1) m
  = inherited_from mutations_parent num_samples k m
    + (if zidx 0 mutations_parent k =? m then num_samples k else 0).
Proof.
  intros Hk. unfold inherited_from. rewrite zrange_succ by exact Hk.
  rewrite filter_app, map_app, fold_add_app. f_equal.
  cbn [filter]. destruct (zidx 0 mutations_parent k =? m); cbn [map fold_right]; lia.
Qed.

Lemma inherited_bounds (mutations_parent : list Z) (num_samples : Z -> Z) (B m : Z) :
  forall k, 0 <= k ->
    (forall c, 0 <= c < k -> 0 <= num_samples c < B) ->
    0 <= inherited_from mutations_parent num_samples k m <= k * B.
Proof.
  apply (natlike_ind
           (fun k => (forall c, 0 <= c < k -> 0 <= num_samples c < B) ->
                     0 <= inherited_from mutations_parent num_samples k m <= k * B)).
  - intros _. cbn. lia.
  - intros k Hk IH H. unfold Z.succ. rewrite inherited_succ by exact Hk.
    specialize (IH ltac:(intros c Hc; apply H; lia)).
    pose proof (H k ltac:(lia)) as Hnk.
    destruct (zidx 0 mutations_parent k =? m); lia.
Qed.

Lemma inherited_none (mutations_parent : list Z) (num_samples : Z -> Z) (m : Z) :
  parents_first mutations_parent ->
  forall k, 0 <= k -> k <= Z.of_nat (length mutations_parent) -> k <= m ->
    inherited_from mutations_parent num_samples k m = 0.
Proof.
  intros PF.
  apply (natlike_ind
           (fun k => k <= Z.of_nat (length mutations_parent) -> k <= m ->
                     inherited_from mutations_parent num_samples k m = 0)).
  - intros _ _. reflexivity.
  - intros k Hk IH Hlen Hm. unfold Z.succ in *. rewrite inherited_succ by exact Hk.
    rewrite IH by lia.
    destruct (PF k ltac:(lia)) as [E|E];
      destruct (Z.eqb_spec (zidx 0 mutations_parent k) m); lia.
Qed.

Lemma count_parents_done (fuel : nat) (mutations_parent : list Z) (acc : Z) :
  count_parents fuel mutations_parent (-1) acc = Ok acc.
Proof. destruct fuel; reflexivity. Qed.

(** The walk from a mutation already processed counts it and its ancestors. *)
Lemma count_parents_run (mutations_parent : list Z) (num_samples : Z -> Z)
    (k : Z) (s : mutation_counts) :
  parents_first mutations_parent ->
  k <= Z.of_nat (length mutations_parent) ->
  mutations_upto mutations_parent num_samples k s ->
  forall (fuel : nat) (m acc : Z),
    0 <= m < k -> m < Z.of_nat fuel ->
    count_parents fuel mutations_parent m acc
    = Ok (acc + 1 + zidx 0 (mutations_num_parents s) m).
Proof.
  intros PF Hk (_ & _ & _ & Hinv).
  induction fuel as [|fuel IH]; intros m acc Hm Hfuel; [lia|].
  cbn [count_parents].
  destruct (Z.eqb_spec m (-1)); [lia|].
  rewrite (aget_in 0) by lia. cbn [bind].
  destruct (Hinv m Hm) as (_ & _ & Hnp). rewrite Hnp.
  destruct (PF m ltac:(lia)) as [E|E].
  - rewrite E. rewrite count_parents_done. change (-1 =? -1) with true.
    cbv iota. f_equal. lia.
  - destruct (Z.eqb_spec (zidx 0 mutations_parent m) (-1)); [lia|].
    rewrite IH by lia. f_equal. lia.
Qed.

Lemma mutation_step_run (fuel : nat) (mutations_parent : list Z)
    (num_samples : Z -> Z) (k : Z) (s : mutation_counts) :
  Z.of_nat (length mutations_parent) < 2 ^ 31 ->
  parents_first mutations_parent ->
  (forall m, 0 <= m < Z.of_nat (length mutations_parent) ->
             0 <= num_samples m < 2 ^ 31) ->
  (length mutations_parent <= fuel)%nat ->
  0 <= k < Z.of_nat (length mutations_parent) ->
  mutations_upto mutations_parent num_samples k s ->
  exists s',
    mutation_step fuel mutations_parent num_samples k s = Ok s'
    /\ mutations_upto mutations_parent num_samples (k + 1) s'.
Proof.
  intros HN PF Hns Hfuel Hk Hup.
  pose proof Hup as (L1 & L2 & L3 & Hinv).
  set (N := Z.of_nat (length mutations_parent)) in *.
  set (d := num_samples k).
  set (p := zidx 0 mutations_parent k).
  set (nd := mutations_num_descendants s) in *.
  set (ni := mutations_num_inheritors s) in *.
  set (np := mutations_num_parents s) in *.
  pose proof (Hns k Hk) as Hd. fold d in Hd.
  pose proof (PF k Hk) as Hp. fold p in Hp.
  unfold mutation_step. fold d nd ni np.
  rewrite !aset_in by lia. cbn [bind].
  rewrite (aget_in 0) by (fold N; lia). cbn [bind]. fold p.
  destruct Hp as [Ep|Hp].
  - (* no parent *)
    rewrite Ep. change (-1 =? -1) with true. cbv iota. cbn [bind].
    rewrite count_parents_done. cbn [bind].
    rewrite aset_in by lia. cbn [bind].
    eexists. split; [reflexivity|].
    split; [cbn [mutations_num_descendants]; rewrite upd_length; exact L1|].
    split; [cbn [mutations_num_inheritors]; rewrite upd_length; exact L2|].
    split; [cbn [mutations_num_parents]; rewrite upd_length; exact L3|].
    intros m Hm.
    cbn [mutations_num_descendants mutations_num_inheritors mutations_num_parents].
    rewrite inherited_succ by lia. fold p. rewrite Ep.
    destruct (Z.eq_dec m k) as [->|Hmk].
    + rewrite !zidx_upd_same by lia. fold p. rewrite Ep.
      change (-1 =? -1) with true. cbv iota.
      rewrite (inherited_none mutations_parent num_samples k PF k) by (fold N; lia).
      destruct (Z.eqb_spec (-1) k); [lia|]. repeat split; lia.
    + rewrite !(zidx_upd_other _ _ k m) by lia.
      destruct (Hinv m ltac:(lia)) as (I1 & I2 & I3).
      destruct (Z.eqb_spec (-1) m); [lia|].
      split; [exact I1|]. split; [fold ni in I2; lia|].
      fold np in I3. rewrite I3.
      destruct (Z.eqb_spec (zidx 0 mutations_parent m) (-1)); [reflexivity|].
      destruct (PF m ltac:(fold N; lia)) as [E|E]; [lia|].
      rewrite zidx_upd_other by lia. reflexivity.
  - (* the parent is an earlier mutation *)
    destruct (Z.eqb_spec p (-1)); [lia|].
    rewrite (aget_in 0) by (rewrite upd_length; lia). cbn [bind].
    rewrite zidx_upd_other by lia.
    rewrite aset_in by (rewrite upd_length; lia). cbn [bind].
    rewrite (count_parents_run mutations_parent num_samples k s PF ltac:(fold N; lia)
               Hup fuel p 0 ltac:(lia) ltac:(fold N in Hfuel; lia)).
    cbn [bind]. fold np. rewrite aset_in by lia. cbn [bind].
    destruct (Hinv p ltac:(lia)) as (_ & Ip & _). fold ni in Ip.
    pose proof (inherited_bounds mutations_parent num_samples (2 ^ 31) p k
                  ltac:(lia) ltac:(intros c Hc; apply Hns; fold N; lia)) as Hb.
    pose proof (Hns p ltac:(fold N; lia)) as Hdp.
    rewrite int64_small by nia.
    eexists. split; [reflexivity|].
    split; [cbn [mutations_num_descendants]; rewrite upd_length; exact L1|].
    split; [cbn [mutations_num_inheritors]; rewrite !upd_length; exact L2|].
    split; [cbn [mutations_num_parents]; rewrite upd_length; exact L3|].
    intros m Hm.
    cbn [mutations_num_descendants mutations_num_inheritors mutations_num_parents].
    rewrite inherited_succ by lia. fold p.
    destruct (Z.eq_dec m k) as [->|Hmk].
    + rewrite (zidx_upd_other _ _ p k) by lia.
      rewrite !zidx_upd_same by lia. fold p.
      destruct (Z.eqb_spec p (-1)); [lia|].
      rewrite (zidx_upd_other _ _ k p) by lia.
      rewrite (inherited_none mutations_parent num_samples k PF k) by (fold N; lia).
      destruct (Z.eqb_spec p k); [lia|]. repeat split; lia.
    + rewrite !(zidx_upd_other _ _ k m) by lia.
      destruct (Hinv m ltac:(lia)) as (I1 & I2 & I3).
      split; [exact I1|]. split.
      * destruct (Z.eq_dec m p) as [->|Hmp].
        -- rewrite zidx_upd_same by (rewrite upd_length; lia).
           rewrite Z.eqb_refl. fold d. fold ni in I2. lia.
        -- rewrite zidx_upd_other by lia.
           rewrite (zidx_upd_other _ _ k m) by lia.
           destruct (Z.eqb_spec p m); [lia|]. fold ni in I2. lia.
      * fold np in I3. rewrite I3.
        destruct (Z.eqb_spec (zidx 0 mutations_parent m) (-1)); [reflexivity|].
        destruct (PF m ltac:(fold N; lia)) as [E|E]; [lia|].
        rewrite zidx_upd_other by lia. reflexivity.
Qed.

Lemma mutations_loop_run (fuel : nat) (mutations_parent : list Z)
    (num_samples : Z -> Z) :
  Z.of_nat (length mutations_parent) < 2 ^ 31 ->
  parents_first mutations_parent ->
  (forall m, 0 <= m < Z.of_nat (length mutations_parent) ->
             0 <= num_samples m < 2 ^ 31) ->
  (length mutations_parent <= fuel)%nat ->
  exists s,
    mutations_loop fuel mutations_parent num_samples = Ok s
    /\ mutations_upto mutations_parent num_samples
         (Z.of_nat (length mutations_parent)) s.
Proof.
  intros HN PF Hns Hfuel. unfold mutations_loop, zeros.
  destruct (Z.ltb_spec (Z.of_nat (length mutations_parent)) 0); [lia|].
  cbn [bind].
  apply (for_range_inv (mutations_upto mutations_parent num_samples)).
  - lia.
  - unfold mutations_upto.
    cbn [mutations_num_descendants mutations_num_inheritors mutations_num_parents].
    rewrite !repeat_length. repeat split; try lia.
  - intros k s Hk Hup.
    apply (mutation_step_run fuel mutations_parent num_samples k s); assumption.
Qed.

(** X12: when parent mutations are listed before their children, the loop
    over the mutations ends without an error and stores for each mutation
    its count of descendants and, as its number of inheritors, that count
    less the counts of the mutations whose parent it is. *)
Theorem inheritors_exclude_child_mutations (fuel : nat) (mutations_parent : list Z)
    (num_samples : Z -> Z) :
  Z.of_nat (length mutations_parent) < 2 ^ 31 ->
  parents_first mutations_parent ->
  (forall m, 0 <= m < Z.of_nat (length mutations_parent) ->
             0 <= num_samples m < 2 ^ 31) ->
  (length mutations_parent <= fuel)%nat ->
  exists s,
    mutations_loop fuel mutations_parent num_samples = Ok s
    /\ forall m, 0 <= m < Z.of_nat (length mutations_parent) ->
         zidx 0 (mutations_num_descendants s) m = num_samples m
         /\ zidx 0 (mutations_num_inheritors s) m
            = num_samples m
              - inherited_from mutations_parent num_samples
                  (Z.of_nat (length mutations_parent)) m.
Proof.
  intros HN PF Hns Hfuel.
  destruct (mutations_loop_run fuel mutations_parent num_samples HN PF Hns Hfuel)
    as (s & E & _ & _ & _ & Hinv).
  exists s. split; [exact E|]. intros m Hm.
  destruct (Hinv m Hm) as (I1 & I2 & _). split; assumption.
Qed.

Lemma inheritors_exclude_child_mutations_witness :
  exists s,
    mutations_loop 3 [-1; 0; 0] (fun m => 5 - m) = Ok s
    /\ forall m, 0 <= m < Z.of_nat (length [-1; 0; 0]) ->
         zidx 0 (mutations_num_descendants s) m = 5 - m
         /\ zidx 0 (mutations_num_inheritors s) m
            = 5 - m - inherited_from [-1; 0; 0] (fun m => 5 - m)
                        (Z.of_nat (length [-1; 0; 0])) m.
Proof.
  apply (inheritors_exclude_child_mutations 3 [-1; 0; 0] (fun m => 5 - m)).
  - vm_compute. reflexivity.
  - intros m Hm. change (Z.of_nat (length [-1; 0; 0])) with 3 in Hm.
    below3 m; vm_compute; [left; reflexivity | right | right];
      split; discriminate || reflexivity.
  - intros m Hm. change (Z.of_nat (length [-1; 0; 0])) with 3 in Hm. lia.
  - cbn [length]. lia.
Defined.

(** X13: when parent mutations are listed before their children, every walk
    up the chain of parents ends, and the number of parents stored for a
    mutation is 0 if it has no parent and one more than the number stored
    for its parent otherwise. *)
Theorem num_parents_is_chain_length (fuel : nat) (mutations_parent : list Z)
    (num_samples : Z -> Z) :
  Z.of_nat (length mutations_parent) < 2 ^ 31 ->
  parents_first mutations_parent ->
  (forall m, 0 <= m < Z.of_nat (length mutations_parent) ->
             0 <= num_samples m < 2 ^ 31) ->
  (length mutations_parent <= fuel)%nat ->
  exists s,
    mutations_loop fuel mutations_parent num_samples = Ok s
    /\ forall m, 0 <= m < Z.of_nat (length mutations_parent) ->
         zidx 0 (mutations_num_parents s) m
         = (if zidx 0 mutations_parent m =? -1 then 0
            else 1 + zidx 0 (mutations_num_parents s) (zidx 0 mutations_parent m)).
Proof.
  intros HN PF Hns Hfuel.
  destruct (mutations_loop_run fuel mutations_parent num_samples HN PF Hns Hfuel)
    as (s & E & _ & _ & _ & Hinv).
  exists s. split; [exact E|]. intros m Hm.
  destruct (Hinv m Hm) as (_ & _ & I3). exact I3.
Qed.

Lemma num_parents_is_chain_length_witness :
  exists s,
    mutations_loop 3 [-1; 0; 1] (fun m => 5 - m) = Ok s
    /\ forall m, 0 <= m < Z.of_nat (length [-1; 0; 1]) ->
         zidx 0 (mutations_num_parents s) m
         = (if zidx 0 [-1; 0; 1] m =? -1 then 0
            else 1 + zidx 0 (mutations_num_parents s) (zidx 0 [-1; 0; 1] m)).
Proof.
  apply (num_parents_is_chain_length 3 [-1; 0; 1] (fun m => 5 - m)).
  - vm_compute. reflexivity.
  - intros m Hm. change (Z.of_nat (length [-1; 0; 1])) with 3 in Hm.
    below3 m; vm_compute; [left; reflexivity | right | right];
      split; discriminate || reflexivity.
  - intros m Hm. change (Z.of_nat (length [-1; 0; 1])) with 3 in Hm. lia.
  - cbn [length]. lia.
Defined.

(** * The cursor after the end of a traversal *)

Lemma chained_last (rs : list (Z * Z)) :
  forall (a b : Z) (r : Z * Z), chained a (rs ++ [r]) b -> snd r = b.
Proof.
  induction rs as [|r0 rs IH]; intros a b r H; cbn [app chained] in H.
  - destruct H as (_ & _ & H). exact H.
  - destruct H as (_ & _ & H). apply (IH _ _ _ H).
Qed.

Lemma next_at_end (chk : bool) (tp : TreePosition) :
  shaped tp ->
  snd (in_range tp) = num_edges tp ->
  snd (out_range tp) = num_edges tp ->
  snd (interval tp) = sequence_length tp ->
  next chk tp =
    Ok (false,
        set_ranges tp (sequence_length tp, sequence_length tp)
          (num_edges tp, num_edges tp) (num_edges tp, num_edges tp)).
Proof.
  intros SH Ej Ek Ex.
  pose proof (sh_edges tp SH) as HM.
  destruct (next_run chk tp SH ltac:(lia) ltac:(lia))
    as (j' & k' & Erun & Hj' & Hk' & _).
  assert (j' = num_edges tp) by lia. assert (k' = num_edges tp) by lia. subst j' k'.
  rewrite Erun. rewrite Ej, Ek, Ex.
  unfold new_right. rewrite Z.ltb_irrefl. rewrite Qlt_bool_irrefl. reflexivity.
Qed.

(** X14: once a traversal has ended, [next] keeps answering false.  The call
    after the one that ended the traversal leaves the cursor with both ranges
    empty at [num_edges] and the interval empty at [sequence_length], and no
    later call changes it: the cursor does not start over. *)
Theorem next_stays_false (chk : bool) (tp : TreePosition) (fuel : nat) :
  well_formed tp -> initial tp -> (enough_fuel tp <= fuel)%nat ->
  exists ts tf tf',
    traverse chk fuel tp = Ok (ts, tf)
    /\ next chk tf = Ok (false, tf')
    /\ next chk tf' = Ok (false, tf')
    /\ interval tf' = (sequence_length tp, sequence_length tp)
    /\ in_range tf' = (num_edges tp, num_edges tp)
    /\ out_range tf' = (num_edges tp, num_edges tp).
Proof.
  intros WF Hinit Hfuel.
  destruct (traverse_total chk tp fuel WF Hinit Hfuel) as (ts & tf & Etr & RP).
  destruct RP as [_ Rin Rout Rtab Rat].
  rewrite map_app in Rin, Rout. cbn [map] in Rin, Rout.
  apply chained_last in Rin. apply chained_last in Rout.
  rewrite Forall_app in Rtab, Rat.
  destruct Rtab as (_ & Rtab). destruct Rat as (_ & Rat).
  apply Forall_inv in Rtab. apply Forall_inv in Rat.
  assert (WFf : well_formed tf) by (apply (same_table_wf tp); assumption).
  pose proof (well_formed_shaped tf WFf) as SHf.
  destruct Rtab as (EM & EL & _).
  assert (Ex : snd (interval tf) = sequence_length tf).
  { rewrite (at_right tf Rat). unfold new_right.
    rewrite Rin, Rout, EM, !Z.ltb_irrefl. reflexivity. }
  set (tf' := set_ranges tf (sequence_length tf, sequence_length tf)
                (num_edges tf, num_edges tf) (num_edges tf, num_edges tf)).
  exists ts, tf, tf'. split; [exact Etr|]. split; [|split].
  - apply next_at_end; auto; lia.
  - assert (SH' : shaped tf').
    { destruct SHf as [H1 H2 H3 H4 H5 H6 H7]. constructor; assumption. }
    rewrite (next_at_end chk tf' SH'); reflexivity.
  - unfold tf'. cbn [set_ranges interval in_range out_range].
    rewrite EM, EL. repeat split.
Qed.

Lemma next_stays_false_witness :
  exists ts tf tf',
    traverse false 8 three_edges = Ok (ts, tf)
    /\ next false tf = Ok (false, tf')
    /\ next false tf' = Ok (false, tf')
    /\ interval tf' = (sequence_length three_edges, sequence_length three_edges)
    /\ in_range tf' = (num_edges three_edges, num_edges three_edges)
    /\ out_range tf' = (num_edges three_edges, num_edges three_edges).
Proof.
  apply (next_stays_false false three_edges 8).
  - apply three_edges_wf.
  - apply three_edges_initial.
  - vm_compute. lia.
Defined.

(** * Output arrays that are too short *)


Section ShortOutputs.

Variable chk : bool.
Variables (nodes_time : list float) (edges_parent edges_child : list Z).
Variables (num_trees num_nodes : Z).
Variable tp0 : TreePosition.
Hypothesis NO : nodes_ok tp0 nodes_time edges_parent edges_child num_nodes.
Hypothesis AB : arity_bounded tp0 edges_parent num_nodes.
Hypothesis NT : num_trees < 2 ^ 63.


End ShortOutputs.




(** * Sites and mutations per tree *)

Lemma filter_none {A : Type} (f : A -> bool) (l : list A) :
  (forall x, In x l -> f x = false) -> filter f l = [].
Proof.
  induction l as [|x l IH]; intros H; cbn [filter]; [reflexivity|].
  rewrite (H x (or_introl eq_refl)). apply IH. intros y Hy. apply H. right. exact Hy.
Qed.

Lemma searchsorted_split (x : Q) (l : list Q) :
  increasing l ->
  (forall i, (i < length (filter (fun b => Qle_bool b x) l))%nat ->
             (nth i l 0 <= x)%Q)
  /\ (forall i, (length (filter (fun b => Qle_bool b x) l) <= i < length l)%nat ->
                (x < nth i l 0)%Q).
Proof.
  induction l as [|h t IH]; intros Hinc.
  - split; intros i Hi; cbn [filter length] in Hi; lia.
  - cbn [increasing] in Hinc. destruct Hinc as (Hh & Ht).
    specialize (IH Ht). destruct IH as (IH1 & IH2).
    cbn [filter]. destruct (Qle_bool h x) eqn:E.
    + apply Qle_bool_iff in E. split.
      * intros [|i] Hi; cbn [nth]; [exact E|]. apply IH1. cbn [length] in Hi. lia.
      * intros [|i] Hi; cbn [length] in Hi; [lia|]. cbn [nth]. apply IH2. lia.
    + assert (Hx : (x < h)%Q).
      { apply Qnot_le_lt. intros Hle. apply Qle_bool_iff in Hle. congruence. }
      rewrite filter_none.
      * split; intros i Hi; cbn [length] in Hi; [lia|].
        destruct i as [|i]; cbn [nth]; [exact Hx|].
        assert (In (nth i t 0%Q) t) by (apply nth_In; lia).
        specialize (Hh _ H). lra.
      * intros y Hy. specialize (Hh y Hy).
        destruct (Qle_bool y x) eqn:Ey; [|reflexivity].
        apply Qle_bool_iff in Ey. lra.
Qed.

Lemma searchsorted_brackets (breakpoints : list Q) (x : Q) :
  increasing breakpoints ->
  (exists lo, In lo breakpoints /\ (lo <= x)%Q) ->
  (exists hi, In hi breakpoints /\ (x < hi)%Q) ->
  0 <= searchsorted_right breakpoints x - 1 < Z.of_nat (length breakpoints) - 1
  /\ (zidx 0 breakpoints (searchsorted_right breakpoints x - 1) <= x)%Q
  /\ (x < zidx 0 breakpoints (searchsorted_right breakpoints x - 1 + 1))%Q.
Proof.
  intros Hinc (lo & Hlo & Hlox) (hi & Hhi & Hxhi).
  destruct (searchsorted_split x breakpoints Hinc) as (H1 & H2).
  unfold searchsorted_right.
  set (c := length (filter (fun b => Qle_bool b x) breakpoints)) in *.
  assert (Hc1 : (1 <= c)%nat).
  { assert (In lo (filter (fun b => Qle_bool b x) breakpoints)).
    { apply filter_In. split; [exact Hlo|]. apply Qle_bool_iff. exact Hlox. }
    unfold c. destruct (filter (fun b => Qle_bool b x) breakpoints);
      [contradiction | cbn [length]; lia]. }
  assert (Hc2 : (c < length breakpoints)%nat).
  { pose proof (filter_length_le (fun b => Qle_bool b x) breakpoints) as Hle.
    fold c in Hle.
    destruct (Nat.eq_dec c (length breakpoints)) as [E|N]; [|lia].
    exfalso. destruct (In_nth _ _ 0%Q Hhi) as (i & Hi & Ei).
    specialize (H1 i ltac:(lia)). rewrite Ei in H1. lra. }
  split; [lia|]. unfold zidx. split.
  - replace (Z.to_nat (Z.of_nat c - 1)) with (c - 1)%nat by lia. apply H1. lia.
  - replace (Z.to_nat (Z.of_nat c - 1 + 1)) with c by lia. apply H2. lia.
Qed.

(** X16: for breakpoints that increase strictly, a site whose position lies
    between the first and the last breakpoint gets the index of the one tree
    interval that holds it: the index [k] is a valid tree index and
    [breakpoints[k] <= position < breakpoints[k + 1]]. *)
Theorem site_tree_index_brackets (breakpoints sites_position : list Q) (s : nat) :
  increasing breakpoints ->
  (s < length sites_position)%nat ->
  (exists lo, In lo breakpoints /\ (lo <= nth s sites_position 0)%Q) ->
  (exists hi, In hi breakpoints /\ (nth s sites_position 0 < hi)%Q) ->
  let k := nth s (calc_site_tree_index breakpoints sites_position) 0 in
  0 <= k < Z.of_nat (length breakpoints) - 1
  /\ (zidx 0 breakpoints k <= nth s sites_position 0)%Q
  /\ (nth s sites_position 0 < zidx 0 breakpoints (k + 1))%Q.
Proof.
  intros Hinc Hs Hlo Hhi. unfold calc_site_tree_index.
  rewrite (nth_indep _ 0 (searchsorted_right breakpoints 0%Q - 1))
    by (rewrite length_map; exact Hs).
  rewrite (map_nth (fun x => searchsorted_right breakpoints x - 1) sites_position 0%Q s).
  cbv zeta. apply searchsorted_brackets; assumption.
Qed.

Lemma site_tree_index_brackets_witness :
  let k := nth 1 (calc_site_tree_index [0; 5 # 2; 10]%Q [1; 5 # 2; 7]%Q) 0 in
  0 <= k < Z.of_nat (length [0; 5 # 2; 10]%Q) - 1
  /\ (zidx 0 [0; 5 # 2; 10] k <= nth 1 [1; 5 # 2; 7] 0)%Q
  /\ (nth 1 [1; 5 # 2; 7] 0 < zidx 0 [0; 5 # 2; 10] (k + 1))%Q.
Proof.
  apply (site_tree_index_brackets [0; 5 # 2; 10]%Q [1; 5 # 2; 7]%Q 1).
  - cbn [increasing In]. repeat split; intros y Hy;
      repeat (destruct Hy as [<-|Hy]; [reflexivity|]); contradiction.
  - cbn [length]. lia.
  - exists 0%Q. split; [left; reflexivity | discriminate].
  - exists 10%Q. split; [right; right; left; reflexivity | reflexivity].
Defined.

Lemma sorted_from_weaken (uc : list (Z * Z)) (lo lo' : Z) :
  sorted_from lo uc -> lo' <= lo -> sorted_from lo' uc.
Proof.
  destruct uc as [|p rest]; cbn [sorted_from]; [auto|].
  intros (H1 & H2) Hle. split; [lia | exact H2].
Qed.

Lemma listed_count_below (uc : list (Z * Z)) :
  forall lo k, sorted_from lo uc -> k < lo -> listed_count k uc = 0.
Proof.
  unfold listed_count.
  induction uc as [|p rest IH]; intros lo k Hs Hk; cbn [find]; [reflexivity|].
  cbn [sorted_from] in Hs. destruct Hs as (H1 & H2).
  destruct (Z.eqb_spec (fst p) k); [lia|].
  apply (IH (fst p + 1)); [exact H2 | lia].
Qed.

Lemma count_value_sorted (v : Z) (uc : list (Z * Z)) :
  forall lo lo', sorted_from lo uc -> lo' <= lo -> lo' <= v ->
    sorted_from lo' (count_value v uc).
Proof.
  induction uc as [|(u, c) rest IH]; intros lo lo' Hs Hle Hv.
  - cbn [count_value sorted_from fst]. auto.
  - cbn [sorted_from fst] in Hs. destruct Hs as (H1 & H2).
    cbn [count_value].
    destruct (Z.ltb_spec v u).
    + cbn [sorted_from fst]. repeat split; auto; lia.
    + destruct (Z.eqb_spec v u).
      * cbn [sorted_from fst]. split; [lia | exact H2].
      * cbn [sorted_from fst]. split; [lia|].
        apply (IH (u + 1)); [exact H2 | lia | lia].
Qed.

Lemma listed_count_value (v k : Z) (uc : list (Z * Z)) :
  forall lo, sorted_from lo uc ->
    listed_count k (count_value v uc)
    = listed_count k uc + (if k =? v then 1 else 0).
Proof.
  induction uc as [|(u, c) rest IH]; intros lo Hs.
  - unfold listed_count. cbn [count_value find fst snd].
    rewrite (Z.eqb_sym v k). destruct (k =? v); reflexivity.
  - cbn [sorted_from fst] in Hs. destruct Hs as (H1 & H2).
    cbn [count_value].
    destruct (Z.ltb_spec v u).
    + unfold listed_count. cbn [find fst snd].
      rewrite (Z.eqb_sym v k).
      destruct (Z.eqb_spec k v) as [->|Hkv].
      * cbn [snd]. destruct (Z.eqb_spec u v); [lia|].
        pose proof (listed_count_below rest (u + 1) v H2 ltac:(lia)) as H0.
        unfold listed_count in H0. rewrite H0. reflexivity.
      * lia.
    + destruct (Z.eqb_spec v u) as [->|Hne].
      * unfold listed_count. cbn [find fst snd].
        rewrite (Z.eqb_sym u k). destruct (Z.eqb_spec k u); cbn [snd]; lia.
      * specialize (IH (u + 1) H2). unfold listed_count in *. cbn [find fst snd].
        destruct (Z.eqb_spec u k) as [->|Huk].
        -- destruct (Z.eqb_spec k v); cbn [snd]; lia.
        -- exact IH.
Qed.

Lemma unique_counts_spec (lo : Z) (l : list Z) :
  (forall v, In v l -> lo <= v) ->
  sorted_from lo (unique_counts l)
  /\ forall k, listed_count k (unique_counts l) = occurrences l k.
Proof.
  induction l as [|v l IH]; intros Hlo.
  - split; [exact I | reflexivity].
  - destruct IH as (IH1 & IH2); [intros w Hw; apply Hlo; right; exact Hw|].
    cbn [unique_counts fold_right]. fold (unique_counts l). split.
    + apply (count_value_sorted v _ lo lo IH1); [lia|]. apply Hlo. left. reflexivity.
    + intros k. rewrite (listed_count_value v k _ lo IH1). rewrite IH2.
      unfold occurrences. cbn [filter]. rewrite (Z.eqb_sym v k).
      destruct (k =? v); cbn [length]; lia.
Qed.

Lemma count_value_keys (v : Z) (uc : list (Z * Z)) (p : Z * Z) :
  In p (count_value v uc) -> fst p = v \/ exists q, In q uc /\ fst q = fst p.
Proof.
  induction uc as [|(u, c) rest IH]; cbn [count_value].
  - intros [<-|[]]. left. reflexivity.
  - destruct (Z.ltb_spec v u).
    + intros [<-|Hin]; [left; reflexivity|]. right. exists p. split; [exact Hin | reflexivity].
    + destruct (Z.eqb_spec v u) as [->|Hne].
      * intros [<-|Hin]; [left; reflexivity|].
        right. exists p. split; [right; exact Hin | reflexivity].
      * intros [<-|Hin].
        -- right. exists (u, c). split; [left; reflexivity | reflexivity].
        -- destruct (IH Hin) as [E|(q & Hq & Eq)]; [left; exact E|].
           right. exists q. split; [right; exact Hq | exact Eq].
Qed.

Lemma unique_counts_keys (l : list Z) (p : Z * Z) :
  In p (unique_counts l) -> In (fst p) l.
Proof.
  revert p. induction l as [|v l IH]; intros p; cbn [unique_counts fold_right].
  - intros [].
  - fold (unique_counts l). intros Hin.
    destruct (count_value_keys v _ p Hin) as [E|(q & Hq & Eq)].
    + left. symmetry. exact E.
    + right. rewrite <- Eq. apply IH. exact Hq.
Qed.

Lemma sorted_from_keys (uc : list (Z * Z)) :
  forall (lo : Z) (p : Z * Z), sorted_from lo uc -> In p uc -> lo <= fst p.
Proof.
  induction uc as [|q rest IH]; intros lo p Hs Hp; [contradiction|].
  cbn [sorted_from] in Hs. destruct Hs as (Hq & Hs).
  destruct Hp as [->|Hp]; [exact Hq|].
  pose proof (IH (fst q + 1) p Hs Hp). lia.
Qed.

Lemma assign_at_run (uc : list (Z * Z)) :
  forall (lo : Z) (a : list Z),
    sorted_from lo uc -> 0 <= lo ->
    (forall p, In p uc -> fst p < Z.of_nat (length a)) ->
    exists a',
      assign_at a uc = Ok a'
      /\ length a' = length a
      /\ forall k, 0 <= k < Z.of_nat (length a) ->
           zidx 0 a' k = (if existsb (fun p => fst p =? k) uc
                          then listed_count k uc else zidx 0 a k).
Proof.
  induction uc as [|(u, c) rest IH]; intros lo a Hs Hlo Hin.
  - exists a. split; [reflexivity|]. split; [reflexivity|]. intros k Hk. reflexivity.
  - cbn [sorted_from fst] in Hs. destruct Hs as (H1 & H2).
    pose proof (Hin (u, c) (or_introl eq_refl)) as Hu. cbn [fst] in Hu.
    cbn [assign_at]. rewrite aset_in by lia. cbn [bind].
    destruct (IH (u + 1) (upd a (Z.to_nat u) c) H2 ltac:(lia)) as (a' & E & L & Hval).
    { intros p Hp. rewrite upd_length. apply Hin. right. exact Hp. }
    rewrite upd_length in L, Hval.
    exists a'. split; [exact E|]. split; [exact L|].
    intros k Hk. rewrite (Hval k Hk).
    unfold listed_count. cbn [existsb find fst snd].
    destruct (Z.eqb_spec u k) as [->|Huk].
    + cbn [orb].
      assert (Hno : existsb (fun p => fst p =? k) rest = false).
      { apply not_true_is_false. intros Hex. apply existsb_exists in Hex.
        destruct Hex as (p & Hp & Ep). apply Z.eqb_eq in Ep.
        pose proof (sorted_from_keys rest (k + 1) p H2 Hp). lia. }
      rewrite Hno. apply zidx_upd_same. lia.
    + cbn [orb].
      destruct (existsb (fun p => fst p =? k) rest); [reflexivity|].
      apply zidx_upd_other; lia.
Qed.

Lemma existsb_false_find {A : Type} (f : A -> bool) (l : list A) :
  existsb f l = false -> find f l = None.
Proof.
  induction l as [|x l IH]; cbn [existsb find]; [reflexivity|].
  destruct (f x); cbn [orb]; [discriminate | exact IH].
Qed.

Lemma per_tree_counts_run (num_trees : Z) (tree_index : list Z) :
  0 <= num_trees ->
  (forall v, In v tree_index -> 0 <= v < num_trees) ->
  exists per_tree,
    per_tree_counts num_trees tree_index = Ok per_tree
    /\ Z.of_nat (length per_tree) = num_trees
    /\ forall k, 0 <= k < num_trees ->
         zidx 0 per_tree k = occurrences tree_index k.
Proof.
  intros Hn Hrange. unfold per_tree_counts, zeros.
  destruct (Z.ltb_spec num_trees 0); [lia|]. cbn [bind].
  destruct (unique_counts_spec 0 tree_index) as (Hs & Hc).
  { intros v Hv. apply Hrange. exact Hv. }
  destruct (assign_at_run (unique_counts tree_index) 0
              (repeat 0 (Z.to_nat num_trees)) Hs ltac:(lia))
    as (a' & E & L & Hval).
  { intros p Hp. rewrite repeat_length.
    pose proof (Hrange _ (unique_counts_keys tree_index p Hp)). lia. }
  rewrite repeat_length in L, Hval.
  exists a'. split; [exact E|]. split; [lia|].
  intros k Hk. rewrite (Hval k ltac:(lia)). rewrite zidx_repeat.
  rewrite <- Hc.
  destruct (existsb (fun p => fst p =? k) (unique_counts tree_index)) eqn:Ex;
    [reflexivity|].
  unfold listed_count. rewrite (existsb_false_find _ _ Ex). reflexivity.
Qed.

Lemma searchsorted_unique (breakpoints : list Q) (x : Q) (k : Z) :
  increasing breakpoints ->
  0 <= k -> k + 1 < Z.of_nat (length breakpoints) ->
  (zidx 0 breakpoints k <= x)%Q -> (x < zidx 0 breakpoints (k + 1))%Q ->
  searchsorted_right breakpoints x - 1 = k.
Proof.
  intros Hinc Hk0 Hk1 Hlo Hhi.
  destruct (searchsorted_split x breakpoints Hinc) as (H1 & H2).
  unfold searchsorted_right.
  set (c := length (filter (fun b => Qle_bool b x) breakpoints)) in *.
  pose proof (filter_length_le (fun b => Qle_bool b x) breakpoints) as Hle.
  fold c in Hle. unfold zidx in Hlo, Hhi.
  destruct (Z.lt_trichotomy (Z.of_nat c) (k + 1)) as [Hlt|[Heq|Hgt]]; [|lia|].
  - exfalso. specialize (H2 (Z.to_nat k) ltac:(lia)). lra.
  - exfalso. specialize (H1 (Z.to_nat (k + 1)) ltac:(lia)). lra.
Qed.

(** The per-tree counts of a list of positions that lie between the first
    and the last breakpoint. *)
Lemma tree_counts_of_positions (num_trees : Z) (breakpoints xs : list Q) :
  0 <= num_trees ->
  Z.of_nat (length breakpoints) = num_trees + 1 ->
  increasing breakpoints ->
  (forall x, In x xs ->
     (zidx 0 breakpoints 0 <= x)%Q /\ (x < zidx 0 breakpoints num_trees)%Q) ->
  exists per_tree,
    per_tree_counts num_trees (calc_site_tree_index breakpoints xs) = Ok per_tree
    /\ Z.of_nat (length per_tree) = num_trees
    /\ forall k, 0 <= k < num_trees ->
         zidx 0 per_tree k = positions_in breakpoints xs k.
Proof.
  intros Hn Hlen Hinc Hpos.
  assert (Hbr : forall x, In x xs ->
            0 <= searchsorted_right breakpoints x - 1 < num_trees
            /\ (zidx 0 breakpoints (searchsorted_right breakpoints x - 1) <= x)%Q
            /\ (x < zidx 0 breakpoints (searchsorted_right breakpoints x - 1 + 1))%Q).
  { intros x Hx. destruct (Hpos x Hx) as (Hlo & Hhi).
    destruct (searchsorted_brackets breakpoints x Hinc) as (B1 & B2 & B3).
    - exists (zidx 0%Q breakpoints 0). split; [|exact Hlo].
      unfold zidx. apply nth_In. lia.
    - exists (zidx 0%Q breakpoints num_trees). split; [|exact Hhi].
      unfold zidx. apply nth_In. lia.
    - split; [lia|]. split; assumption. }
  destruct (per_tree_counts_run num_trees (calc_site_tree_index breakpoints xs))
    as (r & E & L & Hval).
  - lia.
  - intros v Hv. unfold calc_site_tree_index in Hv. apply in_map_iff in Hv.
    destruct Hv as (x & <- & Hx). apply (Hbr x Hx).
  - exists r. split; [exact E|]. split; [exact L|].
    intros k Hk. rewrite (Hval k Hk).
    unfold occurrences, positions_in, calc_site_tree_index.
    rewrite filter_map_length. do 2 f_equal.
    apply filter_ext_in. intros x Hx.
    destruct (Hbr x Hx) as (B1 & B2 & B3).
    destruct (Z.eqb_spec (searchsorted_right breakpoints x - 1) k) as [Ek|Nk].
    + rewrite Ek in B2, B3. symmetry. apply andb_true_iff. split.
      * apply Qle_bool_iff. exact B2.
      * apply Qlt_bool_true. exact B3.
    + symmetry. apply not_true_is_false. intros Hb. apply andb_true_iff in Hb.
      destruct Hb as (Hb1 & Hb2). apply Qle_bool_iff in Hb1.
      apply Qlt_bool_iff in Hb2. apply Nk.
      apply searchsorted_unique; auto; lia.
Qed.

(** X17: for breakpoints that increase strictly, [num_trees] intervals and
    sites that all lie between the first and the last breakpoint,
    [calc_sites_per_tree] returns an array of [num_trees] entries whose entry
    [k] is the number of sites with
    [breakpoints[k] <= position < breakpoints[k + 1]]. *)
Theorem sites_per_tree_counts (num_trees : Z) (breakpoints sites_position : list Q) :
  0 <= num_trees ->
  Z.of_nat (length breakpoints) = num_trees + 1 ->
  increasing breakpoints ->
  (forall x, In x sites_position ->
     (zidx 0 breakpoints 0 <= x)%Q /\ (x < zidx 0 breakpoints num_trees)%Q) ->
  exists sites_per_tree,
    calc_sites_per_tree num_trees breakpoints sites_position = Ok sites_per_tree
    /\ Z.of_nat (length sites_per_tree) = num_trees
    /\ forall k, 0 <= k < num_trees ->
         zidx 0 sites_per_tree k = positions_in breakpoints sites_position k.
Proof.
  intros Hn Hlen Hinc Hpos. unfold calc_sites_per_tree.
  apply tree_counts_of_positions; assumption.
Qed.

Lemma sites_per_tree_counts_witness :
  exists sites_per_tree,
    calc_sites_per_tree 2 [0; 5 # 2; 10]%Q [1; 5 # 2; 7]%Q = Ok sites_per_tree
    /\ Z.of_nat (length sites_per_tree) = 2
    /\ forall k, 0 <= k < 2 ->
         zidx 0 sites_per_tree k
         = positions_in [0; 5 # 2; 10]%Q [1; 5 # 2; 7]%Q k.
Proof.
  apply (sites_per_tree_counts 2 [0; 5 # 2; 10]%Q [1; 5 # 2; 7]%Q).
  - lia.
  - reflexivity.
  - cbn [increasing In]. repeat split; intros y Hy;
      repeat (destruct Hy as [<-|Hy]; [reflexivity|]); contradiction.
  - intros x Hx. cbn [In] in Hx.
    repeat (destruct Hx as [<-|Hx]; [split; [discriminate | reflexivity]|]).
    contradiction.
Defined.

Lemma take_run (a : list Z) (idx : list Z) :
  (forall i, In i idx -> 0 <= i < Z.of_nat (length a)) ->
  take a idx = Ok (map (zidx 0 a) idx).
Proof.
  induction idx as [|i rest IH]; intros H; cbn [take map]; [reflexivity|].
  rewrite (aget_in 0) by (apply H; left; reflexivity). cbn [bind].
  rewrite IH by (intros j Hj; apply H; right; exact Hj). reflexivity.
Qed.

(** X18: with the same breakpoints and sites, and every mutation at a site
    of the table, [calc_mutations_per_tree] returns an array of [num_trees]
    entries whose entry [k] is the number of mutations whose site has
    [breakpoints[k] <= position < breakpoints[k + 1]]. *)
Theorem mutations_per_tree_counts (num_trees : Z)
    (breakpoints sites_position : list Q) (mutations_site : list Z) :
  0 <= num_trees ->
  Z.of_nat (length breakpoints) = num_trees + 1 ->
  increasing breakpoints ->
  (forall x, In x sites_position ->
     (zidx 0 breakpoints 0 <= x)%Q /\ (x < zidx 0 breakpoints num_trees)%Q) ->
  (forall m, In m mutations_site -> 0 <= m < Z.of_nat (length sites_position)) ->
  exists mutations_per_tree,
    calc_mutations_per_tree num_trees breakpoints sites_position mutations_site
    = Ok mutations_per_tree
    /\ Z.of_nat (length mutations_per_tree) = num_trees
    /\ forall k, 0 <= k < num_trees ->
         zidx 0 mutations_per_tree k
         = positions_in breakpoints
             (map (zidx 0%Q sites_position) mutations_site) k.
Proof.
  intros Hn Hlen Hinc Hpos Hmut. unfold calc_mutations_per_tree.
  rewrite take_run.
  2:{ intros m Hm. unfold calc_site_tree_index. rewrite length_map.
      apply Hmut. exact Hm. }
  cbn [bind].
  assert (Emap : map (zidx 0 (calc_site_tree_index breakpoints sites_position))
                   mutations_site
                 = calc_site_tree_index breakpoints
                     (map (zidx 0%Q sites_position) mutations_site)).
  { unfold calc_site_tree_index. rewrite map_map. apply map_ext_in.
    intros m Hm. unfold zidx.
    rewrite (nth_indep _ 0 (searchsorted_right breakpoints 0%Q - 1)).
    - apply (map_nth (fun x => searchsorted_right breakpoints x - 1)).
    - rewrite length_map. pose proof (Hmut m Hm). lia. }
  rewrite Emap. apply tree_counts_of_positions; [exact Hn | exact Hlen | exact Hinc|].
  intros x Hx. apply in_map_iff in Hx. destruct Hx as (m & <- & Hm).
  apply Hpos. unfold zidx. apply nth_In. pose proof (Hmut m Hm). lia.
Qed.

Lemma mutations_per_tree_counts_witness :
  exists mutations_per_tree,
    calc_mutations_per_tree 2 [0; 5 # 2; 10]%Q [1; 5 # 2; 7]%Q [0; 0; 2]
    = Ok mutations_per_tree
    /\ Z.of_nat (length mutations_per_tree) = 2
    /\ forall k, 0 <= k < 2 ->
         zidx 0 mutations_per_tree k
         = positions_in [0; 5 # 2; 10]%Q
             (map (zidx 0%Q [1; 5 # 2; 7]%Q) [0; 0; 2]) k.
Proof.
  apply (mutations_per_tree_counts 2 [0; 5 # 2; 10]%Q [1; 5 # 2; 7]%Q [0; 0; 2]).
  - lia.
  - reflexivity.
  - cbn [increasing In]. repeat split; intros y Hy;
      repeat (destruct Hy as [<-|Hy]; [reflexivity|]); contradiction.
  - intros x Hx. cbn [In] in Hx.
    repeat (destruct Hx as [<-|Hx]; [split; [discriminate | reflexivity]|]).
    contradiction.
  - intros m Hm. cbn [In] in Hm. cbn [length].
    repeat (destruct Hm as [<-|Hm]; [lia|]). contradiction.
Defined.
